(** * ChatGPT Turbo: the page-instrumentation engine of the generated
    content script

    The engine is the JavaScript text returned by [generateContentScript]
    (src/unnamed/part_001, lines 216-547).  Each of its components is an
    immediately-invoked function that closes over a few mutable variables
    and talks to the browser through the DOM.  The development below
    embeds these components as functions over an explicit document and
    an explicit record of the closed-over variables, and proves (or
    refutes) the properties the specification states about them.

    Conventions of the model
    - a DOM node reference is a natural number [nid], unique in a
      well-formed document ([wf]);
    - the document is a first-child / next-sibling tree, the shape of
      the DOM's own [firstChild] and [nextSibling] pointers;
    - lengths are integers (CSS pixels); the readings of
      [performance.now] are rationals (milliseconds with a fraction),
      those of [Date.now] integers (whole milliseconds);
    - the browser's answers ([getBoundingClientRect], [performance.now],
      [Date.now], [performance.memory], intersection notifications) are
      inputs of the embedded functions. *)

From Stdlib Require Import ZArith QArith Qround String List Bool Lia Lqa.
From stdpp Require Import base gmap strings pretty.
Import ListNotations.
Open Scope string_scope.
Open Scope list_scope.
Open Scope nat_scope.

(* ===================================================================== *)
(** * Part I.  Definitions                                                *)
(* ===================================================================== *)

(** ** The document *)

(** The inline style properties the engine writes.  The empty string is
    an unset property, as in [el.style.height = '']. *)
Record Style := mkStyle {
  style_height : string;
  style_overflow : string;
  style_visibility : string;
  style_display : string;
  style_contentVisibility : string;
  style_containIntrinsicSize : string
}.

(** No inline style. *)
Definition noStyle : Style := mkStyle "" "" "" "" "" "".

(** One element.  [hasText] says whether the element has a non-empty
    text child (it matters for [:empty] only); [hostBox] is what the page's
    own style sheets decide about the element's offset parent: [false]
    when they leave it without one (display none through a rule, fixed
    positioning, ...).  It is what the browser answers at the moment a
    sweep reads [el.offsetParent] of the element, which a sweep does at
    most once for an element; between two sweeps the browser can come to
    another answer, see [relayout]. *)
Record Element := mkElement {
  nid : nat;
  localName : string;
  attrs : gmap string string;
  style : Style;
  hasText : bool;
  hostBox : bool
}.

(** Sibling lists of elements with their subtrees. *)
Inductive DOM : Type :=
| Leaf : DOM
| El (e : Element) (firstChild : DOM) (nextSibling : DOM) : DOM.

(** An element of the document together with what selectors and layout
    look at: its ancestors (nearest first) and its child nodes. *)
Record Located := mkLocated {
  ancestors : list Element;
  elem : Element;
  childNodes : DOM
}.

(** Document order. *)
Fixpoint walk (anc : list Element) (d : DOM) : list Located :=
  match d with
  | Leaf => []
  | El e k s => mkLocated anc e k :: walk (e :: anc) k ++ walk anc s
  end.

(** The references of the elements of a document, in document order. *)
Fixpoint ids (d : DOM) : list nat :=
  match d with
  | Leaf => []
  | El e k s => nid e :: ids k ++ ids s
  end.

(** The elements of a document, in document order. *)
Fixpoint elements (d : DOM) : list Element :=
  match d with
  | Leaf => []
  | El e k s => e :: elements k ++ elements s
  end.

(** The elements of one sibling list: for [childNodes], [el.children]. *)
Fixpoint level (d : DOM) : list Element :=
  match d with
  | Leaf => []
  | El e _ s => e :: level s
  end.

(** Node references are unique. *)
Definition wf (d : DOM) : Prop := NoDup (ids d).

(** [document.querySelectorAll(sel)]: a static list, in document order. *)
Definition querySelectorAll (sel : Located -> bool) (d : DOM) : list nat :=
  map (fun l => nid (elem l)) (List.filter sel (walk [] d)).

(** The element a reference denotes, when it is (still) in the document. *)
Definition lookup_node (id : nat) (d : DOM) : option Located :=
  find (fun l => nid (elem l) =? id) (walk [] d).

(** The element a reference denotes, without its place. *)
Definition getElement (id : nat) (d : DOM) : option Element :=
  option_map elem (lookup_node id d).

(** The reference denotes an element of the document. *)
Definition in_document (id : nat) (d : DOM) : bool := existsb (Nat.eqb id) (ids d).

(** [el.remove()]: the element leaves the document with its subtree. *)
Fixpoint remove (id : nat) (d : DOM) : DOM :=
  match d with
  | Leaf => Leaf
  | El e k s => if nid e =? id then s else El e (remove id k) (remove id s)
  end.

(** A write to a property of the element [id]. *)
Fixpoint update (id : nat) (f : Element -> Element) (d : DOM) : DOM :=
  match d with
  | Leaf => Leaf
  | El e k s => El (if nid e =? id then f e else e) (update id f k) (update id f s)
  end.

(** A write to every element of one sibling list. *)
Fixpoint map_siblings (f : Element -> Element) (d : DOM) : DOM :=
  match d with
  | Leaf => Leaf
  | El e k s => El (f e) k (map_siblings f s)
  end.

(** [Array.from(el.children).forEach(child => ...)]: a write to every
    immediate child of [id]. *)
Fixpoint update_children (id : nat) (f : Element -> Element) (d : DOM) : DOM :=
  match d with
  | Leaf => Leaf
  | El e k s =>
      El e (if nid e =? id then map_siblings f k else update_children id f k)
           (update_children id f s)
  end.

(** [list.forEach(f)] over a static list, threading the state. *)
Definition forEach {A S : Type} (l : list A) (f : A -> S -> S) (s : S) : S :=
  fold_left (fun s a => f a s) l s.

(** [list.forEach((a, i) => ...)], counting from [i]. *)
Fixpoint forEach_from {A St : Type} (i : nat) (l : list A) (f : A -> nat -> St -> St)
  (s : St) : St :=
  match l with
  | [] => s
  | a :: l' => forEach_from (S i) l' f (f a i s)
  end.

(** [el.getAttribute(k)] *)
Definition getAttribute (k : string) (e : Element) : option string :=
  attrs e !! k.

(** [[k]] *)
Definition hasAttribute (k : string) (e : Element) : bool :=
  match getAttribute k e with Some _ => true | None => false end.

(** [el.setAttribute(k, v)] *)
Definition setAttribute (k v : string) (e : Element) : Element :=
  mkElement (nid e) (localName e) (<[k := v]> (attrs e)) (style e) (hasText e) (hostBox e).

(** A write to [el.style]. *)
Definition set_style (f : Style -> Style) (e : Element) : Element :=
  mkElement (nid e) (localName e) (attrs e) (f (style e)) (hasText e) (hostBox e).

(** [style.height = v], and the like for the other properties. *)
Definition with_height (v : string) (s : Style) : Style :=
  mkStyle v (style_overflow s) (style_visibility s) (style_display s)
          (style_contentVisibility s) (style_containIntrinsicSize s).

Definition with_overflow (v : string) (s : Style) : Style :=
  mkStyle (style_height s) v (style_visibility s) (style_display s)
          (style_contentVisibility s) (style_containIntrinsicSize s).

Definition with_visibility (v : string) (s : Style) : Style :=
  mkStyle (style_height s) (style_overflow s) v (style_display s)
          (style_contentVisibility s) (style_containIntrinsicSize s).

Definition with_display (v : string) (s : Style) : Style :=
  mkStyle (style_height s) (style_overflow s) (style_visibility s) v
          (style_contentVisibility s) (style_containIntrinsicSize s).

Definition with_contentVisibility (v : string) (s : Style) : Style :=
  mkStyle (style_height s) (style_overflow s) (style_visibility s) (style_display s)
          v (style_containIntrinsicSize s).

Definition with_containIntrinsicSize (v : string) (s : Style) : Style :=
  mkStyle (style_height s) (style_overflow s) (style_visibility s) (style_display s)
          (style_contentVisibility s) v.

(** [[k="v"]] *)
Definition attr_is (k v : string) (e : Element) : bool :=
  match getAttribute k e with Some x => String.eqb x v | None => false end.

(** [[k^="p"]] *)
Definition attr_prefix (k p : string) (e : Element) : bool :=
  match getAttribute k e with Some x => String.prefix p x | None => false end.

(** [[k*="p"]] *)
Definition attr_contains (k p : string) (e : Element) : bool :=
  match getAttribute k e with
  | Some x => match String.index 0 p x with Some _ => true | None => false end
  | None => false
  end.

(** [:empty]: no element child and no text. *)
Definition is_empty (l : Located) : bool :=
  match childNodes l with Leaf => negb (hasText (elem l)) | El _ _ _ => false end.

(** [el.closest(sel)]: the element itself or an ancestor matches. *)
Definition closest (sel : Element -> bool) (l : Located) : bool :=
  existsb sel (elem l :: ancestors l).

(** The element itself and its ancestors. *)
Definition chain (l : Located) : list Element := elem l :: ancestors l.

(** [display: none] inline. *)
Definition display_none (e : Element) : bool :=
  String.eqb (style_display (style e)) "none".

(** [el.offsetParent] is not null.  It is null for an element that is not
    rendered: the element or an ancestor has [display: none] (inline, as
    the engine itself writes it, or through the page's style sheets), or
    the page positions it without an offset parent. *)
Definition offsetParent (l : Located) : bool :=
  hostBox (elem l) && forallb (fun e => negb (display_none e)) (elem l :: ancestors l).

(** A selector that looks at the element alone. *)
Definition at_elem (sel : Element -> bool) (l : Located) : bool := sel (elem l).

(** ** DOM Janitor (lines 315-338) *)

(** [[role="tooltip"], [data-radix-popper-content-wrapper]] *)
Definition sel_tooltips (e : Element) : bool :=
  attr_is "role" "tooltip" e
  || hasAttribute "data-radix-popper-content-wrapper" e.

(** [[data-state="open"]] *)
Definition sel_state_open (e : Element) : bool := attr_is "data-state" "open" e.

(** [style:empty] *)
Definition sel_style_empty (l : Located) : bool :=
  String.eqb (localName (elem l)) "style" && is_empty l.

(** [[data-headlessui-state=""]] *)
Definition sel_headlessui (e : Element) : bool :=
  attr_is "data-headlessui-state" "" e.

(** The body of the first [forEach].  The list is static: an element
    whose ancestor was removed earlier in the loop is no longer in the
    document, and whatever the test gives for it, [el.remove()] then
    acts inside the detached subtree only. *)
Definition remove_stale_tooltip (el : nat) (d : DOM) : DOM :=
  match lookup_node el d with
  | Some l =>
      if negb (offsetParent l) && negb (closest sel_state_open l)
      then remove el d else d
  | None => d
  end.

(** [cleanup()]: three queries, each followed by its [forEach]. *)
Definition cleanup (d : DOM) : DOM :=
  let tooltips := querySelectorAll (at_elem sel_tooltips) d in
  let d1 := forEach tooltips remove_stale_tooltip d in
  let d2 := forEach (querySelectorAll sel_style_empty d1) remove d1 in
  let d3 := forEach (querySelectorAll (at_elem sel_headlessui) d2) remove d2 in
  d3.

(** [hostBox] set to [b]. *)
Definition with_hostBox (b : bool) (e : Element) : Element :=
  mkElement (nid e) (localName e) (attrs e) (style e) (hasText e) b.

(** The document with its boxes computed anew: the same nodes, where
    [box] says of each whether the page's style sheets now leave it with
    an offset parent.  A removal can change what the style sheets decide
    about the elements that remain (a rule with [:empty] or a sibling
    combinator, the rules of a [style] element that was removed). *)
Fixpoint relayout (box : nat -> bool) (d : DOM) : DOM :=
  match d with
  | Leaf => Leaf
  | El e k s => El (with_hostBox (box (nid e)) e) (relayout box k) (relayout box s)
  end.

(** The number of elements a sweep takes out of the document. *)
Definition removed_by_cleanup (d : DOM) : nat :=
  List.length (ids d) - List.length (ids (cleanup d)).

(** What the three selectors of the sweep look for in an element. *)
Definition janitor_target (e : Element) : bool :=
  sel_tooltips e || String.eqb (localName e) "style" || sel_headlessui e.

(** ** Viewport Virtualizer (lines 340-420) *)

(** What the sweep reads of a [DOMRect]. *)
Record DOMRect := mkRect {
  rect_top : Z;
  rect_bottom : Z;
  rect_height : Z
}.

(** What the sweep reads from the window.  [getBoundingClientRect] is
    asked of the document as it is at the moment of the call. *)
Record Window := mkWindow {
  scrollY : Z;
  innerHeight : Z;
  getBoundingClientRect : DOM -> nat -> DOMRect
}.

(** A value of the [collapsedData] WeakMap: [{ height, hidden }]. *)
Record Collapsed := mkCollapsed {
  height : Z;
  hidden : bool
}.

(** The document and the WeakMap the component closes over. *)
Record Virtualizer := mkVirtualizer {
  document : DOM;
  collapsedData : gmap nat Collapsed
}.

(** Pixels above and below the viewport that stay rendered. *)
Definition VIEWPORT_MARGIN : Z := 1500.

(** [[data-testid^="conversation-turn-"]] *)
Definition sel_message (e : Element) : bool :=
  attr_prefix "data-testid" "conversation-turn-" e.

(** [getMessageContainers()] *)
Definition getMessageContainers (d : DOM) : list nat :=
  querySelectorAll (at_elem sel_message) d.

(** [height + 'px'] *)
Definition px (h : Z) : string := (pretty h ++ "px")%string.

(** [msg.style.height = height + 'px'; msg.style.overflow = 'hidden';
    msg.style.visibility = 'hidden'] *)
Definition pin_placeholder (h : Z) (e : Element) : Element :=
  set_style (with_visibility "hidden")
    (set_style (with_overflow "hidden")
      (set_style (with_height (px h)) e)).

(** [msg.style.height = ''; msg.style.overflow = '';
    msg.style.visibility = ''] *)
Definition clear_placeholder (e : Element) : Element :=
  set_style (with_visibility "")
    (set_style (with_overflow "")
      (set_style (with_height "") e)).

(** The Expanded -> Collapsed transition (lines 382-390). *)
Definition collapse (msg : nat) (rect : DOMRect) (v : Virtualizer) : Virtualizer :=
  let height := rect_height rect in
  let data := <[msg := mkCollapsed height true]> (collapsedData v) in
  let d := update msg (pin_placeholder height) (document v) in
  let d := update_children msg (set_style (with_display "none")) d in
  mkVirtualizer d data.

(** The Collapsed -> Expanded transition of an element back in the
    window (lines 392-402). *)
Definition expand (msg : nat) (v : Virtualizer) : Virtualizer :=
  match collapsedData v !! msg with
  | Some data =>
      if hidden data then
        let d := update msg clear_placeholder (document v) in
        let d := update_children msg (set_style (with_display "")) d in
        mkVirtualizer d (<[msg := mkCollapsed (height data) false]> (collapsedData v))
      else v
  | None => v
  end.

(** The branch of the last three messages (lines 360-374). *)
Definition expand_exempt (msg : nat) (v : Virtualizer) : Virtualizer :=
  match collapsedData v !! msg with
  | Some data =>
      let d := update msg clear_placeholder (document v) in
      if hidden data then
        let d := update_children msg (set_style (with_display "")) d in
        mkVirtualizer d (<[msg := mkCollapsed (height data) false]> (collapsedData v))
      else mkVirtualizer d (collapsedData v)
  | None => v
  end.

(** [!collapsedData.has(msg) || !collapsedData.get(msg).hidden] *)
Definition not_hidden (msg : nat) (v : Virtualizer) : bool :=
  match collapsedData v !! msg with
  | Some data => negb (hidden data)
  | None => true
  end.

(** The state of a tracked element. *)
Definition is_collapsed (msg : nat) (v : Virtualizer) : bool :=
  negb (not_hidden msg v).

(** The callback of [messages.forEach((msg, i) => ...)]; [n] is
    [messages.length]. *)
Definition visit (w : Window) (n : nat) (msg : nat) (i : nat) (v : Virtualizer)
  : Virtualizer :=
  if (Z.of_nat n - 3 <=? Z.of_nat i)%Z then expand_exempt msg v
  else
    let viewportTop := (scrollY w - VIEWPORT_MARGIN)%Z in
    let viewportBottom := (scrollY w + innerHeight w + VIEWPORT_MARGIN)%Z in
    let rect := getBoundingClientRect w (document v) msg in
    let absTop := (rect_top rect + scrollY w)%Z in
    let absBottom := (rect_bottom rect + scrollY w)%Z in
    if (absBottom <? viewportTop)%Z || (viewportBottom <? absTop)%Z then
      if not_hidden msg v then collapse msg rect v else v
    else expand msg v.

(** [virtualizeCheck()] *)
Definition virtualizeCheck (w : Window) (v : Virtualizer) : Virtualizer :=
  let messages := getMessageContainers (document v) in
  if List.length messages <? 10 then v
  else forEach_from 0 messages (visit w (List.length messages)) v.


(** ** Listener Throttle Interceptor (lines 239-277) *)

(** [new Set(['input', 'paste', 'keydown', 'keyup', 'keypress'])] *)
Definition THROTTLE_EVENTS : list string :=
  ["input"; "paste"; "keydown"; "keyup"; "keypress"].

(** The throttle window, in milliseconds. *)
Definition THROTTLE_MS : Q := 32.

(** The variables one [throttled] closure closes over.  A reading of
    [performance.now()] is a number of milliseconds with a fraction.
    [timeout] holds the pending timer, with the time from which the
    browser may run it. *)
Record Throttled := mkThrottled {
  timeout : option Q;
  lastArgs : option (list nat);
  lastThis : option nat;
  lastRun : Q
}.

(** [let timeout = null; let lastArgs = null; let lastThis = null;
    let lastRun = 0] *)
Definition let_throttled : Throttled := mkThrottled None None None 0.

(** One [listener.apply(lastThis, lastArgs)]. *)
Record Invocation := mkInvocation {
  inv_this : option nat;
  inv_args : option (list nat)
}.

(** [setTimeout(f, delay)] called when the clock reads [now]: the delay
    is converted to a whole number of milliseconds, its fraction dropped
    (the delays of [throttled] are positive), and the browser runs [f]
    when that many milliseconds have passed, or later. *)
Definition setTimeout (now delay : Q) : Q := (now + inject_Z (Qfloor delay))%Q.

(** [throttled.apply(this, args)] when [performance.now()] reads [now]:
    the new variables and the runs of the listener. *)
Definition throttled (now : Q) (this : nat) (args : list nat) (s : Throttled)
  : Throttled * list Invocation :=
  let remaining := (THROTTLE_MS - (now - lastRun s))%Q in
  if Qle_bool remaining 0 then
    (mkThrottled None (Some args) (Some this) now,
     [mkInvocation (Some this) (Some args)])
  else
    match timeout s with
    | None =>
        (mkThrottled (Some (setTimeout now remaining)) (Some args) (Some this) (lastRun s),
         [])
    | Some t =>
        (mkThrottled (Some t) (Some args) (Some this) (lastRun s), [])
    end.

(** The callback given to [setTimeout], run when [performance.now()]
    reads [now]. *)
Definition deferred (now : Q) (s : Throttled) : Throttled * list Invocation :=
  (mkThrottled None (lastArgs s) (lastThis s) now,
   [mkInvocation (lastThis s) (lastArgs s)]).

(** What the browser does with one closure: it calls it, or it runs its
    pending timer. *)
Inductive Event : Type :=
| Invoke (now : Q) (this : nat) (args : list nat)
| Fire (now : Q).

(** The reading of [performance.now()] in an event. *)
Definition time_of (ev : Event) : Q :=
  match ev with Invoke now _ _ => now | Fire now => now end.

(** The effect of one event on the closure. *)
Definition step (s : Throttled) (ev : Event) : Throttled * list Invocation :=
  match ev with
  | Invoke now this args => throttled now this args s
  | Fire now =>
      match timeout s with
      | Some _ => deferred now s
      | None => (s, [])
      end
  end.

(** The variables after a sequence of events, and the runs of the
    listener in order. *)
Fixpoint run (s : Throttled) (tr : list Event) : Throttled * list Invocation :=
  match tr with
  | [] => (s, [])
  | ev :: tr' =>
      let (s1, o1) := step s ev in
      let (s2, o2) := run s1 tr' in
      (s2, o1 ++ o2)
  end.

(** What the browser may do after time [t] in state [s]: the clock does
    not go back, and a timer runs only if it is pending and not before
    its whole-millisecond delay has passed. *)
Definition allowed (t : Q) (s : Throttled) (ev : Event) : bool :=
  Qle_bool t (time_of ev)
  && match ev with
     | Invoke _ _ _ => true
     | Fire now =>
         match timeout s with Some due => Qle_bool due now | None => false end
     end.

(** A sequence of events the browser can produce from time [t] on. *)
Fixpoint admissible (t : Q) (s : Throttled) (tr : list Event) : bool :=
  match tr with
  | [] => true
  | ev :: tr' => allowed t s ev && admissible (time_of ev) (fst (step s ev)) tr'
  end.

(** One invocation of the closure: clock reading, [this], arguments. *)
Record Call := mkCall {
  call_time : Q;
  call_this : nat;
  call_args : list nat
}.

(** The invocations of a sequence of events. *)
Fixpoint calls (tr : list Event) : list Call :=
  match tr with
  | [] => []
  | Invoke now this args :: tr' => mkCall now this args :: calls tr'
  | Fire _ :: tr' => calls tr'
  end.

(** The last element of a list. *)
Fixpoint final {A : Type} (l : list A) : option A :=
  match l with
  | [] => None
  | [a] => Some a
  | _ :: l' => final l'
  end.

(** The time between the first and the last invocation. *)
Definition elapsed (tr : list Event) : Q :=
  match head (calls tr), final (calls tr) with
  | Some c0, Some c1 => (call_time c1 - call_time c0)%Q
  | _, _ => 0%Q
  end.

(** The runs of the listener over a sequence of events, from the
    registration on. *)
Definition executions (tr : list Event) : list Invocation := snd (run let_throttled tr).

(** The clock readings at which the listener runs over a sequence of
    events. *)
Fixpoint run_times (s : Throttled) (tr : list Event) : list Q :=
  match tr with
  | [] => []
  | ev :: tr' =>
      map (fun _ => time_of ev) (snd (step s ev)) ++ run_times (fst (step s ev)) tr'
  end.

(** The reading at the last run of the listener over a sequence of
    events from the registration on; 0, the initial value of [lastRun],
    when it has not run. *)
Definition last_run_time (tr : list Event) : Q :=
  match final (run_times let_throttled tr) with Some t => t | None => 0%Q end.

(** ** The registration entry point (lines 244-273) *)

(** What a page can pass as listener. *)
Inductive Listener : Type :=
| Fn (f : nat)               (* a function *)
| HandlerObject (o : nat)    (* an object with a [handleEvent] method *)
| Null                       (* [null] or [undefined] *)
| Closure (n : nat).         (* a [throttled] function the interceptor made *)

(** [typeof listener === 'function'] *)
Definition is_function (l : Listener) : bool :=
  match l with
  | Fn _ | Closure _ => true
  | HandlerObject _ | Null => false
  end.

(** The options of a registration. *)
Record Options := mkOptions {
  capture : bool;
  once : bool;
  passive : bool
}.

(** An entry of the event listener list of a target. *)
Record Registration := mkRegistration {
  reg_target : nat;
  reg_type : string;
  reg_callback : Listener;
  reg_options : Options
}.

(** Callbacks are compared by reference. *)
Definition listener_eqb (a b : Listener) : bool :=
  match a, b with
  | Fn x, Fn y => x =? y
  | HandlerObject x, HandlerObject y => x =? y
  | Null, Null => true
  | Closure x, Closure y => x =? y
  | _, _ => false
  end.

(** The browser finds a listener by target, type, callback and capture. *)
Definition same_listener (target : nat) (type : string) (l : Listener) (o : Options)
  (r : Registration) : bool :=
  (reg_target r =? target) && String.eqb (reg_type r) type
  && listener_eqb (reg_callback r) l && Bool.eqb (capture (reg_options r)) (capture o).

(** The browser's own [addEventListener], which the engine keeps as
    [originalAddEventListener]: a null callback is ignored, and so is a
    listener that is registered already. *)
Definition originalAddEventListener (this : nat) (type : string) (l : Listener)
  (o : Options) (rs : list Registration) : list Registration :=
  match l with
  | Null => rs
  | _ => if existsb (same_listener this type l o) rs then rs
         else rs ++ [mkRegistration this type l o]
  end.

(** The browser's [removeEventListener], which the engine leaves alone. *)
Definition removeEventListener (this : nat) (type : string) (l : Listener)
  (o : Options) (rs : list Registration) : list Registration :=
  List.filter (fun r => negb (same_listener this type l o r)) rs.

(** The page as the interceptor sees it: the registered listeners, and
    the [throttled] closures made so far, each with the listener it
    wraps and its own variables. *)
Record Page := mkPage {
  listeners : list Registration;
  closures : gmap nat (Listener * Throttled);
  next_closure : nat
}.

(** [set.has(x)] *)
Definition has (set : list string) (x : string) : bool := existsb (String.eqb x) set.

(** The replacement of [EventTarget.prototype.addEventListener]. *)
Definition addEventListener (this : nat) (type : string) (listener : Listener)
  (options : Options) (p : Page) : Page :=
  if has THROTTLE_EVENTS type && is_function listener then
    let n := next_closure p in
    mkPage (originalAddEventListener this type (Closure n) options (listeners p))
           (<[n := (listener, let_throttled)]> (closures p))
           (S n)
  else
    mkPage (originalAddEventListener this type listener options (listeners p))
           (closures p) (next_closure p).

(** The same registration on a page without the interceptor. *)
Definition unwrapped_addEventListener (this : nat) (type : string) (listener : Listener)
  (options : Options) (p : Page) : Page :=
  mkPage (originalAddEventListener this type listener options (listeners p))
         (closures p) (next_closure p).

(** [removeEventListener] on a page. *)
Definition page_removeEventListener (this : nat) (type : string) (listener : Listener)
  (options : Options) (p : Page) : Page :=
  mkPage (removeEventListener this type listener options (listeners p))
         (closures p) (next_closure p).

(** A call of the closure [n] by the browser. *)
Definition call_closure (n : nat) (now : Q) (this : nat) (args : list nat) (p : Page)
  : Page * list (Listener * Invocation) :=
  match closures p !! n with
  | Some (listener, s) =>
      let (s', runs) := throttled now this args s in
      (mkPage (listeners p) (<[n := (listener, s')]> (closures p)) (next_closure p),
       map (fun r => (listener, r)) runs)
  | None => (p, [])
  end.

(** The closures a page can reach were all made by the interceptor. *)
Definition closures_allocated (p : Page) : Prop :=
  (forall r n, In r (listeners p) -> reg_callback r = Closure n -> n < next_closure p)
  /\ (forall n, next_closure p <= n -> closures p !! n = None).

(** A page on which nothing is registered yet. *)
Definition empty_page : Page := mkPage [] ∅ 0.

(** No option given. *)
Definition default_options : Options := mkOptions false false false.

(** ** Lazy Render Scheduler (lines 422-453) *)

(** An [IntersectionObserverEntry]. *)
Record Entry := mkEntry {
  target : nat;
  isIntersecting : bool
}.

(** The document, the targets of [observer], and (for the statement of
    the properties) the elements on which the rendering-enable branch of
    the callback has run, in order. *)
Record LazyCode := mkLazyCode {
  lazy_document : DOM;
  observed : gset nat;
  enabled : list nat
}.

(** [pre:not([data-turbo-observed])] *)
Definition sel_pre_unobserved (e : Element) : bool :=
  String.eqb (localName e) "pre" && negb (hasAttribute "data-turbo-observed" e).

(** The element carries the marker attribute. *)
Definition marked (e : Element) : bool := hasAttribute "data-turbo-observed" e.

(** The body of the [IntersectionObserver] callback for one entry. *)
Definition on_entry (entry : Entry) (s : LazyCode) : LazyCode :=
  if isIntersecting entry then
    let pre := target entry in
    mkLazyCode
      (update pre (set_style (with_contentVisibility "visible")) (lazy_document s))
      (observed s ∖ {[pre]})
      (enabled s ++ [pre])
  else s.

(** The [IntersectionObserver] callback. *)
Definition intersection_callback (entries : list Entry) (s : LazyCode) : LazyCode :=
  forEach entries on_entry s.

(** [pre.setAttribute('data-turbo-observed', 'true');
    pre.style.contentVisibility = 'auto';
    pre.style.containIntrinsicSize = 'auto 100px'] *)
Definition mark_observed (e : Element) : Element :=
  set_style (with_containIntrinsicSize "auto 100px")
    (set_style (with_contentVisibility "auto")
      (setAttribute "data-turbo-observed" "true" e)).

(** The body of the [forEach] of [observeCodeBlocks], with
    [observer.observe(pre)]. *)
Definition observe_pre (pre : nat) (s : LazyCode) : LazyCode :=
  mkLazyCode (update pre mark_observed (lazy_document s))
             ({[pre]} ∪ observed s)
             (enabled s).

(** [observeCodeBlocks()] *)
Definition observeCodeBlocks (s : LazyCode) : LazyCode :=
  forEach (querySelectorAll (at_elem sel_pre_unobserved) (lazy_document s)) observe_pre s.

(** The component at installation: the first [observeCodeBlocks()]. *)
Definition lazyCodeBlocks (d : DOM) : LazyCode :=
  observeCodeBlocks (mkLazyCode d ∅ []).

(** New nodes after the last node of a sibling list. *)
Fixpoint append_siblings (d new : DOM) : DOM :=
  match d with
  | Leaf => new
  | El e k s => El e k (append_siblings s new)
  end.

(** [parent.append(...new)] by the page. *)
Fixpoint appendChild (parent : nat) (new : DOM) (d : DOM) : DOM :=
  match d with
  | Leaf => Leaf
  | El e k s =>
      El e (if nid e =? parent then append_siblings k new else appendChild parent new k)
           (appendChild parent new s)
  end.

(** What happens to the component after installation: the page streams
    new content into the document, an animation frame runs the rescan a
    mutation batch asked for, the browser delivers intersection entries. *)
Inductive LazyEvent : Type :=
| Streamed (parent : nat) (new : DOM)
| Rescan
| Intersections (entries : list Entry).

(** The effect of one event on the component. *)
Definition lazy_step (s : LazyCode) (ev : LazyEvent) : LazyCode :=
  match ev with
  | Streamed parent new =>
      mkLazyCode (appendChild parent new (lazy_document s)) (observed s) (enabled s)
  | Rescan => observeCodeBlocks s
  | Intersections entries => intersection_callback entries s
  end.

(** What the browser and the page may do: new content is made of new
    nodes; the entries of one delivery are those queued since the last
    one, for targets the observer observes when the callback starts (a
    target is unobserved in the callback only, and the queue is emptied
    for each delivery).  One delivery can hold several entries for one
    target. *)
Definition lazy_allowed (s : LazyCode) (ev : LazyEvent) : Prop :=
  match ev with
  | Streamed parent new => forall x, In x (ids new) -> ~ In x (ids (lazy_document s))
  | Rescan => True
  | Intersections entries => forall en, In en entries -> target en ∈ observed s
  end.

(** A sequence of events the page and the browser can produce. *)
Fixpoint lazy_admissible (s : LazyCode) (tr : list LazyEvent) : Prop :=
  match tr with
  | [] => True
  | ev :: tr' => lazy_allowed s ev /\ lazy_admissible (lazy_step s ev) tr'
  end.

(** The component after a sequence of events. *)
Definition lazy_run (s : LazyCode) (tr : list LazyEvent) : LazyCode :=
  fold_left lazy_step tr s.

(** [lazy_allowed], decided. *)
Definition lazy_allowed_b (s : LazyCode) (ev : LazyEvent) : bool :=
  match ev with
  | Streamed parent new =>
      forallb (fun x => negb (existsb (Nat.eqb x) (ids (lazy_document s)))) (ids new)
  | Rescan => true
  | Intersections entries =>
      forallb (fun en => bool_decide (target en ∈ observed s)) entries
  end.

(** [lazy_admissible], decided. *)
Fixpoint lazy_admissible_b (s : LazyCode) (tr : list LazyEvent) : bool :=
  match tr with
  | [] => true
  | ev :: tr' => lazy_allowed_b s ev && lazy_admissible_b (lazy_step s ev) tr'
  end.

(** The entry reports [pre] inside the margin. *)
Definition intersecting_for (pre : nat) (en : Entry) : bool :=
  isIntersecting en && (target en =? pre).

(** The event is a delivery with an entry that reports [pre] inside the
    margin. *)
Definition enables (pre : nat) (ev : LazyEvent) : bool :=
  match ev with
  | Intersections entries => existsb (intersecting_for pre) entries
  | _ => false
  end.

(** The number of such deliveries in a sequence of events. *)
Definition enabling_deliveries (pre : nat) (tr : list LazyEvent) : nat :=
  List.length (List.filter (enables pre) tr).

(** The number of entries that report [pre] inside the margin, over all
    deliveries. *)
Fixpoint intersecting_entries (pre : nat) (tr : list LazyEvent) : nat :=
  match tr with
  | [] => 0
  | Intersections entries :: tr' =>
      List.length (List.filter (intersecting_for pre) entries) + intersecting_entries pre tr'
  | _ :: tr' => intersecting_entries pre tr'
  end.

(** A delivery that reports no target twice. *)
Definition reports_once (ev : LazyEvent) : Prop :=
  match ev with
  | Intersections entries => NoDup (map target entries)
  | _ => True
  end.

(** ** Memory Pressure Monitor (lines 475-512) *)

(** [window.performance.memory] *)
Record MemoryInfo := mkMemoryInfo {
  usedJSHeapSize : Z;
  totalJSHeapSize : Z
}.

(** [window.performance]; the [memory] property is not there in every
    browser. *)
Record Performance := mkPerformance {
  memory : option MemoryInfo
}.

(** The document, the [lastCleanup] variable and the console. *)
Record Monitor := mkMonitor {
  monitor_document : DOM;
  lastCleanup : Z;
  console : list string
}.

(** [used / total > 0.8], for byte counts: more than four fifths. *)
Definition high_usage (m : MemoryInfo) : bool :=
  (4 * totalJSHeapSize m <? 5 * usedJSHeapSize m)%Z.

(** [img[src*="blob:"]] *)
Definition sel_blob_img (e : Element) : bool :=
  String.eqb (localName e) "img" && attr_contains "src" "blob:" e.

(** [if (!img.offsetParent) { img.src = ''; }] *)
Definition drop_detached_src (img : nat) (d : DOM) : DOM :=
  match lookup_node img d with
  | Some l => if negb (offsetParent l) then update img (setAttribute "src" "") d else d
  | None => d
  end.

(** The mitigation pass: the [forEach] over the blob-backed images. *)
Definition clear_image_bitmap_caches (d : DOM) : DOM :=
  forEach (querySelectorAll (at_elem sel_blob_img) d) drop_detached_src d.

(** The diagnostic line of a high heap sample. *)
Definition high_usage_line : string :=
  "[ChatGPT Turbo] High memory usage detected, cleaning up...".

(** [aggressiveCleanup()], with the value of [window.performance] and
    the reading of [Date.now()] at its last line. *)
Definition aggressiveCleanup (performance : option Performance) (now : Z) (m : Monitor)
  : Monitor :=
  let console1 :=
    match performance with
    | Some p =>
        match memory p with
        | Some mem => if high_usage mem then console m ++ [high_usage_line] else console m
        | None => console m
        end
    | None => console m
    end in
  mkMonitor (clear_image_bitmap_caches (monitor_document m)) now console1.

(** The [visibilitychange] listener: [hidden] is [document.hidden], [t]
    the reading of [Date.now()] in its test. *)
Definition on_visibilitychange (hidden : bool) (t : Z) (performance : option Performance)
  (now : Z) (m : Monitor) : Monitor :=
  if hidden && (60000 <? t - lastCleanup m)%Z then aggressiveCleanup performance now m
  else m.

(** The callback of [setInterval(aggressiveCleanup, 120000)]. *)
Definition on_interval (performance : option Performance) (now : Z) (m : Monitor)
  : Monitor :=
  aggressiveCleanup performance now m.

(** ** Relations and invariants of the proofs *)

(** [origin l' l]: [l'] is the element [l] of an earlier document, seen
    after some removals. *)
Definition origin (l' l : Located) : Prop :=
  ancestors l' = ancestors l /\ elem l' = elem l
  /\ (childNodes l = Leaf -> childNodes l' = Leaf).

(** Every element of [d'] is an element of [d], in its place. *)
Definition shrinks (d' d : DOM) : Prop :=
  forall l', In l' (walk [] d') -> exists l, In l (walk [] d) /\ origin l' l.

(** [same_place l' l]: the same element under the same ancestors. *)
Definition same_place (l' l : Located) : Prop :=
  ancestors l' = ancestors l /\ elem l' = elem l.

(** The test of the first loop of a sweep. *)
Definition stale (l : Located) : bool :=
  negb (offsetParent l) && negb (closest sel_state_open l).

(** A document on which a sweep finds nothing to do. *)
Definition swept (d : DOM) : Prop :=
  forall l, In l (walk [] d) ->
    (sel_tooltips (elem l) = true -> stale l = false)
    /\ sel_style_empty l = false
    /\ sel_headlessui (elem l) = false.

(** No [style] element has an element child (the content of a parsed
    [style] element is text). *)
Definition style_elements_hold_text_only (d : DOM) : Prop :=
  forall l, In l (walk [] d) ->
    localName (elem l) = "style" -> childNodes l = Leaf.

(** [style_elements_hold_text_only], decided. *)
Definition style_text_only_b (d : DOM) : bool :=
  forallb (fun l => negb (String.eqb (localName (elem l)) "style")
                    || match childNodes l with Leaf => true | El _ _ _ => false end)
          (walk [] d).

(** The new boxes take the offset parent from no tooltip or popper
    wrapper of [d] that has one and lies in no open element. *)
Definition tooltips_stay_rendered (box : nat -> bool) (d : DOM) : Prop :=
  forall l, In l (walk [] d) -> sel_tooltips (elem l) = true ->
    offsetParent l = true -> closest sel_state_open l = false ->
    box (nid (elem l)) = true.

(** [relayout] on an element in its place. *)
Definition relayout_located (box : nat -> bool) (l : Located) : Located :=
  mkLocated (map (fun e => with_hostBox (box (nid e)) e) (ancestors l))
            (with_hostBox (box (nid (elem l))) (elem l))
            (relayout box (childNodes l)).

(** The three loops of a sweep, named. *)
Definition after_tooltips (d : DOM) : DOM :=
  forEach (querySelectorAll (at_elem sel_tooltips) d) remove_stale_tooltip d.

(** The document after the second loop. *)
Definition after_styles (d : DOM) : DOM :=
  forEach (querySelectorAll sel_style_empty (after_tooltips d)) remove (after_tooltips d).

(** The inline height, overflow and visibility are unset. *)
Definition box_unset (e : Element) : Prop :=
  style_height (style e) = "" /\ style_overflow (style e) = ""
  /\ style_visibility (style e) = "".

(** The inline display is unset. *)
Definition display_unset (e : Element) : Prop := style_display (style e) = "".



(** What a Collapsed -> Expanded transition writes. *)
Definition unset_placeholder (msg : nat) (d : DOM) : DOM :=
  update_children msg (set_style (with_display "")) (update msg clear_placeholder d).

(** The element without its inline style. *)
Definition unstyled (e : Element) : Element := set_style (fun _ => noStyle) e.

(** The document without any inline style. *)
Fixpoint erase_styles (d : DOM) : DOM :=
  match d with
  | Leaf => Leaf
  | El e k s => El (unstyled e) (erase_styles k) (erase_styles s)
  end.

(** A write that touches inline style only. *)
Definition style_only (f : Element -> Element) : Prop :=
  forall e, unstyled (f e) = unstyled e.

(** A number of runs, as a rational. *)
Definition count (n : nat) : Q := inject_Z (Z.of_nat n).

(** Readings that come after [lo] and are more than [w] apart. *)
Fixpoint apart_from (w lo : Q) (l : list Q) : Prop :=
  match l with
  | [] => True
  | a :: l' => (lo < a)%Q /\ apart_from w (a + w)%Q l'
  end.

(** A pending timer is due more than a window less one millisecond
    after the last run. *)
Definition due_after_last_run (s : Throttled) : Prop :=
  forall due, timeout s = Some due -> (lastRun s + (THROTTLE_MS - 1) < due)%Q.

(** [spaced t0 tl t n s]: after [n] runs of the listener, with first
    invocation at [t0], latest invocation at [tl] and clock at [t]. *)
Record spaced (t0 tl t : Q) (n : nat) (s : Throttled) : Prop := mkSpaced {
  sp_first : (t0 <= tl)%Q;
  sp_last : (tl <= t)%Q;
  sp_run_le : (lastRun s <= t)%Q;
  sp_run_ge : 1 <= n -> (t0 + (THROTTLE_MS - 1) * (count n - 1) <= lastRun s)%Q;
  sp_pending : forall due, timeout s = Some due ->
      (lastRun s + (THROTTLE_MS - 1) < due)%Q
      /\ ((THROTTLE_MS - 1) * (count n - 1) <= tl - t0)%Q;
  sp_idle : timeout s = None -> ((THROTTLE_MS - 1) * (count n - 2) <= tl - t0)%Q
}.

(** The time of the latest invocation, after one more event. *)
Definition latest (tl : Q) (ev : Event) : Q :=
  match ev with Invoke now _ _ => now | Fire _ => tl end.

(** The time of the latest invocation, after more events. *)
Definition latest_call (tl : Q) (tr : list Event) : Q :=
  match final (calls tr) with Some c => call_time c | None => tl end.

(** The closure holds the [this] and the arguments of the invocation
    [c], and when no timer is pending they are those of the last run. *)
Definition coalesced (c : Call) (runs : list Invocation) (s : Throttled) : Prop :=
  lastArgs s = Some (call_args c) /\ lastThis s = Some (call_this c)
  /\ (timeout s = None ->
      final runs = Some (mkInvocation (Some (call_this c)) (Some (call_args c)))).

(** The latest invocation, after one more event. *)
Definition latest_payload (c : Call) (ev : Event) : Call :=
  match ev with Invoke now this args => mkCall now this args | Fire _ => c end.

(** The latest invocation, after more events. *)
Definition latest_payload_of (c : Call) (tr : list Event) : Call :=
  match final (calls tr) with Some c' => c' | None => c end.

(** What holds of the component in every state it reaches. *)
Record lazy_inv (s : LazyCode) : Prop := mkLazyInv {
  li_visible : forall e, In e (elements (lazy_document s)) ->
      In (nid e) (enabled s) -> style_contentVisibility (style e) = "visible";
  li_apart : forall pre, pre ∈ observed s -> ~ In pre (enabled s);
  li_marked : forall e, In e (elements (lazy_document s)) ->
      nid e ∈ observed s \/ In (nid e) (enabled s) -> marked e = true;
  li_known : forall pre, pre ∈ observed s \/ In pre (enabled s) ->
      In pre (ids (lazy_document s))
}.

(** What [update id f] does to one element. *)
Definition upd (id : nat) (f : Element -> Element) (e : Element) : Element :=
  if nid e =? id then f e else e.

(** What [update id f] does to an element in its place. *)
Definition upd_located (id : nat) (f : Element -> Element) (l : Located) : Located :=
  mkLocated (map (upd id f) (ancestors l)) (upd id f (elem l))
            (update id f (childNodes l)).

(** [src_dropped l' l]: [l'] is the element [l] of an earlier document,
    after some of the sources were dropped. *)
Definition src_dropped (l' l : Located) : Prop :=
  nid (elem l') = nid (elem l) /\ offsetParent l' = offsetParent l
  /\ (elem l' = elem l \/ sel_blob_img (elem l') = false).

(** [d'] is [d] after some of the sources were dropped. *)
Definition sources_dropped (d' d : DOM) : Prop :=
  forall l', In l' (walk [] d') -> exists l, In l (walk [] d) /\ src_dropped l' l.

(** ** Example documents and runs *)

(** An element with the given attributes, no inline style, no text, and
    an offset parent. *)
Definition element (id : nat) (name : string) (al : list (string * string)) : Element :=
  mkElement id name (list_to_map al) noStyle false true.

(** The element a reference denotes in a document that has it. *)
Definition located (id : nat) (d : DOM) : Located :=
  match lookup_node id d with
  | Some l => l
  | None => mkLocated [] (element 0 "" []) Leaf
  end.

(** [<style><div data-headlessui-state=""></div></style>], built through
    the DOM interface. *)
Definition style_with_overlay : DOM :=
  El (element 1 "style" [])
     (El (element 2 "div" [("data-headlessui-state", "")]) Leaf Leaf)
     Leaf.

(** An overlay remnant and a tooltip that the page shows. *)
Definition page_with_menu : DOM :=
  El (element 1 "div" [])
     (El (element 2 "div" [("data-headlessui-state", "")]) Leaf
     (El (element 3 "div" [("role", "tooltip")]) Leaf Leaf))
     Leaf.

(** The boxes after the overlay remnant is gone, on a page whose style
    sheet hides the tooltip unless the remnant precedes it: the tooltip
    3 has no offset parent. *)
Definition boxes_without_menu (id : nat) : bool := negb (id =? 3).

(** A page with a tooltip that is not laid out, an empty [style]
    element, and an overlay remnant with a child. *)
Definition page_with_debris : DOM :=
  El (element 1 "div" [])
     (El (mkElement 2 "div" (list_to_map [("role", "tooltip")]) noStyle true false)
         Leaf
     (El (element 3 "style" [])
         Leaf
     (El (element 4 "div" [("data-headlessui-state", "")])
         (El (element 5 "span" []) Leaf Leaf)
     (El (element 6 "p" []) Leaf Leaf))))
     Leaf.

(** Message [i] is an [article] with reference [100 + i] and one [div]
    child with reference [200 + i]; [extra] and [st] give it further
    attributes and an inline style. *)
Definition turn (extra : nat -> list (string * string)) (st : nat -> Style) (i : nat)
  : Element :=
  mkElement (100 + i) "article"
    (list_to_map (("data-testid", ("conversation-turn-" ++ pretty i)%string) :: extra i))
    (st i) false true.

(** [n] messages, from message [i] on. *)
Fixpoint conversation (extra : nat -> list (string * string)) (st : nat -> Style)
  (i n : nat) : DOM :=
  match n with
  | O => Leaf
  | S n' => El (turn extra st i) (El (element (200 + i) "div" []) Leaf Leaf)
               (conversation extra st (S i) n')
  end.

(** [n] messages without further attributes or inline style. *)
Definition plain_conversation (n : nat) : DOM :=
  conversation (fun _ => []) (fun _ => noStyle) 0 n.

(** Ten messages, the first of which carries [data-headlessui-state=""]. *)
Definition conversation_with_overlay_turn : DOM :=
  conversation (fun i => if i =? 0 then [("data-headlessui-state", "")] else [])
               (fun _ => noStyle) 0 10.

(** Ten messages, the first of which has [overflow: auto] inline. *)
Definition conversation_with_scrollable_turn : DOM :=
  conversation (fun _ => [])
               (fun i => if i =? 0 then with_overflow "auto" noStyle else noStyle) 0 10.

(** Every message is 400px high; message [i] starts at [400 * i]. *)
Definition stacked_rect (y : Z) (d : DOM) (msg : nat) : DOMRect :=
  let top := (400 * (Z.of_nat msg - 100) - y)%Z in
  mkRect top (top + 400) 400.

(** A window 800px high, scrolled to [y]. *)
Definition window_at (y : Z) : Window := mkWindow y 800 (stacked_rect y).

(** The component before its first sweep. *)
Definition fresh (d : DOM) : Virtualizer := mkVirtualizer d ∅.

(** The Collapsed elements of the document. *)
Definition collapsed_ids (v : Virtualizer) : list nat :=
  List.filter (fun msg => is_collapsed msg v) (ids (document v)).

(** The inline overflow of an element. *)
Definition overflow_of (id : nat) (d : DOM) : option string :=
  option_map (fun e => style_overflow (style e)) (getElement id d).


(** The [src] attribute of an element. *)
Definition src_of (id : nat) (d : DOM) : option string :=
  match getElement id d with Some e => getAttribute "src" e | None => None end.

(** Invocations at 1000, 1000.9, 1063 and 1063.9 ms, each of the last
    three followed by the timer it sets, run as soon as the browser may
    run it: after 31, 0 and 31 ms. *)
Definition truncated_delays : list Event :=
  [Invoke 1000 1 [7]; Invoke 1000.9 1 [8]; Fire 1031.9;
   Invoke 1063 1 [9]; Fire 1063; Invoke 1063.9 1 [10]; Fire 1094.9].

(** Two invocations that read the same [performance.now()], and the
    timer the second one sets. *)
Definition two_calls_one_reading : list Event :=
  [Invoke 1000 1 [7]; Invoke 1000 1 [8]; Fire 1032].

(** Five invocations in 70 ms and the timer the second one sets. *)
Definition burst : list Event :=
  [Invoke 1000 1 [7]; Invoke 1010 1 [8]; Invoke 1020 1 [9]; Fire 1032;
   Invoke 1040 1 [10]; Invoke 1070 1 [11]].

(** A page on which one [input] listener is registered already. *)
Definition page_with_input_listener : Page :=
  addEventListener 1 "input" (Fn 5) default_options empty_page.

(** Two code blocks under one [div]. *)
Definition page_with_code : DOM :=
  El (element 1 "div" [])
     (El (element 2 "pre" []) Leaf (El (element 3 "pre" []) Leaf Leaf))
     Leaf.

(** Visibility toggles, a streamed code block, three rescans. *)
Definition code_session : list LazyEvent :=
  [ Intersections [mkEntry 2 false; mkEntry 3 false];
    Intersections [mkEntry 2 true];
    Rescan;
    Streamed 1 (El (element 4 "pre" []) Leaf Leaf);
    Rescan;
    Intersections [mkEntry 3 true; mkEntry 4 false];
    Intersections [mkEntry 4 true];
    Intersections [];
    Rescan ].

(** One delivery in which the code block 2 enters the margin, leaves it
    and enters it again. *)
Definition toggles_in_one_delivery : list LazyEvent :=
  [ Intersections [mkEntry 2 true; mkEntry 2 false; mkEntry 2 true] ].

(** A heap at half of its capacity. *)
Definition half_full : option Performance :=
  Some (mkPerformance (Some (mkMemoryInfo 50 100))).


(** A page with one blob-backed image that has no offset parent. *)
Definition page_with_detached_image : DOM :=
  El (element 1 "div" [])
     (El (mkElement 2 "img" (list_to_map [("src", "blob:https://chatgpt.com/1f2e")])
            noStyle false false) Leaf Leaf)
     Leaf.


(** ** Further definitions: the registration entry point *)

(** What a page can hand to the entry point: a closure only if the
    interceptor has made it. *)
Definition known_listener (l : Listener) (p : Page) : Prop :=
  match l with
  | Closure m => m < next_closure p
  | _ => True
  end.

(** ** Further definitions: the scheduling of the sweeps (lines 405-416) *)

(** The Virtualizer with its variable [rafId], the number of callbacks
    that wait for the next animation frame, and (for the statements) the
    number of sweeps that such callbacks have run. *)
Record Scheduled := mkScheduled {
  rafId : option nat;
  waiting : nat;
  virtualizer : Virtualizer;
  frame_sweeps : nat
}.

(** [if (rafId)]: [null] and 0 are not true. *)
Definition truthy (h : option nat) : bool :=
  match h with
  | Some (S _) => true
  | Some O | None => false
  end.

(** [scheduleVirtualize()], when [requestAnimationFrame] answers
    [handle]. *)
Definition scheduleVirtualize (handle : nat) (s : Scheduled) : Scheduled :=
  if truthy (rafId s) then s
  else mkScheduled (Some handle) (S (waiting s)) (virtualizer s) (frame_sweeps s).

(** The callback given to [requestAnimationFrame]:
    [virtualizeCheck(); rafId = null]. *)
Definition frame_callback (w : Window) (s : Scheduled) : Scheduled :=
  mkScheduled None (waiting s) (virtualizeCheck w (virtualizer s)) (S (frame_sweeps s)).

(** An animation frame: the browser runs the callbacks that wait. *)
Definition animation_frame (w : Window) (s : Scheduled) : Scheduled :=
  Nat.iter (waiting s) (frame_callback w)
    (mkScheduled (rafId s) 0 (virtualizer s) (frame_sweeps s)).

(** The callback of [setInterval(virtualizeCheck, 5000)]. *)
Definition interval_sweep (w : Window) (s : Scheduled) : Scheduled :=
  mkScheduled (rafId s) (waiting s) (virtualizeCheck w (virtualizer s)) (frame_sweeps s).

Inductive SchedulerEvent : Type :=
| Scroll (handle : nat)
| AnimationFrame (w : Window)
| Interval (w : Window).

Definition scheduler_step (s : Scheduled) (ev : SchedulerEvent) : Scheduled :=
  match ev with
  | Scroll handle => scheduleVirtualize handle s
  | AnimationFrame w => animation_frame w s
  | Interval w => interval_sweep w s
  end.

Definition scheduler_run (s : Scheduled) (tr : list SchedulerEvent) : Scheduled :=
  fold_left scheduler_step tr s.

(** The handles of [requestAnimationFrame] are not zero. *)
Definition handles_nonzero (tr : list SchedulerEvent) : bool :=
  forallb (fun ev => match ev with Scroll O => false | _ => true end) tr.

(** The animation frames that come after one scroll event or more since
    the frame before; [scrolled] says whether a scroll event came
    already. *)
Fixpoint frames_after_scroll (scrolled : bool) (tr : list SchedulerEvent) : nat :=
  match tr with
  | [] => 0
  | Scroll _ :: tr' => frames_after_scroll true tr'
  | AnimationFrame _ :: tr' =>
      (if scrolled then 1 else 0) + frames_after_scroll false tr'
  | Interval _ :: tr' => frames_after_scroll scrolled tr'
  end.

(** [settled scrolled s]: no callback waits and [rafId] is null, or
    (after a scroll event) one callback waits and [rafId] is set. *)
Definition settled (scrolled : bool) (s : Scheduled) : Prop :=
  truthy (rafId s) = scrolled /\ waiting s = (if scrolled then 1 else 0).

(** The component at installation. *)
Definition virtualizeMessages (d : DOM) : Scheduled := mkScheduled None 0 (fresh d) 0.

(** ** Further definitions: what a sweep decides *)

(** [absBottom < viewportTop || absTop > viewportBottom], for the
    rectangle the window gives for [msg] in [d]. *)
Definition out_of_window (w : Window) (d : DOM) (msg : nat) : bool :=
  let rect := getBoundingClientRect w d msg in
  (rect_bottom rect + scrollY w <? scrollY w - VIEWPORT_MARGIN)%Z
  || (scrollY w + innerHeight w + VIEWPORT_MARGIN <? rect_top rect + scrollY w)%Z.

(** The rectangles do not change with the writes of the sweep (a
    placeholder has the height of the element it stands for). *)
Definition stable_layout (w : Window) : Prop :=
  forall d d' msg, getBoundingClientRect w d msg = getBoundingClientRect w d' msg.

(** ** Further example documents *)

(** Three tooltips that are not laid out, one of them inside an open
    popover, and one tooltip that is laid out. *)
Definition page_with_tooltips : DOM :=
  El (element 1 "div" [])
     (El (mkElement 2 "div" (list_to_map [("role", "tooltip")]) noStyle true false)
         Leaf
     (El (element 3 "div" [("data-state", "open")])
         (El (mkElement 4 "div" (list_to_map [("role", "tooltip")]) noStyle true false)
             Leaf Leaf)
     (El (element 5 "div" [("role", "tooltip")]) Leaf Leaf)))
     Leaf.

(** ** Further definitions: image loading (lines 455-473) *)

(** [img:not([loading])] *)
Definition sel_img_no_loading (e : Element) : bool :=
  String.eqb (localName e) "img" && negb (hasAttribute "loading" e).

(** [img.loading = 'lazy'; img.decoding = 'async'] *)
Definition make_lazy (e : Element) : Element :=
  setAttribute "decoding" "async" (setAttribute "loading" "lazy" e).

(** [lazyLoadImages()] *)
Definition lazyLoadImages (d : DOM) : DOM :=
  forEach (querySelectorAll (at_elem sel_img_no_loading) d)
          (fun img d => update img make_lazy d) d.

(** A page with an image without [loading], an eager image and a
    paragraph. *)
Definition page_with_images : DOM :=
  El (element 1 "div" [])
     (El (element 2 "img" [("src", "a.png")]) Leaf
     (El (element 3 "img" [("src", "b.png"); ("loading", "eager")]) Leaf
     (El (element 4 "p" []) Leaf Leaf)))
     Leaf.

(** A page with a blob-backed image on screen, one without an offset
    parent, and a detached image fetched over the network. *)
Definition page_with_blob_images : DOM :=
  El (element 1 "div" [])
     (El (element 2 "img" [("src", "blob:https://chatgpt.com/aa01")]) Leaf
     (El (mkElement 3 "img" (list_to_map [("src", "blob:https://chatgpt.com/bb02")])
            noStyle false false) Leaf
     (El (mkElement 4 "img" (list_to_map [("src", "https://chatgpt.com/c.png")])
            noStyle false false) Leaf Leaf)))
     Leaf.

(** ** Further definitions: instant scroll (lines 279-301) *)

(** The values a page passes to the scroll methods: primitives, [null],
    and option objects whose properties hold primitives. *)
Inductive Prim : Type :=
| PUndefined
| PBoolean (b : bool)
| PNumber (z : Z)
| PString (s : string).

Inductive Value : Type :=
| NullValue
| Primitive (p : Prim)
| Object (props : gmap string Prim).

(** What a call of a patched method comes to: a [TypeError], or a call of
    the original method with a receiver and arguments. *)
Inductive Outcome : Type :=
| TypeError
| Original (this : nat) (args : list Value).

(** The own enumerable properties of a string: its characters under
    their indices. *)
Fixpoint characters (i : nat) (s : string) : list (string * Prim) :=
  match s with
  | EmptyString => []
  | String c s' => (pretty i, PString (String c EmptyString)) :: characters (S i) s'
  end.

(** The properties [{ ...v }] copies. *)
Definition spread (v : Value) : gmap string Prim :=
  match v with
  | Object props => props
  | Primitive (PString s) => list_to_map (characters 0 s)
  | _ => ∅
  end.

(** [{ ...v, behavior: 'instant' }] *)
Definition with_instant (v : Value) : Value :=
  Object (<["behavior" := PString "instant"]> (spread v)).

(** [p === 'smooth'] for the value of a property. *)
Definition is_smooth (p : option Prim) : bool :=
  match p with
  | Some (PString s) => String.eqb s "smooth"
  | _ => false
  end.

(** [typeof opts === 'object' && opts.behavior === 'smooth']; reading a
    property of [null] throws. *)
Definition smooth_requested (opts : Value) : option bool :=
  match opts with
  | NullValue => None
  | Object props => Some (is_smooth (props !! "behavior"))
  | Primitive _ => Some false
  end.

(** [opts === undefined || opts === true || opts === false] *)
Definition undefined_or_boolean (opts : Value) : bool :=
  match opts with
  | Primitive PUndefined | Primitive (PBoolean _) => true
  | _ => false
  end.

(** The patched [Element.prototype.scrollTo].  The script is in strict
    mode: the assignment to the parameter [opts] does not change
    [arguments], which is what the original method is applied to. *)
Definition scrollTo (this : nat) (arguments : list Value) : Outcome :=
  let opts := nth 0 arguments (Primitive PUndefined) in
  match smooth_requested opts with
  | None => TypeError
  | Some smooth =>
      let opts := if smooth then with_instant opts else opts in
      Original this arguments
  end.

(** The patched [Element.prototype.scrollIntoView]. *)
Definition scrollIntoView (this : nat) (opts : Value) : Outcome :=
  match smooth_requested opts with
  | None => TypeError
  | Some true =>
      let opts := with_instant opts in
      Original this [with_instant opts]
  | Some false =>
      if undefined_or_boolean opts then Original this [opts]
      else Original this [with_instant opts]
  end.

(** The [behavior] an argument asks for. *)
Definition behavior (v : Value) : option Prim :=
  match v with
  | Object props => props !! "behavior"
  | _ => None
  end.

(** [{ behavior: 'smooth', block: 'end' }] *)
Definition smooth_to_end : Value :=
  Object (list_to_map [("behavior", PString "smooth"); ("block", PString "end")]).

(** ** Further definitions: the configuration the script logs (lines 223-233) *)

(** What [localStorage.getItem(CONFIG_KEY)] comes to: an exception (the
    page has no access to its storage), or the item, [null] when there is
    none. *)
Inductive Storage : Type :=
| StorageThrows
| Item (saved : option string).

(** [let config = <generated>; try { const saved = ...; if (saved)
    config = { ...config, ...JSON.parse(saved) }; } catch(e) {}], where
    [JSON_parse s] is [None] when [JSON.parse(s)] throws and otherwise the
    own enumerable properties of the value it returns. *)
Definition load_config {V : Type} (JSON_parse : string -> option (gmap string V))
  (config : gmap string V) (getItem : Storage) : gmap string V :=
  match getItem with
  | StorageThrows => config
  | Item None => config
  | Item (Some saved) =>
      if String.eqb saved "" then config
      else match JSON_parse saved with
           | None => config
           | Some props => props ∪ config
           end
  end.

(** ** Further definitions: the configurator (src/App.tsx, lines 152-165) *)

(** [ExtensionConfig], seen as the object whose keys and values the
    configurator enumerates. *)
Abbreviation ExtensionConfig := (gmap string bool).

(** [defaultConfig] *)
Definition defaultConfig : ExtensionConfig :=
  list_to_map
    [("disableAnimations", true); ("throttleInputHandlers", true);
     ("blockTelemetry", true); ("domCleanup", true); ("reduceRepaints", true);
     ("lazyCodeBlocks", true); ("disableSmoothScroll", true);
     ("collapseOldMessages", true); ("reduceMemory", true); ("optimizeImages", true)].

(** [Object.keys(config)] and [Object.values(config)]. *)
Definition Object_keys (config : ExtensionConfig) : list string :=
  map fst (map_to_list config).

Definition Object_values (config : ExtensionConfig) : list bool :=
  map snd (map_to_list config).

(** [Object.values(config).filter(Boolean).length] *)
Definition enabledCount (config : ExtensionConfig) : nat :=
  length (List.filter (fun b : bool => b) (Object_values config)).

(** [Object.keys(config).length] *)
Definition totalCount (config : ExtensionConfig) : nat :=
  length (Object_keys config).

(** [prev => ({ ...prev, [key]: !prev[key] })]; [!undefined] is [true]. *)
Definition toggleFeature (key : string) (prev : ExtensionConfig) : ExtensionConfig :=
  <[key := negb (default false (prev !! key))]> prev.

(** [const newConfig = { ...config }; for (const key of
    Object.keys(newConfig)) newConfig[key] = enabled;] *)
Definition toggleAll (enabled : bool) (config : ExtensionConfig) : ExtensionConfig :=
  forEach (Object_keys config) (fun key newConfig => <[key := enabled]> newConfig) config.

(** A saved configuration, as the text [{"domCleanup":false}], and a
    reading of it. *)
Definition quote : string := String (Ascii.ascii_of_nat 34) EmptyString.

Definition saved_text : string :=
  ("{" ++ quote ++ "domCleanup" ++ quote ++ ":false}")%string.

Definition reads_saved_text (s : string) : option (gmap string bool) :=
  if String.eqb s saved_text then Some {[ "domCleanup" := false ]} else None.

(* ===================================================================== *)
(** * Part II.  Properties                                                *)
(* ===================================================================== *)

(** ** Lists *)

Lemma NoDup_cons_In {A} (x : A) (l : list A) :
  NoDup (x :: l) <-> ~ In x l /\ NoDup l.
Proof. rewrite NoDup_cons, list_elem_of_In. tauto. Qed.

Lemma NoDup_app_In {A} (l k : list A) :
  NoDup (l ++ k) <-> NoDup l /\ (forall x, In x l -> ~ In x k) /\ NoDup k.
Proof.
  rewrite NoDup_app. split; intros (Hl & Hd & Hk); repeat split; auto;
    intros x Hx; specialize (Hd x); rewrite !list_elem_of_In in *; auto.
Qed.

Lemma NoDup_map_inj_on {A B} (f : A -> B) (l : list A) (x y : A) :
  NoDup (map f l) -> In x l -> In y l -> f x = f y -> x = y.
Proof.
  induction l as [|a l IH]; simpl; [tauto|].
  rewrite NoDup_cons_In. intros [Hn Hd] [Hx|Hx] [Hy|Hy] Hf; subst; auto.
  - exfalso. apply Hn. rewrite Hf. now apply in_map.
  - exfalso. apply Hn. rewrite <- Hf. now apply in_map.
Qed.

Lemma NoDup_map_filter {A B} (f : A -> B) (p : A -> bool) (l : list A) :
  NoDup (map f l) -> NoDup (map f (List.filter p l)).
Proof.
  induction l as [|a l IH]; simpl; [auto|].
  rewrite NoDup_cons_In. intros [Hn Hd].
  destruct (p a); simpl; [|auto].
  apply NoDup_cons_In. split; [|auto].
  intros H. apply Hn. apply in_map_iff in H as (x & Hx & Hin).
  apply filter_In in Hin as [Hin _]. apply in_map_iff. eauto.
Qed.

Lemma NoDup_count_le_one (l : list nat) x : NoDup l -> count_occ Nat.eq_dec l x <= 1.
Proof.
  induction l as [|a l IH]; simpl; [lia|].
  rewrite NoDup_cons_In. intros [Hn Hd].
  destruct (Nat.eq_dec a x) as [->|Hne]; [|auto].
  apply (count_occ_not_In Nat.eq_dec) in Hn. lia.
Qed.

Lemma filter_nil_iff {A} (f : A -> bool) (l : list A) :
  List.filter f l = [] <-> (forall x, In x l -> f x = false).
Proof.
  induction l as [|a l IH]; simpl; [tauto|].
  destruct (f a) eqn:Ha; split.
  - discriminate.
  - intros H. specialize (H a (or_introl eq_refl)). congruence.
  - intros H x [->|Hx]; [assumption|]. now apply IH.
  - intros H. apply IH. auto.
Qed.

Lemma filter_map_comm {A B} (f : A -> B) (p : B -> bool) (l : list A) :
  List.filter p (map f l) = map f (List.filter (fun a => p (f a)) l).
Proof.
  induction l as [|a l IH]; simpl; [reflexivity|].
  destruct (p (f a)); simpl; now rewrite IH.
Qed.

Lemma forEach_fixed {A S} (f : A -> S -> S) (q : list A) (s : S) :
  (forall a, In a q -> f a s = s) -> forEach q f s = s.
Proof.
  induction q as [|a q IH]; simpl; intros H; [reflexivity|].
  rewrite (H a) by now left. apply IH. intros b Hb. apply H. now right.
Qed.

Lemma final_nonempty {A} (a : A) (l : list A) : final (a :: l) <> None.
Proof.
  revert a. induction l as [|b l IH]; intros a; [discriminate|].
  change (final (a :: b :: l)) with (final (b :: l)). apply IH.
Qed.

Lemma final_cons {A} (a : A) (l : list A) :
  final (a :: l) = match final l with Some x => Some x | None => Some a end.
Proof.
  destruct l as [|b l]; [reflexivity|].
  change (final (a :: b :: l)) with (final (b :: l)).
  destruct (final (b :: l)) eqn:E; [reflexivity|].
  exfalso. exact (final_nonempty _ _ E).
Qed.

Lemma final_app_one {A} (l : list A) (a : A) : final (l ++ [a]) = Some a.
Proof.
  induction l as [|b l IH]; [reflexivity|].
  change ((b :: l) ++ [a]) with (b :: (l ++ [a])). now rewrite final_cons, IH.
Qed.

(** ** The document: walking *)

Lemma walk_ids anc d : map (fun l => nid (elem l)) (walk anc d) = ids d.
Proof.
  revert anc. induction d as [|e k IHk s IHs]; intros anc; simpl; [reflexivity|].
  now rewrite map_app, IHk, IHs.
Qed.

Lemma walk_In_ids anc d l : In l (walk anc d) -> In (nid (elem l)) (ids d).
Proof.
  intros H. rewrite <- (walk_ids anc).
  now apply (in_map (fun l => nid (elem l))).
Qed.

Lemma ids_In_walk anc d id :
  In id (ids d) -> exists l, In l (walk anc d) /\ nid (elem l) = id.
Proof.
  rewrite <- (walk_ids anc), in_map_iff. intros (l & Hl & Hin). eauto.
Qed.

(** In a well-formed document a reference denotes one element. *)
Lemma walk_unique d l1 l2 :
  wf d -> In l1 (walk [] d) -> In l2 (walk [] d) ->
  nid (elem l1) = nid (elem l2) -> l1 = l2.
Proof.
  unfold wf. rewrite <- (walk_ids []). intros Hwf H1 H2 Heq.
  exact (NoDup_map_inj_on _ _ _ _ Hwf H1 H2 Heq).
Qed.

Lemma walk_elements anc d : map elem (walk anc d) = elements d.
Proof.
  revert anc. induction d as [|e k IHk s IHs]; intros anc; simpl; [reflexivity|].
  now rewrite map_app, IHk, IHs.
Qed.

Lemma elements_ids d : map nid (elements d) = ids d.
Proof.
  induction d as [|e k IHk s IHs]; simpl; [reflexivity|].
  now rewrite map_app, IHk, IHs.
Qed.

Lemma lookup_node_Some id d l :
  lookup_node id d = Some l -> In l (walk [] d) /\ nid (elem l) = id.
Proof.
  unfold lookup_node. intros H. apply find_some in H as [Hin Heq].
  split; [assumption|]. now apply Nat.eqb_eq.
Qed.

Lemma lookup_node_None id d : lookup_node id d = None -> ~ In id (ids d).
Proof.
  unfold lookup_node. intros H Hin.
  destruct (ids_In_walk [] d id Hin) as (l & Hl & Hid).
  pose proof (find_none _ _ H l Hl) as Hf. simpl in Hf.
  apply Nat.eqb_neq in Hf. contradiction.
Qed.

Lemma querySelectorAll_In sel d l :
  In l (walk [] d) -> sel l = true -> In (nid (elem l)) (querySelectorAll sel d).
Proof.
  intros Hl Hs. unfold querySelectorAll.
  apply (in_map (fun l => nid (elem l))). apply filter_In. auto.
Qed.

Lemma querySelectorAll_nil sel d :
  (forall l, In l (walk [] d) -> sel l = false) -> querySelectorAll sel d = [].
Proof.
  intros H. unfold querySelectorAll.
  apply filter_nil_iff in H. now rewrite H.
Qed.

Lemma querySelectorAll_elim sel d id :
  In id (querySelectorAll sel d) ->
  exists l, In l (walk [] d) /\ nid (elem l) = id /\ sel l = true.
Proof.
  unfold querySelectorAll. rewrite in_map_iff. intros (l & Hid & Hl).
  apply filter_In in Hl as [Hl Hsel]. eauto.
Qed.

Lemma querySelectorAll_elements sel d :
  querySelectorAll (at_elem sel) d = map nid (List.filter sel (elements d)).
Proof.
  unfold querySelectorAll, at_elem. rewrite <- (walk_elements []), filter_map_comm.
  now rewrite map_map.
Qed.

Lemma querySelectorAll_NoDup sel d : wf d -> NoDup (querySelectorAll sel d).
Proof.
  unfold wf, querySelectorAll. rewrite <- (walk_ids []). apply NoDup_map_filter.
Qed.

Lemma walk_ancestors d : forall anc l a,
  In l (walk anc d) -> In a anc -> In a (ancestors l).
Proof.
  induction d as [|e k IHk s IHs]; intros anc l a; simpl; [tauto|].
  rewrite in_app_iff. intros [<- | [H|H]] Ha; simpl; eauto.
  apply (IHk _ _ _ H). now right.
Qed.

(** Every ancestor is itself an element of the document. *)
Lemma walk_ancestors_located d : forall anc l a,
  In l (walk anc d) -> In a (ancestors l) ->
  In a anc \/ exists la, In la (walk anc d) /\ elem la = a.
Proof.
  induction d as [|e k IHk s IHs]; intros anc l a; simpl; [tauto|].
  rewrite in_app_iff. intros [<- | [H|H]] Ha; simpl in *.
  - now left.
  - destruct (IHk _ _ _ H Ha) as [[<- | Hanc] | (la & Hla & He)].
    + right. exists (mkLocated anc e k). auto.
    + now left.
    + right. exists la. split; [|assumption]. right. apply in_app_iff. now left.
  - destruct (IHs _ _ _ H Ha) as [Hanc | (la & Hla & He)].
    + now left.
    + right. exists la. split; [|assumption]. right. apply in_app_iff. now right.
Qed.

Lemma chain_located d l a :
  In l (walk [] d) -> In a (chain l) -> exists la, In la (walk [] d) /\ elem la = a.
Proof.
  intros Hl [<- | Ha]; [eauto|].
  destruct (walk_ancestors_located d [] l a Hl Ha) as [[] | H]. exact H.
Qed.

(** ** The document: removing *)

Lemma origin_refl l : origin l l.
Proof. unfold origin. auto. Qed.

Lemma origin_trans l1 l2 l3 : origin l1 l2 -> origin l2 l3 -> origin l1 l3.
Proof. unfold origin. intros (?&?&?) (?&?&?). repeat split; try congruence. auto. Qed.

Lemma shrinks_refl d : shrinks d d.
Proof. intros l Hl. exists l. split; [assumption | apply origin_refl]. Qed.

Lemma shrinks_trans d1 d2 d3 : shrinks d1 d2 -> shrinks d2 d3 -> shrinks d1 d3.
Proof.
  intros H12 H23 l1 Hl1. destruct (H12 l1 Hl1) as (l2 & Hl2 & Ho12).
  destruct (H23 l2 Hl2) as (l3 & Hl3 & Ho23).
  exists l3. split; [assumption | eapply origin_trans; eassumption].
Qed.

Lemma remove_walk id d : forall anc l',
  In l' (walk anc (remove id d)) -> exists l, In l (walk anc d) /\ origin l' l.
Proof.
  induction d as [|e k IHk s IHs]; intros anc l'; simpl; [tauto|].
  destruct (nid e =? id).
  - intros H. exists l'. split; [|apply origin_refl].
    right. apply in_app_iff. now right.
  - simpl. rewrite in_app_iff. intros [<-|[H|H]].
    + exists (mkLocated anc e k). split; [now left|].
      unfold origin; simpl. repeat split. now intros ->.
    + destruct (IHk _ _ H) as (l & Hl & Ho). exists l. split; [|assumption].
      right. apply in_app_iff. now left.
    + destruct (IHs _ _ H) as (l & Hl & Ho). exists l. split; [|assumption].
      right. apply in_app_iff. now right.
Qed.

Lemma remove_shrinks id d : shrinks (remove id d) d.
Proof. intros l'. apply remove_walk. Qed.

Lemma remove_ids_incl id d x : In x (ids (remove id d)) -> In x (ids d).
Proof.
  induction d as [|e k IHk s IHs]; simpl; [tauto|].
  destruct (nid e =? id); simpl; rewrite ?in_app_iff; tauto.
Qed.

Lemma remove_wf id d : wf d -> wf (remove id d).
Proof.
  unfold wf. induction d as [|e k IHk s IHs]; simpl; [auto|].
  rewrite NoDup_cons_In, NoDup_app_In. intros (Hn & Hk & Hd & Hs).
  destruct (nid e =? id); [assumption|]. simpl.
  rewrite NoDup_cons_In, NoDup_app_In, in_app_iff in *.
  repeat split; auto.
  - intros [H|H]; apply remove_ids_incl in H; tauto.
  - intros x Hx Hx'. apply remove_ids_incl in Hx, Hx'. eapply Hd; eassumption.
Qed.

Lemma remove_gone id d : wf d -> ~ In id (ids (remove id d)).
Proof.
  unfold wf. induction d as [|e k IHk s IHs]; simpl; [auto|].
  rewrite NoDup_cons_In, NoDup_app_In, in_app_iff. intros (Hn & Hk & Hd & Hs).
  destruct (nid e =? id) eqn:E.
  - apply Nat.eqb_eq in E. subst id. tauto.
  - apply Nat.eqb_neq in E. simpl. rewrite in_app_iff.
    intros [H|[H|H]]; [congruence | now apply IHk | now apply IHs].
Qed.

Lemma remove_keeps id d : forall anc l,
  In l (walk anc d) ->
  (forall a, In a (chain l) -> nid a <> id) ->
  exists l', In l' (walk anc (remove id d)) /\ same_place l' l.
Proof.
  induction d as [|e k IHk s IHs]; intros anc l; simpl; [tauto|].
  rewrite in_app_iff. intros Hin Hchain.
  destruct (nid e =? id) eqn:E.
  - apply Nat.eqb_eq in E. destruct Hin as [<- | [H|H]].
    + exfalso. apply (Hchain e); [now left | assumption].
    + exfalso. apply (Hchain e); [|assumption].
      right. apply (walk_ancestors k (e :: anc)); [assumption | now left].
    + exists l. split; [assumption | split; reflexivity].
  - simpl. destruct Hin as [<- | [H|H]].
    + exists (mkLocated anc e (remove id k)). split; [now left | split; reflexivity].
    + destruct (IHk _ _ H Hchain) as (l' & Hl' & Hs). exists l'. split; [|assumption].
      right. apply in_app_iff. now left.
    + destruct (IHs _ _ H Hchain) as (l' & Hl' & Hs). exists l'. split; [|assumption].
      right. apply in_app_iff. now right.
Qed.

Lemma same_place_chain l' l : same_place l' l -> chain l' = chain l.
Proof. intros [Ha He]. unfold chain. now rewrite Ha, He. Qed.

Lemma same_place_trans l1 l2 l3 : same_place l1 l2 -> same_place l2 l3 -> same_place l1 l3.
Proof. intros [? ?] [? ?]. split; congruence. Qed.

Lemma remove_cases el d : remove el d = d \/ remove el d = remove el d.
Proof. now right. Qed.

(** ** The document: writing *)

Lemma update_absent id f d : ~ In id (ids d) -> update id f d = d.
Proof.
  induction d as [|e k IHk s IHs]; simpl; [auto|].
  rewrite in_app_iff. intros H.
  destruct (nid e =? id) eqn:E; [apply Nat.eqb_eq in E; tauto|].
  now rewrite IHk, IHs by tauto.
Qed.

Lemma update_children_absent id f d : ~ In id (ids d) -> update_children id f d = d.
Proof.
  induction d as [|e k IHk s IHs]; simpl; [auto|].
  rewrite in_app_iff. intros H.
  destruct (nid e =? id) eqn:E; [apply Nat.eqb_eq in E; tauto|].
  now rewrite IHk, IHs by tauto.
Qed.

Lemma ids_map_siblings f d :
  (forall e, nid (f e) = nid e) -> ids (map_siblings f d) = ids d.
Proof.
  intros Hf. induction d as [|e k IHk s IHs]; simpl; [auto|].
  now rewrite Hf, IHs.
Qed.

Lemma ids_update id f d :
  (forall e, nid (f e) = nid e) -> ids (update id f d) = ids d.
Proof.
  intros Hf. induction d as [|e k IHk s IHs]; simpl; [auto|].
  rewrite IHk, IHs. destruct (nid e =? id); now rewrite ?Hf.
Qed.

Lemma map_siblings_compose f g d :
  map_siblings f (map_siblings g d) = map_siblings (fun e => f (g e)) d.
Proof. induction d as [|e k IHk s IHs]; simpl; [auto|]. now rewrite IHs. Qed.

Lemma map_siblings_id f d :
  Forall (fun e => f e = e) (level d) -> map_siblings f d = d.
Proof.
  induction d as [|e k IHk s IHs]; simpl; [auto|].
  intros H. inversion H; subst. now rewrite IHs by assumption; congruence.
Qed.

Lemma elements_update id f d :
  elements (update id f d) = map (fun e => if nid e =? id then f e else e) (elements d).
Proof.
  induction d as [|e k IHk s IHs]; simpl; [reflexivity|].
  now rewrite map_app, IHk, IHs.
Qed.



Lemma walk_update id f d : forall anc,
  walk (map (upd id f) anc) (update id f d) = map (upd_located id f) (walk anc d).
Proof.
  induction d as [|e k IHk s IHs]; intros anc; simpl; [reflexivity|].
  rewrite map_app, <- IHs, <- (IHk (e :: anc)). reflexivity.
Qed.

(** ** DOM Janitor: the loops of a sweep *)

Lemma origin_stale l' l : origin l' l -> stale l' = stale l.
Proof.
  intros (Ha & He & _). unfold stale, offsetParent, closest. now rewrite Ha, He.
Qed.

Lemma remove_stale_tooltip_cases el d :
  remove_stale_tooltip el d = d \/ remove_stale_tooltip el d = remove el d.
Proof.
  unfold remove_stale_tooltip. destruct (lookup_node el d); [|now left].
  destruct (_ && _); [now right | now left].
Qed.

Lemma remove_stale_tooltip_wf el d : wf d -> wf (remove_stale_tooltip el d).
Proof.
  intros H. destruct (remove_stale_tooltip_cases el d) as [-> | ->];
    [assumption | now apply remove_wf].
Qed.

Lemma remove_stale_tooltip_shrinks el d : shrinks (remove_stale_tooltip el d) d.
Proof.
  destruct (remove_stale_tooltip_cases el d) as [-> | ->];
    [apply shrinks_refl | apply remove_shrinks].
Qed.

Section Loops.
Variable step : nat -> DOM -> DOM.
Hypothesis step_wf : forall el d, wf d -> wf (step el d).
Hypothesis step_shrinks : forall el d, shrinks (step el d) d.

Lemma forEach_wf q d : wf d -> wf (forEach q step d).
Proof.
  revert d. induction q as [|el q IH]; intros d Hd; simpl; [assumption|].
  apply IH, step_wf, Hd.
Qed.

Lemma forEach_shrinks q d : shrinks (forEach q step d) d.
Proof.
  revert d. induction q as [|el q IH]; intros d; simpl; [apply shrinks_refl|].
  eapply shrinks_trans; [apply IH | apply step_shrinks].
Qed.
End Loops.

Section Keeps.
Variable step : nat -> DOM -> DOM.
Hypothesis step_cases : forall el d, step el d = d \/ step el d = remove el d.

Lemma forEach_keeps q : forall d l,
  In l (walk [] d) ->
  (forall a, In a (chain l) -> ~ In (nid a) q) ->
  exists l', In l' (walk [] (forEach q step d)) /\ same_place l' l.
Proof.
  induction q as [|el q IH]; intros d l Hl Hchain; simpl.
  - exists l. split; [assumption | split; reflexivity].
  - assert (H1 : exists l1, In l1 (walk [] (step el d)) /\ same_place l1 l).
    { destruct (step_cases el d) as [-> | ->].
      - exists l. split; [assumption | split; reflexivity].
      - apply remove_keeps; [assumption|].
        intros a Ha Heq. apply (Hchain a Ha). now left. }
    destruct H1 as (l1 & Hl1 & Hs1).
    destruct (IH _ l1 Hl1) as (l' & Hl' & Hs').
    { rewrite (same_place_chain _ _ Hs1). intros a Ha Hq.
      apply (Hchain a Ha). now right. }
    exists l'. split; [assumption | eapply same_place_trans; eassumption].
Qed.
End Keeps.

(** After the first loop no element of the list that is still in the
    document passes the test. *)
Lemma tooltips_loop_post q d l' :
  wf d ->
  In l' (walk [] (forEach q remove_stale_tooltip d)) ->
  In (nid (elem l')) q ->
  stale l' = false.
Proof.
  revert d. induction q as [|el q IH]; intros d Hwf Hin Hq; [destruct Hq|].
  simpl in Hin. destruct Hq as [Hel | Hq].
  2:{ eapply IH; [apply remove_stale_tooltip_wf, Hwf | exact Hin | exact Hq]. }
  destruct (forEach_shrinks _ remove_stale_tooltip_shrinks q _ l' Hin)
    as (l & Hl & Ho).
  rewrite (origin_stale _ _ Ho).
  assert (Hid : nid (elem l) = el) by (destruct Ho as (_ & He & _); rewrite <- He; auto).
  unfold remove_stale_tooltip in Hl.
  destruct (lookup_node el d) as [l0|] eqn:Hlook.
  - apply lookup_node_Some in Hlook as [Hl0 Hid0].
    fold (stale l0) in Hl. destruct (stale l0) eqn:Hs.
    + exfalso. apply (remove_gone el d Hwf).
      apply walk_In_ids in Hl. now rewrite Hid in Hl.
    + assert (l = l0) by (apply (walk_unique d); auto; congruence).
      congruence.
  - exfalso. apply (lookup_node_None _ _ Hlook).
    apply walk_In_ids in Hl. now rewrite Hid in Hl.
Qed.

(** After a loop that removes every element of the list none of them is
    in the document. *)
Lemma remove_loop_post q d id :
  wf d -> In id q -> ~ In id (ids (forEach q remove d)).
Proof.
  revert d. induction q as [|el q IH]; intros d Hwf Hq Hin; [destruct Hq|].
  simpl in Hin. destruct Hq as [-> | Hq].
  - destruct (ids_In_walk [] _ _ Hin) as (l' & Hl' & Hid).
    destruct (forEach_shrinks _ remove_shrinks q _ l' Hl') as (l & Hl & Ho).
    apply (remove_gone id d Hwf).
    destruct Ho as (_ & He & _). apply walk_In_ids in Hl.
    now rewrite <- He, Hid in Hl.
  - eapply IH; [apply remove_wf, Hwf | exact Hq | exact Hin].
Qed.

Lemma cleanup_swept d : wf d -> swept d -> cleanup d = d.
Proof.
  intros Hwf Hs. unfold cleanup.
  assert (H1 : forEach (querySelectorAll (at_elem sel_tooltips) d) remove_stale_tooltip d = d).
  { apply forEach_fixed. intros el Hel.
    unfold querySelectorAll in Hel. apply in_map_iff in Hel as (l & Hid & Hl).
    apply filter_In in Hl as [Hl Hsel].
    unfold remove_stale_tooltip.
    destruct (lookup_node el d) as [l0|] eqn:Hlook; [|reflexivity].
    apply lookup_node_Some in Hlook as [Hl0 Hid0].
    assert (l0 = l) by (apply (walk_unique d); auto; congruence). subst l0.
    fold (stale l). destruct (Hs l Hl) as (Ht & _). now rewrite Ht. }
  rewrite H1.
  rewrite (querySelectorAll_nil sel_style_empty d) by (intros l Hl; apply (Hs l Hl)).
  simpl.
  rewrite (querySelectorAll_nil (at_elem sel_headlessui) d) by (intros l Hl; apply (Hs l Hl)).
  reflexivity.
Qed.

Lemma cleanup_wf d : wf d -> wf (cleanup d).
Proof.
  intros Hwf. unfold cleanup.
  apply forEach_wf; [apply remove_wf|].
  apply forEach_wf; [apply remove_wf|].
  apply forEach_wf; [apply remove_stale_tooltip_wf | assumption].
Qed.

Lemma cleanup_shrinks d : shrinks (cleanup d) d.
Proof.
  unfold cleanup.
  eapply shrinks_trans; [apply forEach_shrinks, remove_shrinks|].
  eapply shrinks_trans; [apply forEach_shrinks, remove_shrinks|].
  apply forEach_shrinks, remove_stale_tooltip_shrinks.
Qed.

Lemma cleanup_unfold d :
  cleanup d
  = forEach (querySelectorAll (at_elem sel_headlessui) (after_styles d)) remove
      (after_styles d).
Proof. reflexivity. Qed.

Lemma after_tooltips_wf d : wf d -> wf (after_tooltips d).
Proof. intros H. apply forEach_wf; [apply remove_stale_tooltip_wf | assumption]. Qed.

Lemma after_styles_wf d : wf d -> wf (after_styles d).
Proof. intros H. apply forEach_wf; [apply remove_wf | now apply after_tooltips_wf]. Qed.

Lemma after_tooltips_shrinks d : shrinks (after_tooltips d) d.
Proof. apply forEach_shrinks, remove_stale_tooltip_shrinks. Qed.

Lemma after_styles_shrinks d : shrinks (after_styles d) (after_tooltips d).
Proof. apply forEach_shrinks, remove_shrinks. Qed.

Lemma cleanup_shrinks_styles d : shrinks (cleanup d) (after_styles d).
Proof. rewrite cleanup_unfold. apply forEach_shrinks, remove_shrinks. Qed.

(** No overlay remnant is left by a sweep. *)
Lemma cleanup_no_headlessui d l3 :
  wf d -> In l3 (walk [] (cleanup d)) -> sel_headlessui (elem l3) = false.
Proof.
  intros Hwf Hl3.
  destruct (cleanup_shrinks_styles d l3 Hl3) as (l2 & Hl2 & (_ & He32 & _)).
  destruct (sel_headlessui (elem l3)) eqn:Hsel; [exfalso | reflexivity].
  apply (remove_loop_post (querySelectorAll (at_elem sel_headlessui) (after_styles d))
           (after_styles d) (nid (elem l2)) (after_styles_wf d Hwf)).
  - apply querySelectorAll_In; [assumption|]. unfold at_elem. now rewrite <- He32.
  - rewrite <- cleanup_unfold, <- He32. apply (walk_In_ids [] _ _ Hl3).
Qed.

(** No tooltip that passes the staleness test is left by a sweep. *)
Lemma cleanup_no_stale_tooltip d l3 :
  wf d -> In l3 (walk [] (cleanup d)) ->
  sel_tooltips (elem l3) = true -> stale l3 = false.
Proof.
  intros Hwf Hl3 Hsel.
  destruct (cleanup_shrinks_styles d l3 Hl3) as (l2 & Hl2 & Ho32).
  destruct (after_styles_shrinks d l2 Hl2) as (l1 & Hl1 & Ho21).
  destruct (after_tooltips_shrinks d l1 Hl1) as (l & Hl & Ho10).
  pose proof (origin_trans _ _ _ Ho32 Ho21) as Ho31.
  rewrite (origin_stale _ _ Ho31).
  apply (tooltips_loop_post (querySelectorAll (at_elem sel_tooltips) d) d l1 Hwf Hl1).
  destruct Ho10 as (_ & He & _). rewrite He.
  apply querySelectorAll_In; [assumption|].
  destruct Ho31 as (_ & He31 & _). unfold at_elem. now rewrite <- He, <- He31.
Qed.

(** No empty [style] element is left by a sweep of a document whose
    [style] elements have no element children. *)
Lemma cleanup_no_empty_style d l3 :
  wf d -> style_elements_hold_text_only d ->
  In l3 (walk [] (cleanup d)) -> sel_style_empty l3 = false.
Proof.
  intros Hwf Hstyle Hl3.
  destruct (cleanup_shrinks_styles d l3 Hl3) as (l2 & Hl2 & Ho32).
  destruct (after_styles_shrinks d l2 Hl2) as (l1 & Hl1 & Ho21).
  destruct (after_tooltips_shrinks d l1 Hl1) as (l & Hl & Ho10).
  pose proof (origin_trans _ _ _ Ho32 Ho21) as Ho31.
  destruct (sel_style_empty l3) eqn:Hsel; [exfalso | reflexivity].
  unfold sel_style_empty in Hsel. apply andb_true_iff in Hsel as [Hname Hemp].
  apply String.eqb_eq in Hname.
  destruct Ho10 as (_ & He10 & Hk10).
  destruct Ho31 as (_ & He31 & _). destruct Ho32 as (_ & He32 & _).
  assert (Hk1 : childNodes l1 = Leaf).
  { apply Hk10, (Hstyle l Hl). congruence. }
  assert (Hsel1 : sel_style_empty l1 = true).
  { unfold sel_style_empty, is_empty. rewrite Hk1, <- He31, Hname. simpl.
    unfold is_empty in Hemp. destruct (childNodes l3); [assumption | discriminate]. }
  apply (remove_loop_post (querySelectorAll sel_style_empty (after_tooltips d))
           (after_tooltips d) (nid (elem l1)) (after_tooltips_wf d Hwf)).
  - now apply querySelectorAll_In.
  - fold (after_styles d). rewrite <- He31, He32. apply (walk_In_ids [] _ _ Hl2).
Qed.

Lemma cleanup_post d :
  wf d -> style_elements_hold_text_only d -> swept (cleanup d).
Proof.
  intros Hwf Hstyle l3 Hl3. repeat split.
  - now apply (cleanup_no_stale_tooltip d).
  - now apply (cleanup_no_empty_style d).
  - now apply (cleanup_no_headlessui d).
Qed.

(** An element none of whose chain is looked for stays in the document. *)
Lemma cleanup_keeps d l :
  wf d -> In l (walk [] d) ->
  (forall a, In a (chain l) -> janitor_target a = false) ->
  exists l', In l' (walk [] (cleanup d)) /\ same_place l' l.
Proof.
  intros Hwf Hl Hchain.
  assert (Hel : forall d' a (sel : Located -> bool),
             shrinks d' d -> In a (chain l) ->
             In (nid a) (querySelectorAll sel d') ->
             exists l0 l', In l0 (walk [] d) /\ elem l0 = a
                           /\ origin l' l0 /\ sel l' = true).
  { intros d' a sel Hsh Ha Hq.
    apply querySelectorAll_elim in Hq as (l' & Hl' & Hid & Hsel).
    destruct (Hsh l' Hl') as (l0 & Hl0 & Ho).
    destruct (chain_located d l a Hl Ha) as (la & Hla & Hea).
    assert (la = l0).
    { apply (walk_unique d); auto. destruct Ho as (_ & He & _). congruence. }
    subst la. exists l0, l'. auto. }
  (* first loop *)
  destruct (forEach_keeps _ remove_stale_tooltip_cases
              (querySelectorAll (at_elem sel_tooltips) d) d l Hl) as (l1 & Hl1 & Hs1).
  { intros a Ha Hq.
    destruct (Hel d a _ (shrinks_refl d) Ha Hq) as (l0 & l' & _ & He0 & Ho & Hsel).
    specialize (Hchain a Ha). unfold janitor_target in Hchain.
    destruct Ho as (_ & He & _). unfold at_elem in Hsel. rewrite He, He0 in Hsel.
    rewrite Hsel in Hchain. discriminate. }
  fold (after_tooltips d) in Hl1.
  (* second loop *)
  destruct (forEach_keeps _ remove_cases
              (querySelectorAll sel_style_empty (after_tooltips d)) _ l1 Hl1)
    as (l2 & Hl2 & Hs2).
  { rewrite (same_place_chain _ _ Hs1). intros a Ha Hq.
    destruct (Hel _ a _ (after_tooltips_shrinks d) Ha Hq)
      as (l0 & l' & _ & He0 & Ho & Hsel).
    specialize (Hchain a Ha). unfold janitor_target in Hchain.
    destruct Ho as (_ & He & _). unfold sel_style_empty in Hsel.
    apply andb_true_iff in Hsel as [Hname _]. rewrite He, He0 in Hname.
    rewrite Hname, orb_true_r in Hchain. discriminate. }
  fold (after_styles d) in Hl2.
  (* third loop *)
  destruct (forEach_keeps _ remove_cases
              (querySelectorAll (at_elem sel_headlessui) (after_styles d)) _ l2 Hl2)
    as (l3 & Hl3 & Hs3).
  { rewrite (same_place_chain _ _ Hs2), (same_place_chain _ _ Hs1). intros a Ha Hq.
    destruct (Hel _ a _ (shrinks_trans _ _ _ (after_styles_shrinks d)
                             (after_tooltips_shrinks d)) Ha Hq)
      as (l0 & l' & _ & He0 & Ho & Hsel).
    specialize (Hchain a Ha). unfold janitor_target in Hchain.
    destruct Ho as (_ & He & _). unfold at_elem in Hsel. rewrite He, He0 in Hsel.
    rewrite Hsel, orb_true_r in Hchain. discriminate. }
  rewrite <- cleanup_unfold in Hl3.
  exists l3. split; [assumption|].
  eapply same_place_trans; [exact Hs3|]. eapply same_place_trans; eassumption.
Qed.

(** An overlay remnant does not stay, whatever else is true of it. *)
Lemma cleanup_removes_headlessui d l :
  wf d -> In l (walk [] d) -> sel_headlessui (elem l) = true ->
  ~ In (nid (elem l)) (ids (cleanup d)).
Proof.
  intros Hwf Hl Hsel Hin.
  destruct (ids_In_walk [] _ _ Hin) as (l3 & Hl3 & Hid).
  destruct (cleanup_shrinks d l3 Hl3) as (l0 & Hl0 & (_ & He & _)).
  assert (l0 = l) by (apply (walk_unique d); auto; congruence). subst l0.
  pose proof (cleanup_no_headlessui d l3 Hwf Hl3) as H.
  rewrite He, Hsel in H. discriminate.
Qed.

Lemma style_text_only_b_sound d :
  style_text_only_b d = true -> style_elements_hold_text_only d.
Proof.
  unfold style_text_only_b. rewrite forallb_forall. intros H l Hl Hname.
  specialize (H l Hl). rewrite Hname in H. simpl in H.
  now destruct (childNodes l).
Qed.

(** ** DOM Janitor: idempotence *)

Lemma ids_relayout box d : ids (relayout box d) = ids d.
Proof. induction d as [|e k IHk s IHs]; simpl; [reflexivity|]. now rewrite IHk, IHs. Qed.

Lemma walk_relayout box d : forall anc,
  walk (map (fun e => with_hostBox (box (nid e)) e) anc) (relayout box d)
  = map (relayout_located box) (walk anc d).
Proof.
  induction d as [|e k IHk s IHs]; intros anc; simpl; [reflexivity|].
  rewrite map_app, <- IHs, <- (IHk (e :: anc)). reflexivity.
Qed.

Lemma relayout_same box d :
  (forall e, In e (elements d) -> box (nid e) = hostBox e) -> relayout box d = d.
Proof.
  induction d as [|e k IHk s IHs]; simpl; [reflexivity|].
  intros H. rewrite IHk, IHs.
  - rewrite (H e) by now left. now destruct e.
  - intros x Hx. apply H. right. apply in_app_iff. now right.
  - intros x Hx. apply H. right. apply in_app_iff. now left.
Qed.

Lemma rendered_relayout box l :
  forallb (fun e => negb (display_none e)) (map (fun e => with_hostBox (box (nid e)) e) l)
  = forallb (fun e => negb (display_none e)) l.
Proof. induction l as [|a l IH]; simpl; [reflexivity|]. now rewrite IH. Qed.

Lemma existsb_relayout (sel : Element -> bool) box l :
  (forall e b, sel (with_hostBox b e) = sel e) ->
  existsb sel (map (fun e => with_hostBox (box (nid e)) e) l) = existsb sel l.
Proof.
  intros Hsel. induction l as [|a l IH]; simpl; [reflexivity|]. now rewrite IH, Hsel.
Qed.

Lemma closest_relayout box l :
  closest sel_state_open (relayout_located box l) = closest sel_state_open l.
Proof.
  unfold closest, relayout_located. simpl. now rewrite existsb_relayout.
Qed.

Lemma offsetParent_relayout box l :
  offsetParent (relayout_located box l)
  = box (nid (elem l)) && forallb (fun e => negb (display_none e)) (elem l :: ancestors l).
Proof.
  unfold offsetParent, relayout_located. simpl. now rewrite rendered_relayout.
Qed.

Lemma sel_style_empty_relayout box l :
  sel_style_empty (relayout_located box l) = sel_style_empty l.
Proof.
  unfold sel_style_empty, is_empty, relayout_located. simpl.
  now destruct (childNodes l).
Qed.

(** A swept document stays swept under new boxes that keep its tooltips
    rendered. *)
Lemma swept_relayout box d :
  swept d -> tooltips_stay_rendered box d -> swept (relayout box d).
Proof.
  intros Hs Hbox l' Hl'.
  change (@nil Element) with (map (fun e => with_hostBox (box (nid e)) e) []) in Hl'.
  rewrite walk_relayout in Hl'. apply in_map_iff in Hl' as (l & <- & Hl).
  destruct (Hs l Hl) as (Ht & Hst & Hh).
  split; [|split].
  - intros Hsel. change (sel_tooltips (elem l) = true) in Hsel.
    specialize (Ht Hsel). unfold stale in *.
    rewrite closest_relayout, offsetParent_relayout.
    destruct (closest sel_state_open l) eqn:Hc; [now rewrite andb_false_r|].
    rewrite andb_true_r in *. apply negb_false_iff in Ht.
    rewrite (Hbox l Hl Hsel Ht Hc). unfold offsetParent in Ht.
    apply andb_true_iff in Ht as [_ Ht]. now rewrite Ht.
  - now rewrite sel_style_empty_relayout.
  - exact Hh.
Qed.

(** C7 (as amended).  On a document whose [style] elements have no
    element children, a second sweep with no DOM change in between
    removes zero elements and leaves the document as it found it,
    provided the boxes the browser computes after the first sweep take
    the offset parent from no tooltip or popper wrapper that the first
    sweep kept for having one; when the first sweep changes no box at
    all, the second sweep returns the very document of the first. *)
Theorem cleanup_idempotent d box :
  wf d -> style_elements_hold_text_only d ->
  tooltips_stay_rendered box (cleanup d) ->
  cleanup (relayout box (cleanup d)) = relayout box (cleanup d)
  /\ removed_by_cleanup (relayout box (cleanup d)) = 0
  /\ ((forall e, In e (elements (cleanup d)) -> box (nid e) = hostBox e) ->
      cleanup (cleanup d) = cleanup d).
Proof.
  intros Hwf Hstyle Hbox.
  assert (H : cleanup (relayout box (cleanup d)) = relayout box (cleanup d)).
  { apply cleanup_swept.
    - unfold wf. rewrite ids_relayout. now apply cleanup_wf.
    - apply swept_relayout; [now apply cleanup_post | assumption]. }
  split; [assumption|]. split.
  - unfold removed_by_cleanup. rewrite H. lia.
  - intros Hsame. rewrite (relayout_same box (cleanup d) Hsame) in H. exact H.
Qed.

(** C7, instance: a page with a stale tooltip, an empty [style] element
    and an overlay remnant; the first sweep leaves two elements, and the
    second removes none, whatever boxes the browser computes for them. *)
Lemma cleanup_idempotent_witness :
  wf page_with_debris
  /\ style_elements_hold_text_only page_with_debris
  /\ ids (cleanup page_with_debris) = [1; 6]
  /\ cleanup (relayout (fun _ => false) (cleanup page_with_debris))
     = relayout (fun _ => false) (cleanup page_with_debris)
  /\ cleanup (cleanup page_with_debris) = cleanup page_with_debris
  /\ removed_by_cleanup (cleanup page_with_debris) = 0.
Proof.
  assert (Hwf : wf page_with_debris) by (apply (bool_decide_unpack _); vm_compute; exact I).
  assert (Hst : style_elements_hold_text_only page_with_debris)
    by (apply style_text_only_b_sound; vm_compute; reflexivity).
  assert (Hno : forall box, tooltips_stay_rendered box (cleanup page_with_debris)).
  { intros box l Hl Hsel. exfalso. vm_compute in Hl.
    destruct Hl as [<- | [<- | []]]; vm_compute in Hsel; discriminate. }
  split; [exact Hwf|]. split; [exact Hst|]. split; [vm_compute; reflexivity|].
  split; [exact (proj1 (cleanup_idempotent page_with_debris (fun _ => false) Hwf Hst (Hno _)))|].
  assert (Hsame : cleanup (cleanup page_with_debris) = cleanup page_with_debris).
  { apply (proj2 (proj2 (cleanup_idempotent page_with_debris (fun _ => true) Hwf Hst (Hno _)))).
    intros e He. vm_compute in He. destruct He as [<- | [<- | []]]; reflexivity. }
  split; [exact Hsame|]. unfold removed_by_cleanup. rewrite Hsame. lia.
Defined.

(** C7, counterexample.  A [style] element whose only child is an
    overlay remnant is not empty when the first sweep looks for empty
    [style] elements; the sweep then removes the remnant, and the second
    sweep removes the [style] element.  And on a page without [style]
    elements, where the first sweep removes an overlay remnant and the
    style sheet then leaves a tooltip without an offset parent, the
    second sweep removes the tooltip. *)
Lemma second_sweep_removes_more :
  (wf style_with_overlay
   /\ ids (cleanup style_with_overlay) = [1]
   /\ removed_by_cleanup (cleanup style_with_overlay) = 1
   /\ cleanup (cleanup style_with_overlay) <> cleanup style_with_overlay)
  /\ (wf page_with_menu
      /\ style_text_only_b page_with_menu = true
      /\ ids (cleanup page_with_menu) = [1; 3]
      /\ removed_by_cleanup (relayout boxes_without_menu (cleanup page_with_menu)) = 1).
Proof.
  split.
  - split; [apply (bool_decide_unpack _); vm_compute; exact I|].
    split; [vm_compute; reflexivity|]. split; [vm_compute; reflexivity|].
    intros H. apply (f_equal ids) in H. vm_compute in H. discriminate.
  - split; [apply (bool_decide_unpack _); vm_compute; exact I|].
    repeat split; vm_compute; reflexivity.
Qed.

(** ** Viewport Virtualizer: the exempt tail *)

Example sweep_ten_at_bottom :
  collapsed_ids (virtualizeCheck (window_at 3200) (fresh (plain_conversation 10)))
  = [100; 101; 102; 103].
Proof. vm_compute. reflexivity. Qed.


Lemma expand_exempt_other msg v m :
  m <> msg -> collapsedData (expand_exempt msg v) !! m = collapsedData v !! m.
Proof.
  intros Hne. unfold expand_exempt.
  destruct (collapsedData v !! msg) as [data|]; [|reflexivity].
  destruct (hidden data); simpl; [|reflexivity].
  now rewrite lookup_insert_ne by congruence.
Qed.

Lemma expand_other msg v m :
  m <> msg -> collapsedData (expand msg v) !! m = collapsedData v !! m.
Proof.
  intros Hne. unfold expand.
  destruct (collapsedData v !! msg) as [data|]; [|reflexivity].
  destruct (hidden data); simpl; [|reflexivity].
  now rewrite lookup_insert_ne by congruence.
Qed.

Lemma collapse_other msg rect v m :
  m <> msg -> collapsedData (collapse msg rect v) !! m = collapsedData v !! m.
Proof. intros Hne. unfold collapse. simpl. now rewrite lookup_insert_ne by congruence. Qed.

(** A visit writes the WeakMap at its own key only. *)
Lemma visit_other w n msg i v m :
  m <> msg -> collapsedData (visit w n msg i v) !! m = collapsedData v !! m.
Proof.
  intros Hne. unfold visit.
  destruct (_ <=? _)%Z; [now apply expand_exempt_other|].
  destruct (_ || _); [|now apply expand_other].
  destruct (not_hidden msg v); [now apply collapse_other | reflexivity].
Qed.

Lemma forEach_from_visit_other w n l : forall i v m,
  ~ In m l ->
  collapsedData (forEach_from i l (visit w n) v) !! m = collapsedData v !! m.
Proof.
  induction l as [|a l IH]; intros i v m Hm; simpl; [reflexivity|].
  rewrite IH by (intros H; apply Hm; now right).
  apply visit_other. intros ->. apply Hm. now left.
Qed.

Lemma not_hidden_ext msg v v' :
  collapsedData v !! msg = collapsedData v' !! msg ->
  not_hidden msg v = not_hidden msg v'.
Proof. unfold not_hidden. now intros ->. Qed.











(** The display of the children of an exempt element. *)




















(** ** Viewport Virtualizer: the round trip *)

Lemma clear_placeholder_unset e : box_unset e -> clear_placeholder e = e.
Proof.
  destruct e as [i n a [h o v dsp cv cis] t b]. unfold box_unset. simpl.
  intros (-> & -> & ->). reflexivity.
Qed.

Lemma clear_display_unset e : display_unset e -> set_style (with_display "") e = e.
Proof.
  destruct e as [i n a [h o v dsp cv cis] t b]. unfold display_unset. simpl.
  intros ->. reflexivity.
Qed.

Lemma collapse_then_expand_dom msg h d :
  wf d ->
  update_children msg (set_style (with_display ""))
    (update msg clear_placeholder
      (update_children msg (set_style (with_display "none"))
        (update msg (pin_placeholder h) d)))
  = unset_placeholder msg d.
Proof.
  unfold wf, unset_placeholder. induction d as [|e k IHk s IHs]; simpl; [auto|].
  rewrite NoDup_cons_In, NoDup_app_In, in_app_iff. intros (Hn & Hk & Hd & Hs).
  destruct (nid e =? msg) eqn:E.
  - apply Nat.eqb_eq in E. subst msg. simpl. rewrite Nat.eqb_refl. simpl.
    rewrite Nat.eqb_refl.
    assert (Hnk : ~ In (nid e) (ids k)) by tauto.
    assert (Hns : ~ In (nid e) (ids s)) by tauto.
    repeat (first [ rewrite (update_absent _ _ s) by assumption
                  | rewrite (update_children_absent _ _ s) by assumption
                  | rewrite (update_absent _ _ k) by assumption ]).
    rewrite (update_absent _ _ (map_siblings _ k))
      by (rewrite ids_map_siblings; auto).
    now rewrite map_siblings_compose.
  - simpl. rewrite E. simpl. rewrite E. now rewrite IHk, IHs.
Qed.

Lemma unset_placeholder_id msg d : forall anc l,
  wf d -> In l (walk anc d) -> nid (elem l) = msg ->
  box_unset (elem l) -> Forall display_unset (level (childNodes l)) ->
  unset_placeholder msg d = d.
Proof.
  unfold wf, unset_placeholder. induction d as [|e k IHk s IHs]; intros anc l; simpl; [tauto|].
  rewrite NoDup_cons_In, NoDup_app_In, in_app_iff.
  intros (Hn & Hk & Hd & Hs) Hin Hid Hbox Hkids.
  assert (Hnk : ~ In (nid e) (ids k)) by tauto.
  assert (Hns : ~ In (nid e) (ids s)) by tauto.
  destruct Hin as [<- | Hin]; simpl in *.
  - subst msg. rewrite Nat.eqb_refl. simpl. rewrite Nat.eqb_refl.
    repeat (first [ rewrite (update_absent _ _ s) by assumption
                  | rewrite (update_children_absent _ _ s) by assumption
                  | rewrite (update_absent _ _ k) by assumption ]).
    rewrite clear_placeholder_unset by assumption.
    rewrite map_siblings_id; [reflexivity|].
    revert Hkids. apply List.Forall_impl. apply clear_display_unset.
  - apply in_app_iff in Hin.
    assert (Hne : nid e <> msg).
    { intros <-. destruct Hin as [Hin|Hin]; apply walk_In_ids in Hin;
        rewrite Hid in Hin; tauto. }
    apply Nat.eqb_neq in Hne. rewrite Hne. simpl. rewrite Hne.
    destruct Hin as [Hin|Hin].
    + rewrite (IHk _ _ Hk Hin Hid Hbox Hkids).
      assert (~ In msg (ids s)).
      { intros H. apply (Hd msg); auto. apply walk_In_ids in Hin. now rewrite Hid in Hin. }
      now rewrite update_absent, update_children_absent.
    + rewrite (IHs _ _ Hs Hin Hid Hbox Hkids).
      assert (~ In msg (ids k)).
      { intros H. apply (Hd msg); auto. apply walk_In_ids in Hin. now rewrite Hid in Hin. }
      now rewrite update_absent, update_children_absent.
Qed.

(** C5 (as amended).  Collapsing an element and expanding it again
    leaves the document as if the inline height, overflow and visibility
    of the element and the inline display of its children had been
    unset: the values they had before the collapse are not written back,
    and the cached height is kept in the WeakMap without being read.
    The document is back to what it was before the collapse when these
    inline properties were unset then. *)
Theorem collapse_expand_round_trip msg rect v l :
  wf (document v) ->
  lookup_node msg (document v) = Some l ->
  let v' := expand msg (collapse msg rect v) in
  collapsedData v' !! msg = Some (mkCollapsed (rect_height rect) false)
  /\ document v' = unset_placeholder msg (document v)
  /\ (box_unset (elem l) -> Forall display_unset (level (childNodes l)) ->
      document v' = document v).
Proof.
  intros Hwf Hlook. apply lookup_node_Some in Hlook as [Hin Hid].
  unfold expand, collapse. simpl. rewrite lookup_insert_eq. simpl.
  rewrite lookup_insert_eq.
  rewrite collapse_then_expand_dom by assumption.
  split; [reflexivity|]. split; [reflexivity|].
  intros Hbox Hkids. now apply (unset_placeholder_id msg _ [] l).
Qed.

(** C5, instance: a message without inline style is changed by the
    collapse, and is back as it was after the expansion. *)
Lemma collapse_expand_round_trip_witness :
  let v := fresh (plain_conversation 10) in
  let rect := mkRect (-3200) (-2800) 400 in
  wf (document v)
  /\ collapsedData (expand 100 (collapse 100 rect v)) !! 100 = Some (mkCollapsed 400 false)
  /\ document (collapse 100 rect v) <> document v
  /\ document (expand 100 (collapse 100 rect v)) = document v.
Proof.
  intros v rect.
  assert (Hwf : wf (document v)) by (apply (bool_decide_unpack _); vm_compute; exact I).
  assert (L : lookup_node 100 (document v) = Some (located 100 (document v)))
    by (vm_compute; reflexivity).
  destruct (collapse_expand_round_trip 100 rect v _ Hwf L) as (Hdata & _ & Hback).
  split; [exact Hwf|]. split; [exact Hdata|]. split.
  - intros H. apply (f_equal (overflow_of 100)) in H. vm_compute in H. discriminate.
  - apply Hback.
    + vm_compute. auto.
    + vm_compute. repeat constructor.
Defined.

(** C5, counterexample.  A message with [overflow: auto] inline is
    collapsed by one sweep and expanded by the next; its inline overflow
    is then unset, not [auto]. *)
Lemma inline_overflow_not_restored :
  let v0 := fresh conversation_with_scrollable_turn in
  let v1 := virtualizeCheck (window_at 3200) v0 in
  let v2 := virtualizeCheck (window_at 0) v1 in
  is_collapsed 100 v1 = true
  /\ is_collapsed 100 v2 = false
  /\ overflow_of 100 (document v0) = Some "auto"
  /\ overflow_of 100 (document v2) = Some ""
  /\ document v2 <> document v0.
Proof.
  intros v0 v1 v2.
  split; [vm_compute; reflexivity|]. split; [vm_compute; reflexivity|].
  split; [vm_compute; reflexivity|]. split; [vm_compute; reflexivity|].
  intros H. apply (f_equal (overflow_of 100)) in H. vm_compute in H. discriminate.
Qed.

(** ** Viewport Virtualizer and DOM Janitor on one document *)

Lemma style_only_set_style f : style_only (set_style f).
Proof. intros e. reflexivity. Qed.

Lemma style_only_pin h : style_only (pin_placeholder h).
Proof. intros e. reflexivity. Qed.

Lemma style_only_clear : style_only clear_placeholder.
Proof. intros e. reflexivity. Qed.

Lemma erase_update id f d : style_only f -> erase_styles (update id f d) = erase_styles d.
Proof.
  intros Hf. induction d as [|e k IHk s IHs]; simpl; [auto|].
  rewrite IHk, IHs. destruct (nid e =? id); now rewrite ?Hf.
Qed.

Lemma erase_map_siblings f d : style_only f -> erase_styles (map_siblings f d) = erase_styles d.
Proof.
  intros Hf. induction d as [|e k IHk s IHs]; simpl; [auto|]. now rewrite IHs, Hf.
Qed.

Lemma erase_update_children id f d :
  style_only f -> erase_styles (update_children id f d) = erase_styles d.
Proof.
  intros Hf. induction d as [|e k IHk s IHs]; simpl; [auto|].
  rewrite IHs. destruct (nid e =? id); now rewrite ?IHk, ?erase_map_siblings.
Qed.

Lemma erase_ids d : ids (erase_styles d) = ids d.
Proof. induction d as [|e k IHk s IHs]; simpl; [auto|]. now rewrite IHk, IHs. Qed.

Lemma erase_collapse msg rect v :
  erase_styles (document (collapse msg rect v)) = erase_styles (document v).
Proof.
  unfold collapse. simpl.
  rewrite erase_update_children by apply style_only_set_style.
  apply erase_update, style_only_pin.
Qed.

Lemma erase_expand msg v :
  erase_styles (document (expand msg v)) = erase_styles (document v).
Proof.
  unfold expand. destruct (collapsedData v !! msg) as [data|]; [|reflexivity].
  destruct (hidden data); [|reflexivity]. simpl.
  rewrite erase_update_children by apply style_only_set_style.
  apply erase_update, style_only_clear.
Qed.

Lemma erase_expand_exempt msg v :
  erase_styles (document (expand_exempt msg v)) = erase_styles (document v).
Proof.
  unfold expand_exempt. destruct (collapsedData v !! msg) as [data|]; [|reflexivity].
  destruct (hidden data); simpl.
  - rewrite erase_update_children by apply style_only_set_style.
    apply erase_update, style_only_clear.
  - apply erase_update, style_only_clear.
Qed.

Lemma erase_visit w n msg i v :
  erase_styles (document (visit w n msg i v)) = erase_styles (document v).
Proof.
  unfold visit. destruct (_ <=? _)%Z; [apply erase_expand_exempt|].
  destruct (_ || _); [|apply erase_expand].
  destruct (not_hidden msg v); [apply erase_collapse | reflexivity].
Qed.

Lemma erase_forEach_from_visit w n l : forall i v,
  erase_styles (document (forEach_from i l (visit w n) v)) = erase_styles (document v).
Proof.
  induction l as [|a l IH]; intros i v; simpl; [reflexivity|].
  rewrite IH. apply erase_visit.
Qed.

(** A sweep changes inline style and nothing else: no attribute, no
    element name, no text, no place in the tree. *)
Lemma erase_virtualizeCheck w v :
  erase_styles (document (virtualizeCheck w v)) = erase_styles (document v).
Proof.
  unfold virtualizeCheck. destruct (_ <? 10); [reflexivity|].
  apply erase_forEach_from_visit.
Qed.

Lemma virtualizeCheck_ids w v : ids (document (virtualizeCheck w v)) = ids (document v).
Proof. now rewrite <- erase_ids, erase_virtualizeCheck, erase_ids. Qed.

Lemma virtualizeCheck_wf w v : wf (document v) -> wf (document (virtualizeCheck w v)).
Proof. unfold wf. now rewrite virtualizeCheck_ids. Qed.

(** C1 (as amended).  The Virtualizer puts no marker on an element it
    collapses: a sweep changes inline style only.  The Janitor does not
    skip a Collapsed element: one that matches [[data-headlessui-state=""]]
    is removed by the next Janitor sweep, and one is kept when neither
    it nor any of its ancestors is a tooltip or popper wrapper, a [style]
    element or an overlay remnant. *)
Theorem collapsed_element_and_janitor w v msg l :
  wf (document v) ->
  lookup_node msg (document (virtualizeCheck w v)) = Some l ->
  is_collapsed msg (virtualizeCheck w v) = true ->
  erase_styles (document (virtualizeCheck w v)) = erase_styles (document v)
  /\ (sel_headlessui (elem l) = true ->
      in_document msg (cleanup (document (virtualizeCheck w v))) = false)
  /\ ((forall a, In a (chain l) -> janitor_target a = false) ->
      in_document msg (cleanup (document (virtualizeCheck w v))) = true).
Proof.
  intros Hwf Hlook _. apply lookup_node_Some in Hlook as [Hl Hid].
  pose proof (virtualizeCheck_wf w v Hwf) as Hwf'.
  split; [apply erase_virtualizeCheck|]. split.
  - intros Hsel. unfold in_document.
    destruct (existsb _ _) eqn:E; [exfalso | reflexivity].
    apply existsb_exists in E as (x & Hx & Heq). apply Nat.eqb_eq in Heq. subst x.
    rewrite <- Hid in Hx. exact (cleanup_removes_headlessui _ l Hwf' Hl Hsel Hx).
  - intros Hchain. unfold in_document. apply existsb_exists.
    destruct (cleanup_keeps _ l Hwf' Hl Hchain) as (l' & Hl' & (_ & He)).
    exists msg. split; [|apply Nat.eqb_refl].
    rewrite <- Hid, <- He. apply (walk_In_ids [] _ _ Hl').
Qed.

(** C1, instance: of two collapsed messages the Janitor removes the one
    that carries [data-headlessui-state=""] and keeps the other. *)
Lemma collapsed_element_and_janitor_witness :
  let v := fresh conversation_with_overlay_turn in
  let w := window_at 3200 in
  wf (document v)
  /\ is_collapsed 100 (virtualizeCheck w v) = true
  /\ in_document 100 (cleanup (document (virtualizeCheck w v))) = false
  /\ is_collapsed 101 (virtualizeCheck w v) = true
  /\ in_document 101 (cleanup (document (virtualizeCheck w v))) = true.
Proof.
  intros v w.
  assert (Hwf : wf (document v)) by (apply (bool_decide_unpack _); vm_compute; exact I).
  assert (H100 : is_collapsed 100 (virtualizeCheck w v) = true) by (vm_compute; reflexivity).
  assert (H101 : is_collapsed 101 (virtualizeCheck w v) = true) by (vm_compute; reflexivity).
  assert (L100 : lookup_node 100 (document (virtualizeCheck w v))
                 = Some (located 100 (document (virtualizeCheck w v))))
    by (vm_compute; reflexivity).
  assert (L101 : lookup_node 101 (document (virtualizeCheck w v))
                 = Some (located 101 (document (virtualizeCheck w v))))
    by (vm_compute; reflexivity).
  split; [exact Hwf|]. split; [exact H100|]. split; [|split; [exact H101|]].
  - apply (proj1 (proj2 (collapsed_element_and_janitor w v 100 _ Hwf L100 H100))).
    vm_compute. reflexivity.
  - apply (proj2 (proj2 (collapsed_element_and_janitor w v 101 _ Hwf L101 H101))).
    intros a Ha. vm_compute in Ha. destruct Ha as [<- | []]. vm_compute. reflexivity.
Defined.

(** C1, counterexample.  The first message of the conversation is
    collapsed by a sweep of the Virtualizer with the viewport at the end
    of the conversation, and the next Janitor sweep removes it. *)
Lemma collapsed_element_removed_by_janitor :
  let v := virtualizeCheck (window_at 3200) (fresh conversation_with_overlay_turn) in
  is_collapsed 100 v = true
  /\ in_document 100 (document v) = true
  /\ in_document 100 (cleanup (document v)) = false.
Proof. repeat split; vm_compute; reflexivity. Qed.

(** ** Listener throttle: spacing of the runs *)

Lemma count_succ n : (count (n + 1) == count n + 1)%Q.
Proof.
  unfold count. rewrite Nat.add_1_r, Nat2Z.inj_succ. unfold Z.succ.
  now rewrite inject_Z_plus.
Qed.

Lemma count_cases n : (n = 0 /\ (count n == 0)%Q) \/ (1 <= n /\ (1 <= count n)%Q).
Proof.
  destruct n as [|n]; [left; split; reflexivity | right; split; [lia|]].
  unfold count. rewrite <- (Qfloor_Z (Z.of_nat (S n))) at 1.
  change 1%Q with (inject_Z 1). rewrite <- Zle_Qle, Qfloor_Z. lia.
Qed.

Lemma Qle_bool_false a b : Qle_bool a b = false -> (b < a)%Q.
Proof.
  intros H. apply Qnot_le_lt. intros Hle. apply Qle_bool_iff in Hle. congruence.
Qed.

(** The browser may run a timer less than one millisecond before the
    delay asked for has passed, and not before it was set. *)
Lemma setTimeout_bounds now delay :
  (0 < delay)%Q ->
  (now + delay - 1 < setTimeout now delay)%Q /\ (now <= setTimeout now delay)%Q.
Proof.
  intros Hpos. unfold setTimeout.
  pose proof (Qlt_floor delay) as Hlt. rewrite inject_Z_plus in Hlt.
  change (inject_Z 1) with 1%Q in Hlt.
  assert (Hge : (0 <= inject_Z (Qfloor delay))%Q).
  { change 0%Q with (inject_Z 0). rewrite <- Zle_Qle.
    rewrite <- (Qfloor_Z 0). apply Qfloor_resp_le. now apply Qlt_le_weak. }
  split; lra.
Qed.

Ltac spaced_arith n H :=
  unfold THROTTLE_MS in *; simpl in *;
  pose proof (count_succ n);
  destruct (count_cases n) as [[? ?] | [? ?]];
  [subst n | specialize (H ltac:(assumption))];
  first [lra | lia].

Lemma step_spaced t0 tl t n s ev :
  spaced t0 tl t n s -> allowed t s ev = true ->
  spaced t0 (latest tl ev) (time_of ev) (n + List.length (snd (step s ev))) (fst (step s ev)).
Proof.
  intros [H1 H2 H3 H4 H5 H6] Hal. unfold allowed in Hal.
  apply andb_true_iff in Hal as [Ht Hev]. apply Qle_bool_iff in Ht.
  destruct ev as [now this args | now]; simpl in Ht |- *.
  - unfold throttled.
    destruct (Qle_bool (THROTTLE_MS - (now - lastRun s)) 0) eqn:E.
    + apply Qle_bool_iff in E. cbn [fst snd List.length].
      constructor; cbn [timeout lastRun]; intros; try discriminate;
        spaced_arith n H4.
    + apply Qle_bool_false in E.
      destruct (timeout s) as [due|] eqn:Hto; cbn [fst snd List.length];
        rewrite Nat.add_0_r.
      * destruct (H5 due eq_refl) as [Hdue Hn].
        constructor; cbn [timeout lastRun]; intros; try discriminate;
          try solve [spaced_arith n H4].
        match goal with Hd : Some _ = Some _ |- _ => injection Hd as <- end.
        split; [assumption | spaced_arith n H4].
      * destruct (setTimeout_bounds now _ E) as [Hlo Hge].
        constructor; cbn [timeout lastRun]; intros; try discriminate;
          try solve [spaced_arith n H4].
        match goal with Hd : Some _ = Some _ |- _ => injection Hd as <- end.
        split; spaced_arith n H4.
  - destruct (timeout s) as [due|] eqn:Hto; [|discriminate].
    apply Qle_bool_iff in Hev. destruct (H5 due eq_refl) as [Hdue Hn].
    cbn [deferred fst snd List.length].
    constructor; cbn [timeout lastRun]; intros; try discriminate;
      spaced_arith n H4.
Qed.

Lemma latest_call_cons tl ev tr :
  latest_call tl (ev :: tr) = latest_call (latest tl ev) tr.
Proof.
  unfold latest_call. destruct ev as [now this args | now]; simpl calls; [|reflexivity].
  rewrite final_cons. simpl. now destruct (final (calls tr)).
Qed.

Lemma run_cons s ev tr :
  run s (ev :: tr)
  = (fst (run (fst (step s ev)) tr), snd (step s ev) ++ snd (run (fst (step s ev)) tr)).
Proof. simpl. destruct (step s ev) as [s1 o1]. simpl. now destruct (run s1 tr). Qed.

Lemma run_spaced t0 tr : forall tl t n s,
  spaced t0 tl t n s -> admissible t s tr = true ->
  exists t', spaced t0 (latest_call tl tr) t'
               (n + List.length (snd (run s tr))) (fst (run s tr)).
Proof.
  induction tr as [|ev tr IH]; intros tl t n s Hsp Hadm.
  - exists t. simpl. unfold latest_call. simpl. now rewrite Nat.add_0_r.
  - simpl in Hadm. apply andb_true_iff in Hadm as [Hal Hadm].
    pose proof (step_spaced _ _ _ _ _ _ Hsp Hal) as Hsp1.
    destruct (IH _ _ _ _ Hsp1 Hadm) as (t' & Hsp').
    exists t'. rewrite run_cons, latest_call_cons. simpl.
    rewrite length_app, Nat.add_assoc. exact Hsp'.
Qed.

Lemma spaced_bound t0 tl t n s :
  spaced t0 tl t n s ->
  (Z.of_nat n <= Qfloor ((tl - t0) / (THROTTLE_MS - 1)) + 2)%Z.
Proof.
  intros [H1 H2 H3 H4 H5 H6].
  assert (H : ((THROTTLE_MS - 1) * (count n - 2) <= tl - t0)%Q).
  { destruct (timeout s) as [due|] eqn:E.
    - destruct (H5 due eq_refl) as [_ Hn]. unfold THROTTLE_MS in *. lra.
    - now apply H6. }
  assert (Hq : (inject_Z (Z.of_nat n - 2) <= (tl - t0) / (THROTTLE_MS - 1))%Q).
  { apply Qle_shift_div_l; [reflexivity|].
    unfold Z.sub. rewrite inject_Z_plus. fold (count n).
    change (inject_Z (- (2))) with (- (2))%Q. unfold THROTTLE_MS in *. lra. }
  apply Qfloor_resp_le in Hq. rewrite Qfloor_Z in Hq. lia.
Qed.

(** ** Listener throttle: the reading at the last run *)

Lemma run_app tr1 : forall s tr2,
  run s (tr1 ++ tr2)
  = (fst (run (fst (run s tr1)) tr2), snd (run s tr1) ++ snd (run (fst (run s tr1)) tr2)).
Proof.
  induction tr1 as [|ev tr1 IH]; intros s tr2.
  - simpl. now destruct (run s tr2).
  - rewrite <- app_comm_cons, !run_cons, IH. simpl. now rewrite app_assoc.
Qed.

Lemma final_app_keeps {A} (l1 l2 : list A) a :
  final l2 = Some a -> final (l1 ++ l2) = Some a.
Proof.
  intros H. induction l1 as [|b l1 IH]; [assumption|].
  simpl app. now rewrite final_cons, IH.
Qed.

(** [lastRun] holds the reading at the last run of the listener. *)
Lemma lastRun_step s ev :
  lastRun (fst (step s ev))
  = match final (map (fun _ => time_of ev) (snd (step s ev))) with
    | Some t => t
    | None => lastRun s
    end.
Proof.
  destruct ev as [now this args | now]; simpl.
  - unfold throttled. destruct (Qle_bool _ 0); [reflexivity|].
    now destruct (timeout s).
  - now destruct (timeout s).
Qed.

Lemma lastRun_run tr : forall s,
  lastRun (fst (run s tr))
  = match final (run_times s tr) with Some t => t | None => lastRun s end.
Proof.
  induction tr as [|ev tr IH]; intros s; [reflexivity|].
  rewrite run_cons. cbn [fst run_times]. rewrite IH.
  destruct (final (run_times (fst (step s ev)) tr)) as [t|] eqn:E.
  - now rewrite (final_app_keeps _ _ t E).
  - destruct (run_times (fst (step s ev)) tr) as [|a l];
      [|exfalso; exact (final_nonempty _ _ E)].
    rewrite app_nil_r. apply lastRun_step.
Qed.

(** ** Listener throttle: the arguments of the last run *)

Lemma step_coalesced c runs s ev :
  coalesced c runs s ->
  coalesced (latest_payload c ev) (runs ++ snd (step s ev)) (fst (step s ev)).
Proof.
  intros (Ha & Ht & Hf). destruct ev as [now this args | now]; simpl.
  - unfold throttled. destruct (Qle_bool _ 0); simpl.
    + repeat split. intros _. apply final_app_one.
    + destruct (timeout s); simpl; repeat split; discriminate.
  - destruct (timeout s) eqn:E; simpl.
    + rewrite Ha, Ht. repeat split. intros _. apply final_app_one.
    + rewrite app_nil_r. repeat split; auto.
Qed.

Lemma latest_payload_cons c ev tr :
  latest_payload_of c (ev :: tr) = latest_payload_of (latest_payload c ev) tr.
Proof.
  unfold latest_payload_of. destruct ev as [now this args | now]; simpl calls; [|reflexivity].
  rewrite final_cons. simpl. now destruct (final (calls tr)).
Qed.

Lemma run_coalesced tr : forall c runs s,
  coalesced c runs s ->
  coalesced (latest_payload_of c tr) (runs ++ snd (run s tr)) (fst (run s tr)).
Proof.
  induction tr as [|ev tr IH]; intros c runs s Hc.
  - simpl. now rewrite app_nil_r.
  - rewrite run_cons, latest_payload_cons. simpl. rewrite app_assoc.
    apply IH. now apply step_coalesced.
Qed.

Lemma no_timer_at_start now tr : admissible 0 let_throttled (Fire now :: tr) = false.
Proof. simpl. unfold allowed. simpl. now rewrite andb_false_r. Qed.

(** C2 (as amended).  For every run of the browser over a throttled
    handler, with clock readings of any precision and timer delays cut
    to whole milliseconds: when all invocations fall within [e]
    milliseconds the listener runs at most [e / 31 + 2] times (the
    quotient rounded down; 31 is the window less one millisecond); an
    invocation that comes 32 ms or more after the reading at the last
    run of the listener (after the time origin, when it has not run)
    runs it at once with its own [this] and arguments; and once no timer
    is pending the last run of the listener had the [this] and the
    arguments of the most recent invocation. *)
Theorem throttle_rate_and_coalescing tr :
  admissible 0 let_throttled tr = true ->
  (forall e, (elapsed tr <= e)%Q ->
     (Z.of_nat (List.length (executions tr))
      <= Qfloor (e / (THROTTLE_MS - 1)) + 2)%Z)
  /\ (forall tr' now this args, tr = tr' ++ [Invoke now this args] ->
        (last_run_time tr' + THROTTLE_MS <= now)%Q ->
        executions tr = executions tr' ++ [mkInvocation (Some this) (Some args)]
        /\ last_run_time tr = now)
  /\ (forall c, final (calls tr) = Some c ->
        timeout (fst (run let_throttled tr)) = None ->
        final (executions tr)
        = Some (mkInvocation (Some (call_this c)) (Some (call_args c)))).
Proof.
  intros Hadm. split; [|split].
  - intros e He.
    assert (Hmono : forall x, (x <= elapsed tr)%Q ->
              (Qfloor (x / (THROTTLE_MS - 1)) + 2
               <= Qfloor (e / (THROTTLE_MS - 1)) + 2)%Z).
    { intros x Hx. apply Z.add_le_mono_r, Qfloor_resp_le.
      unfold Qdiv. apply Qmult_le_compat_r; [lra | discriminate]. }
    destruct tr as [|[t0 this args | now] tr];
      [| |rewrite no_timer_at_start in Hadm; discriminate].
    + unfold executions. cbn [run snd List.length].
      specialize (Hmono 0%Q (Qle_refl _)).
      change (Qfloor (0 / (THROTTLE_MS - 1))) with 0%Z in Hmono. lia.
    + simpl in Hadm. apply andb_true_iff in Hadm as [Hal Hadm].
      apply andb_true_iff in Hal as [Ht0 _]. apply Qle_bool_iff in Ht0. simpl in Ht0.
      assert (Hsp : spaced t0 t0 t0
                      (List.length (snd (throttled t0 this args let_throttled)))
                      (fst (throttled t0 this args let_throttled))).
      { unfold throttled. cbn [lastRun timeout let_throttled].
        destruct (Qle_bool (THROTTLE_MS - (t0 - 0)) 0) eqn:E; cbn [fst snd List.length].
        - constructor; cbn [timeout lastRun]; intros; try discriminate;
            change (count 1) with 1%Q; unfold THROTTLE_MS; lra.
        - apply Qle_bool_false in E.
          destruct (setTimeout_bounds t0 _ E) as [Hlo Hge].
          constructor; cbn [timeout lastRun]; intros; try discriminate; try lia;
            change (count 0) with 0%Q; unfold THROTTLE_MS in *; try lra.
          match goal with Hd : Some _ = Some _ |- _ => injection Hd as <- end.
          split; lra. }
      destruct (run_spaced t0 tr _ _ _ _ Hsp Hadm) as (t' & Hsp').
      apply spaced_bound in Hsp'.
      unfold executions. rewrite run_cons. cbn [step snd]. rewrite length_app.
      rewrite Nat2Z.inj_add in *.
      assert (Hel : elapsed (Invoke t0 this args :: tr) = (latest_call t0 tr - t0)%Q).
      { unfold elapsed, latest_call. simpl calls. rewrite final_cons. simpl.
        now destruct (final (calls tr)). }
      specialize (Hmono (latest_call t0 tr - t0)%Q). rewrite Hel in Hmono.
      specialize (Hmono (Qle_refl _)). lia.
  - intros tr' now this args -> Hge.
    assert (Hrun : throttled now this args (fst (run let_throttled tr'))
                   = (mkThrottled None (Some args) (Some this) now,
                      [mkInvocation (Some this) (Some args)])).
    { unfold throttled. rewrite lastRun_run.
      change (match final (run_times let_throttled tr') with
              | Some t => t
              | None => lastRun let_throttled
              end) with (last_run_time tr').
      replace (Qle_bool (THROTTLE_MS - (now - last_run_time tr')) 0) with true;
        [reflexivity|].
      symmetry. apply Qle_bool_iff. lra. }
    split.
    + unfold executions. rewrite run_app. cbn [snd run step].
      rewrite Hrun. reflexivity.
    + unfold last_run_time. rewrite <- lastRun_run, run_app. cbn [fst run step].
      rewrite Hrun. reflexivity.
  - intros c Hc Hidle.
    destruct tr as [|[t0 this args | now] tr];
      [discriminate| |rewrite no_timer_at_start in Hadm; discriminate].
    assert (Hco : coalesced (mkCall t0 this args)
                    ([] ++ snd (throttled t0 this args let_throttled))
                    (fst (throttled t0 this args let_throttled))).
    { unfold coalesced, throttled. destruct (Qle_bool _ 0); simpl; repeat split; discriminate. }
    apply (run_coalesced tr) in Hco. destruct Hco as (_ & _ & Hf).
    unfold executions in *. rewrite run_cons in *. cbn [step fst snd] in *.
    rewrite <- app_assoc in Hf. simpl app in Hf. rewrite (Hf Hidle).
    unfold latest_payload_of. simpl calls in Hc. rewrite final_cons in Hc.
    destruct (final (calls tr)); congruence.
Qed.

(** C2, instance: five invocations within 70 ms run the listener four
    times or less; the fifth comes 38 ms after the last run and runs the
    listener at once, with its own arguments. *)
Lemma throttle_rate_and_coalescing_witness :
  admissible 0 let_throttled burst = true
  /\ (Z.of_nat (List.length (executions burst)) <= Qfloor (70 / (THROTTLE_MS - 1)) + 2)%Z
  /\ last_run_time (removelast burst) = 1032%Q
  /\ executions burst
     = executions (removelast burst) ++ [mkInvocation (Some 1) (Some [11])]
  /\ final (executions burst) = Some (mkInvocation (Some 1) (Some [11])).
Proof.
  assert (Hadm : admissible 0 let_throttled burst = true) by (vm_compute; reflexivity).
  destruct (throttle_rate_and_coalescing burst Hadm) as (Hrate & Hnow & Hlast).
  split; [exact Hadm|]. split; [|split; [|split]].
  - apply Hrate. vm_compute. discriminate.
  - vm_compute. reflexivity.
  - apply (Hnow (removelast burst) 1070%Q 1 [11]); [reflexivity|].
    vm_compute. discriminate.
  - apply (Hlast (mkCall 1070 1 [11])); vm_compute; reflexivity.
Defined.

(** C2, counterexample.  Two invocations that read the same clock value
    are within an elapsed time of 0 ms, for which the stated bound is
    one run; the listener runs twice.  And four invocations within
    63.9 ms, whose timers the browser runs after 31, 0 and 31 ms, run
    the listener four times, where the stated bound is three runs. *)
Lemma runs_exceed_the_stated_bound :
  (admissible 0 let_throttled two_calls_one_reading = true
   /\ elapsed two_calls_one_reading == 0
   /\ ~ (Z.of_nat (List.length (executions two_calls_one_reading))
         <= Qceiling (elapsed two_calls_one_reading / THROTTLE_MS) + 1)%Z)
  /\ (admissible 0 let_throttled truncated_delays = true
      /\ elapsed truncated_delays == 63.9
      /\ List.length (executions truncated_delays) = 4
      /\ ~ (Z.of_nat (List.length (executions truncated_delays))
            <= Qceiling (elapsed truncated_delays / THROTTLE_MS) + 1)%Z).
Proof.
  split.
  - split; [vm_compute; reflexivity|]. split; [vm_compute; reflexivity|].
    vm_compute. intros H. apply H. reflexivity.
  - split; [vm_compute; reflexivity|]. split; [vm_compute; reflexivity|].
    split; [vm_compute; reflexivity|].
    vm_compute. intros H. apply H. reflexivity.
Qed.

(** ** The registration entry point *)

Lemma listener_eqb_eq a b : listener_eqb a b = true <-> a = b.
Proof.
  destruct a, b; simpl; rewrite ?Nat.eqb_eq; split; intros H;
    try discriminate; try congruence; try reflexivity.
Qed.

Lemma same_listener_callback this type l o r :
  same_listener this type l o r = true -> reg_callback r = l.
Proof.
  unfold same_listener. rewrite !andb_true_iff. intros [[[_ _] H] _].
  now apply listener_eqb_eq.
Qed.

Lemma fresh_closure_not_registered p this type o :
  closures_allocated p ->
  existsb (same_listener this type (Closure (next_closure p)) o) (listeners p) = false.
Proof.
  intros [Hreg _]. destruct (existsb _ _) eqn:E; [exfalso | reflexivity].
  apply existsb_exists in E as (r & Hr & Hsame).
  apply same_listener_callback in Hsame.
  specialize (Hreg r _ Hr Hsame). lia.
Qed.



(** C8 (as amended).  A registration for a designated event type is
    wrapped with the throttle when its listener is a function; every
    other registration, for another event type or with a listener that
    is not a function, is handed to the browser exactly as a page
    without the interceptor would hand it: same target, type, listener
    and options, so that it is invoked and removed in the same way. *)
Theorem only_designated_functions_are_wrapped this type listener options p :
  (has THROTTLE_EVENTS type = true -> is_function listener = true ->
     listeners (addEventListener this type listener options p)
     = originalAddEventListener this type (Closure (next_closure p)) options (listeners p)
     /\ closures (addEventListener this type listener options p) !! next_closure p
        = Some (listener, let_throttled))
  /\ (has THROTTLE_EVENTS type = false \/ is_function listener = false ->
      addEventListener this type listener options p
      = unwrapped_addEventListener this type listener options p
      /\ forall l o, page_removeEventListener this type l o
                       (addEventListener this type listener options p)
                     = page_removeEventListener this type l o
                       (unwrapped_addEventListener this type listener options p)).
Proof.
  split.
  - intros Hty Hfn. unfold addEventListener. rewrite Hty, Hfn. simpl.
    split; [reflexivity | apply lookup_insert_eq].
  - intros H.
    assert (E : addEventListener this type listener options p
                = unwrapped_addEventListener this type listener options p).
    { unfold addEventListener, unwrapped_addEventListener.
      destruct H as [-> | ->]; [reflexivity | now rewrite andb_false_r]. }
    split; [assumption|]. intros l o. now rewrite E.
Qed.

(** C8, instance: a [keydown] function listener is wrapped, a [click]
    listener is registered and removed as on a page without the
    interceptor. *)
Lemma only_designated_functions_are_wrapped_witness :
  (listeners (addEventListener 1 "keydown" (Fn 5) default_options empty_page)
   = [mkRegistration 1 "keydown" (Closure 0) default_options])
  /\ addEventListener 1 "click" (Fn 5) default_options empty_page
     = unwrapped_addEventListener 1 "click" (Fn 5) default_options empty_page
  /\ listeners (page_removeEventListener 1 "click" (Fn 5) default_options
                  (addEventListener 1 "click" (Fn 5) default_options empty_page)) = [].
Proof.
  split; [|split].
  - apply (proj1 (only_designated_functions_are_wrapped
                    1 "keydown" (Fn 5) default_options empty_page));
      vm_compute; reflexivity.
  - apply (proj2 (only_designated_functions_are_wrapped
                    1 "click" (Fn 5) default_options empty_page)).
    left. vm_compute. reflexivity.
  - rewrite (proj2 (proj2 (only_designated_functions_are_wrapped
                             1 "click" (Fn 5) default_options empty_page)
                      (or_introl eq_refl)) (Fn 5) default_options).
    vm_compute. reflexivity.
Defined.

(** C8, counterexample.  A registration for [input] whose listener is an
    object with [handleEvent] is handed to the browser as it is: no
    closure is made, the object itself is registered. *)
Lemma handler_object_not_wrapped :
  has THROTTLE_EVENTS "input" = true
  /\ listeners (addEventListener 1 "input" (HandlerObject 5) default_options empty_page)
     = [mkRegistration 1 "input" (HandlerObject 5) default_options]
  /\ closures (addEventListener 1 "input" (HandlerObject 5) default_options empty_page) = ∅.
Proof. repeat split; vm_compute; reflexivity. Qed.

(** ** Lazy Render Scheduler *)

Lemma elements_append_siblings d new :
  forall e, In e (elements (append_siblings d new)) -> In e (elements d) \/ In e (elements new).
Proof.
  induction d as [|e0 k IHk s IHs]; simpl; intros e; [tauto|].
  rewrite !in_app_iff. intros [H|[H|H]]; auto.
  apply IHs in H. tauto.
Qed.

Lemma elements_appendChild parent new d :
  forall e, In e (elements (appendChild parent new d)) ->
            In e (elements d) \/ In e (elements new).
Proof.
  induction d as [|e0 k IHk s IHs]; simpl; intros e; [tauto|].
  rewrite !in_app_iff. intros [H|[H|H]]; auto.
  - destruct (nid e0 =? parent).
    + apply elements_append_siblings in H. tauto.
    + apply IHk in H. tauto.
  - apply IHs in H. tauto.
Qed.

Lemma ids_append_siblings d new x :
  In x (ids d) -> In x (ids (append_siblings d new)).
Proof.
  induction d as [|e0 k IHk s IHs]; simpl; [tauto|].
  rewrite !in_app_iff. tauto.
Qed.

Lemma ids_appendChild parent new d x :
  In x (ids d) -> In x (ids (appendChild parent new d)).
Proof.
  induction d as [|e0 k IHk s IHs]; simpl; [tauto|].
  rewrite !in_app_iff. intros [H|[H|H]]; auto.
  right. left. destruct (nid e0 =? parent); [now apply ids_append_siblings | auto].
Qed.

Lemma marked_mark_observed e : marked (mark_observed e) = true.
Proof.
  unfold marked, mark_observed, hasAttribute, getAttribute. simpl.
  now rewrite lookup_insert_eq.
Qed.

Lemma observe_pre_inv pre s :
  lazy_inv s -> ~ In pre (enabled s) -> In pre (ids (lazy_document s)) ->
  lazy_inv (observe_pre pre s).
Proof.
  intros [H1 H2 H3 H4] Hne Hin. constructor; simpl.
  - intros e He Hen. rewrite elements_update in He.
    apply in_map_iff in He as (e0 & <- & He0).
    destruct (nid e0 =? pre) eqn:E.
    + apply Nat.eqb_eq in E. exfalso. apply Hne. now rewrite <- E.
    + now apply H1.
  - intros x Hx. apply elem_of_union in Hx as [Hx|Hx]; [|auto].
    apply elem_of_singleton in Hx. now subst x.
  - intros e He Hor. rewrite elements_update in He.
    apply in_map_iff in He as (e0 & <- & He0).
    destruct (nid e0 =? pre) eqn:E; [apply marked_mark_observed|].
    apply Nat.eqb_neq in E. apply H3; [assumption|].
    destruct Hor as [Hx|Hx]; [|now right]. left.
    apply elem_of_union in Hx as [Hx|Hx]; [|assumption].
    apply elem_of_singleton in Hx. contradiction.
  - intros x Hx. rewrite ids_update by reflexivity.
    destruct Hx as [Hx|Hx]; [|now apply H4; right].
    apply elem_of_union in Hx as [Hx|Hx]; [|now apply H4; left].
    apply elem_of_singleton in Hx. now subst x.
Qed.

Lemma observe_loop_inv q : forall s,
  lazy_inv s ->
  (forall pre, In pre q -> ~ In pre (enabled s) /\ In pre (ids (lazy_document s))) ->
  lazy_inv (forEach q observe_pre s).
Proof.
  induction q as [|pre q IH]; intros s Hinv Hq; simpl; [assumption|].
  apply IH.
  - destruct (Hq pre (or_introl eq_refl)). now apply observe_pre_inv.
  - intros x Hx. destruct (Hq x (or_intror Hx)) as [Hne Hin]. simpl.
    split; [assumption|]. now rewrite ids_update by reflexivity.
Qed.

Lemma observeCodeBlocks_inv s : lazy_inv s -> lazy_inv (observeCodeBlocks s).
Proof.
  intros Hinv. unfold observeCodeBlocks. apply observe_loop_inv; [assumption|].
  intros pre Hpre. rewrite querySelectorAll_elements in Hpre.
  apply in_map_iff in Hpre as (e & Hid & He). apply filter_In in He as [He Hsel].
  unfold sel_pre_unobserved in Hsel. apply andb_true_iff in Hsel as [_ Hun].
  apply negb_true_iff in Hun. subst pre. split.
  - intros Hen. destruct Hinv as [_ _ H3 _].
    specialize (H3 e He (or_intror Hen)). unfold marked in H3. congruence.
  - rewrite <- elements_ids. now apply in_map.
Qed.

(** The callback keeps the invariant for an entry whose target is
    observed, or was unobserved by an earlier entry of the delivery. *)
Lemma on_entry_inv en s :
  lazy_inv s -> target en ∈ observed s \/ In (target en) (enabled s) ->
  lazy_inv (on_entry en s).
Proof.
  intros [H1 H2 H3 H4] Hobs. unfold on_entry.
  destruct (isIntersecting en); [|now constructor].
  assert (Hnid : forall e0, nid (if nid e0 =? target en
                          then set_style (with_contentVisibility "visible") e0
                          else e0) = nid e0) by (intros e0; now destruct (nid e0 =? target en)).
  constructor; simpl.
  - intros e He Hen. rewrite elements_update in He.
    apply in_map_iff in He as (e0 & <- & He0). rewrite Hnid in Hen.
    destruct (nid e0 =? target en) eqn:E; [reflexivity|].
    apply Nat.eqb_neq in E. apply H1; [assumption|].
    apply in_app_iff in Hen as [Hen | [Heq | []]]; [assumption | congruence].
  - intros x Hx Hin. apply elem_of_difference in Hx as [Hx Hne].
    apply in_app_iff in Hin as [Hin | [<- | []]]; [exact (H2 _ Hx Hin)|].
    apply Hne. now apply elem_of_singleton.
  - intros e He Hor. rewrite elements_update in He.
    apply in_map_iff in He as (e0 & <- & He0).
    assert (Hm : marked e0 = true).
    { apply H3; [assumption|]. rewrite Hnid in Hor. destruct Hor as [Hx|Hx].
      - apply elem_of_difference in Hx as [Hx _]. now left.
      - apply in_app_iff in Hx as [Hx | [<- | []]]; [now right | assumption]. }
    now destruct (nid e0 =? target en).
  - intros x Hx. rewrite ids_update by reflexivity. apply H4.
    destruct Hx as [Hx|Hx].
    + apply elem_of_difference in Hx as [Hx _]. now left.
    + apply in_app_iff in Hx as [Hx | [<- | []]]; [now right | assumption].
Qed.

Lemma on_entry_known en s x :
  x ∈ observed s \/ In x (enabled s) ->
  x ∈ observed (on_entry en s) \/ In x (enabled (on_entry en s)).
Proof.
  intros Hx. unfold on_entry. destruct (isIntersecting en); [|assumption]. simpl.
  destruct Hx as [Hx|Hx]; [|right; apply in_app_iff; now left].
  destruct (Nat.eq_dec x (target en)) as [-> | Hne].
  - right. apply in_app_iff. right. now left.
  - left. apply elem_of_difference. split; [assumption|].
    intros H. apply elem_of_singleton in H. contradiction.
Qed.

Lemma intersection_loop_inv entries : forall s,
  lazy_inv s ->
  (forall en, In en entries -> target en ∈ observed s \/ In (target en) (enabled s)) ->
  lazy_inv (forEach entries on_entry s).
Proof.
  induction entries as [|en entries IH]; intros s Hinv Hobs; simpl; [assumption|].
  apply IH.
  - apply on_entry_inv; [assumption|]. apply Hobs. now left.
  - intros en' Hen'. apply on_entry_known. apply Hobs. now right.
Qed.

Lemma intersection_callback_inv entries s :
  lazy_inv s -> (forall en, In en entries -> target en ∈ observed s) ->
  lazy_inv (intersection_callback entries s).
Proof.
  intros Hinv Hobs. apply intersection_loop_inv; [assumption|].
  intros en Hen. left. now apply Hobs.
Qed.

Lemma lazy_step_inv s ev : lazy_inv s -> lazy_allowed s ev -> lazy_inv (lazy_step s ev).
Proof.
  intros Hinv Hal. destruct ev as [parent new | | entries]; simpl in *.
  - destruct Hinv as [H1 H2 H3 H4].
    assert (Hnew : forall e, In e (elements new) ->
                     ~ (nid e ∈ observed s \/ In (nid e) (enabled s))).
    { intros e He Hor. apply (Hal (nid e)); [|now apply H4].
      rewrite <- elements_ids. now apply in_map. }
    constructor; simpl; auto.
    + intros e He Hen. apply elements_appendChild in He as [He|He]; [auto|].
      exfalso. apply (Hnew e He). now right.
    + intros e He Hor. apply elements_appendChild in He as [He|He]; [auto|].
      exfalso. now apply (Hnew e He).
    + intros x Hx. apply ids_appendChild. auto.
  - now apply observeCodeBlocks_inv.
  - now apply intersection_callback_inv.
Qed.

Lemma lazy_run_inv tr : forall s,
  lazy_inv s -> lazy_admissible s tr -> lazy_inv (lazy_run s tr).
Proof.
  induction tr as [|ev tr IH]; intros s Hinv Hadm; simpl; [assumption|].
  destruct Hadm as [Hal Hadm]. apply IH; [now apply lazy_step_inv | assumption].
Qed.

Lemma lazy_inv_start d : lazy_inv (mkLazyCode d ∅ []).
Proof.
  constructor; simpl.
  - intros e _ [].
  - intros pre H. now apply not_elem_of_empty in H.
  - intros e _ [H|[]]. now apply not_elem_of_empty in H.
  - intros pre [H|[]]. now apply not_elem_of_empty in H.
Qed.

Lemma lazy_allowed_b_sound s ev : lazy_allowed_b s ev = true -> lazy_allowed s ev.
Proof.
  destruct ev as [parent new | | entries]; simpl; [| auto |].
  - rewrite forallb_forall. intros H x Hx Hin. specialize (H x Hx).
    apply negb_true_iff in H.
    assert (existsb (Nat.eqb x) (ids (lazy_document s)) = true); [|congruence].
    apply existsb_exists. exists x. split; [assumption | apply Nat.eqb_refl].
  - rewrite forallb_forall. intros Hobs en Hen.
    specialize (Hobs en Hen). now apply bool_decide_eq_true in Hobs.
Qed.

Lemma lazy_admissible_b_sound tr : forall s,
  lazy_admissible_b s tr = true -> lazy_admissible s tr.
Proof.
  induction tr as [|ev tr IH]; intros s; simpl; [auto|].
  rewrite andb_true_iff. intros [Hal Hadm].
  split; [now apply lazy_allowed_b_sound | now apply IH].
Qed.

(** The runs of the enabling branch, counted. *)

Lemma observe_loop_enabled_kept q : forall s,
  enabled (forEach q observe_pre s) = enabled s.
Proof.
  induction q as [|pre q IH]; intros s; simpl; [reflexivity|]. now rewrite IH.
Qed.

Lemma intersection_loop_enabled pre entries : forall s,
  count_occ Nat.eq_dec (enabled (forEach entries on_entry s)) pre
  = count_occ Nat.eq_dec (enabled s) pre
    + List.length (List.filter (intersecting_for pre) entries).
Proof.
  induction entries as [|en entries IH]; intros s; simpl; [lia|].
  rewrite IH. unfold on_entry, intersecting_for.
  destruct (isIntersecting en); simpl; [|lia].
  rewrite count_occ_app. simpl.
  destruct (Nat.eq_dec (target en) pre) as [Heq | Hne].
  - apply Nat.eqb_eq in Heq. rewrite Heq. simpl. lia.
  - apply Nat.eqb_neq in Hne. rewrite Hne. simpl. lia.
Qed.

Lemma lazy_step_enabled pre s ev :
  count_occ Nat.eq_dec (enabled (lazy_step s ev)) pre
  = count_occ Nat.eq_dec (enabled s) pre + intersecting_entries pre [ev].
Proof.
  destruct ev as [parent new | | entries]; simpl.
  - lia.
  - unfold observeCodeBlocks. rewrite observe_loop_enabled_kept. lia.
  - unfold intersection_callback. rewrite intersection_loop_enabled. lia.
Qed.

Lemma intersecting_entries_cons pre ev tr :
  intersecting_entries pre (ev :: tr)
  = intersecting_entries pre [ev] + intersecting_entries pre tr.
Proof. destruct ev; simpl; lia. Qed.

Lemma lazy_run_enabled pre tr : forall s,
  count_occ Nat.eq_dec (enabled (lazy_run s tr)) pre
  = count_occ Nat.eq_dec (enabled s) pre + intersecting_entries pre tr.
Proof.
  induction tr as [|ev tr IH]; intros s; [simpl; lia|].
  rewrite intersecting_entries_cons. simpl lazy_run. rewrite IH, lazy_step_enabled. lia.
Qed.

(** A delivery that enables [pre] is one that holds an entry for it. *)
Lemma filter_intersecting_nil pre entries :
  existsb (intersecting_for pre) entries = false ->
  List.filter (intersecting_for pre) entries = [].
Proof.
  induction entries as [|en entries IH]; simpl; [reflexivity|].
  intros H. apply orb_false_iff in H as [H1 H2]. rewrite H1. auto.
Qed.

Lemma no_entry_for_unobserved pre s entries :
  (forall en, In en entries -> target en ∈ observed s) -> pre ∉ observed s ->
  existsb (intersecting_for pre) entries = false.
Proof.
  intros Hobs Hpre. destruct (existsb _ entries) eqn:E; [exfalso | reflexivity].
  apply existsb_exists in E as (en & Hen & Hi). unfold intersecting_for in Hi.
  apply andb_true_iff in Hi as [_ Ht]. apply Nat.eqb_eq in Ht.
  apply Hpre. rewrite <- Ht. now apply Hobs.
Qed.

(** Once the branch has run for [pre], no later delivery holds an entry
    for it. *)
Lemma enabled_no_more_deliveries pre tr : forall s,
  lazy_inv s -> lazy_admissible s tr -> In pre (enabled s) ->
  enabling_deliveries pre tr = 0.
Proof.
  induction tr as [|ev tr IH]; intros s Hinv Hadm Hin; [reflexivity|].
  destruct Hadm as [Hal Hadm]. unfold enabling_deliveries. simpl.
  assert (Hno : enables pre ev = false).
  { destruct ev as [parent new | | entries]; simpl; try reflexivity.
    apply (no_entry_for_unobserved pre s); [exact Hal|].
    intros Hobs. exact (li_apart s Hinv pre Hobs Hin). }
  rewrite Hno. apply (IH (lazy_step s ev)); [now apply lazy_step_inv | assumption|].
  apply (count_occ_In Nat.eq_dec). rewrite lazy_step_enabled.
  apply (count_occ_In Nat.eq_dec) in Hin. lia.
Qed.

Lemma enabling_deliveries_le_one pre tr : forall s,
  lazy_inv s -> lazy_admissible s tr -> enabling_deliveries pre tr <= 1.
Proof.
  induction tr as [|ev tr IH]; intros s Hinv Hadm; [unfold enabling_deliveries; simpl; lia|].
  destruct Hadm as [Hal Hadm]. unfold enabling_deliveries. simpl.
  destruct (enables pre ev) eqn:E.
  - simpl. fold (enabling_deliveries pre tr).
    rewrite (enabled_no_more_deliveries pre tr (lazy_step s ev));
      [lia | now apply lazy_step_inv | assumption |].
    apply (count_occ_In Nat.eq_dec). rewrite lazy_step_enabled.
    destruct ev as [parent new | | entries]; simpl in E; try discriminate.
    simpl. apply existsb_exists in E as (en & Hen & Hi).
    assert (In en (List.filter (intersecting_for pre) entries)) by (apply filter_In; auto).
    destruct (List.filter (intersecting_for pre) entries); [contradiction | simpl; lia].
  - apply (IH (lazy_step s ev)); [now apply lazy_step_inv | assumption].
Qed.

Lemma filter_intersecting_once pre entries :
  NoDup (map target entries) ->
  List.length (List.filter (intersecting_for pre) entries) <= 1.
Proof.
  induction entries as [|en entries IH]; simpl; [lia|].
  intros Hnd. apply NoDup_cons_In in Hnd as [Hn Hnd].
  destruct (intersecting_for pre en) eqn:E; [|auto].
  unfold intersecting_for in E. apply andb_true_iff in E as [_ Ht].
  apply Nat.eqb_eq in Ht.
  rewrite filter_intersecting_nil; [simpl; lia|].
  destruct (existsb _ entries) eqn:Ex; [exfalso | reflexivity].
  apply existsb_exists in Ex as (en' & Hen' & Hi). unfold intersecting_for in Hi.
  apply andb_true_iff in Hi as [_ Ht']. apply Nat.eqb_eq in Ht'.
  apply Hn. rewrite Ht, <- Ht'. now apply in_map.
Qed.

Lemma intersecting_entries_le_deliveries pre tr :
  Forall reports_once tr -> intersecting_entries pre tr <= enabling_deliveries pre tr.
Proof.
  induction tr as [|ev tr IH]; intros H; [unfold enabling_deliveries; simpl; lia|].
  apply Forall_cons in H as [Hev H]. specialize (IH H).
  unfold enabling_deliveries in *. destruct ev as [parent new | | entries]; simpl; auto.
  destruct (existsb (intersecting_for pre) entries) eqn:E; simpl.
  - pose proof (filter_intersecting_once pre entries Hev). lia.
  - rewrite filter_intersecting_nil by assumption. simpl. lia.
Qed.

(** C9 (as amended).  Whatever the page streams in, however often the
    document is rescanned and however often the visibility of an element
    toggles, at most one delivery of intersection entries runs the
    rendering-enable branch for an element: the branch runs once for
    each entry of that delivery that reports the element inside the
    margin, so at most once when no delivery reports a target twice.
    An element for which the branch has run is not observed any more,
    keeps the marker that keeps rescans away from it, and keeps its
    rendering enabled. *)
Theorem render_enabled_in_one_delivery d tr pre :
  lazy_admissible (lazyCodeBlocks d) tr ->
  enabling_deliveries pre tr <= 1
  /\ count_occ Nat.eq_dec (enabled (lazy_run (lazyCodeBlocks d) tr)) pre
     = intersecting_entries pre tr
  /\ (Forall reports_once tr ->
      count_occ Nat.eq_dec (enabled (lazy_run (lazyCodeBlocks d) tr)) pre <= 1)
  /\ (In pre (enabled (lazy_run (lazyCodeBlocks d) tr)) ->
      (pre ∉ observed (lazy_run (lazyCodeBlocks d) tr))
      /\ (forall e, In e (elements (lazy_document (lazy_run (lazyCodeBlocks d) tr))) ->
            nid e = pre ->
            marked e = true /\ style_contentVisibility (style e) = "visible")).
Proof.
  intros Hadm.
  assert (Hstart : lazy_inv (lazyCodeBlocks d))
    by apply observeCodeBlocks_inv, lazy_inv_start.
  assert (Hinv : lazy_inv (lazy_run (lazyCodeBlocks d) tr))
    by (now apply lazy_run_inv).
  assert (Hone : enabling_deliveries pre tr <= 1)
    by (now apply (enabling_deliveries_le_one pre tr (lazyCodeBlocks d))).
  assert (Hcount : count_occ Nat.eq_dec (enabled (lazy_run (lazyCodeBlocks d) tr)) pre
                   = intersecting_entries pre tr).
  { rewrite lazy_run_enabled. unfold lazyCodeBlocks, observeCodeBlocks.
    rewrite observe_loop_enabled_kept. reflexivity. }
  split; [exact Hone|]. split; [exact Hcount|]. split.
  - intros Honce. rewrite Hcount.
    pose proof (intersecting_entries_le_deliveries pre tr Honce). lia.
  - intros Hin. split.
    + intros Hobs. exact (li_apart _ Hinv pre Hobs Hin).
    + intros e He Hid. subst pre. split.
      * apply (li_marked _ Hinv e He). now right.
      * now apply (li_visible _ Hinv e He).
Qed.

(** C9, instance: three code blocks, one of them streamed in, are each
    enabled once over a session of toggles and rescans. *)
Lemma render_enabled_in_one_delivery_witness :
  lazy_admissible (lazyCodeBlocks page_with_code) code_session
  /\ enabled (lazy_run (lazyCodeBlocks page_with_code) code_session) = [2; 3; 4]
  /\ enabling_deliveries 2 code_session <= 1
  /\ count_occ Nat.eq_dec (enabled (lazy_run (lazyCodeBlocks page_with_code) code_session)) 2
     <= 1
  /\ 2 ∉ observed (lazy_run (lazyCodeBlocks page_with_code) code_session).
Proof.
  assert (Hadm : lazy_admissible (lazyCodeBlocks page_with_code) code_session)
    by (apply lazy_admissible_b_sound; vm_compute; reflexivity).
  destruct (render_enabled_in_one_delivery page_with_code code_session 2 Hadm)
    as (Hone & _ & Hc & Ho).
  split; [exact Hadm|]. split; [vm_compute; reflexivity|]. split; [exact Hone|].
  split.
  - apply Hc. repeat constructor; simpl; try (apply (bool_decide_unpack _); vm_compute; exact I).
  - apply Ho. vm_compute. auto.
Defined.

(** C9, counterexample.  The browser delivers in one call the entries
    of a code block that entered the margin, left it and entered it
    again: the rendering-enable branch runs twice for the element. *)
Lemma toggles_in_one_delivery_enable_twice :
  lazy_admissible (lazyCodeBlocks page_with_code) toggles_in_one_delivery
  /\ enabled (lazy_run (lazyCodeBlocks page_with_code) toggles_in_one_delivery) = [2; 2]
  /\ ~ count_occ Nat.eq_dec
         (enabled (lazy_run (lazyCodeBlocks page_with_code) toggles_in_one_delivery)) 2 <= 1.
Proof.
  split; [apply lazy_admissible_b_sound; vm_compute; reflexivity|].
  split; [vm_compute; reflexivity|]. vm_compute. lia.
Qed.

(** ** Memory Pressure Monitor *)

Lemma sel_blob_img_dropped e : sel_blob_img (setAttribute "src" "" e) = false.
Proof.
  unfold sel_blob_img, attr_contains, getAttribute. simpl.
  rewrite lookup_insert_eq. simpl. apply andb_false_r.
Qed.

Lemma display_none_upd_src id e :
  display_none (upd id (setAttribute "src" "") e) = display_none e.
Proof. unfold upd. now destruct (nid e =? id). Qed.

Lemma rendered_upd_src id l :
  forallb (fun e => negb (display_none e)) (map (upd id (setAttribute "src" "")) l)
  = forallb (fun e => negb (display_none e)) l.
Proof.
  induction l as [|a l IH]; simpl; [reflexivity|].
  now rewrite display_none_upd_src, IH.
Qed.

Lemma offsetParent_upd_src id l :
  offsetParent (upd_located id (setAttribute "src" "") l) = offsetParent l.
Proof.
  unfold offsetParent, upd_located. simpl.
  rewrite display_none_upd_src, rendered_upd_src. f_equal.
  unfold upd. now destruct (nid (elem l) =? id).
Qed.

Lemma update_src_dropped id d : sources_dropped (update id (setAttribute "src" "") d) d.
Proof.
  intros l' Hl'. change (@nil Element) with (map (upd id (setAttribute "src" "")) []) in Hl'.
  rewrite walk_update in Hl'. apply in_map_iff in Hl' as (l & <- & Hl).
  exists l. split; [assumption|]. split; [|split].
  - unfold upd_located, upd. simpl. now destruct (nid (elem l) =? id).
  - apply offsetParent_upd_src.
  - unfold upd_located, upd. simpl. destruct (nid (elem l) =? id); [right | now left].
    apply sel_blob_img_dropped.
Qed.

Lemma sources_dropped_refl d : sources_dropped d d.
Proof. intros l Hl. exists l. split; [assumption|]. repeat split. now left. Qed.

Lemma sources_dropped_trans d1 d2 d3 :
  sources_dropped d1 d2 -> sources_dropped d2 d3 -> sources_dropped d1 d3.
Proof.
  intros H12 H23 l1 Hl1. destruct (H12 l1 Hl1) as (l2 & Hl2 & Hn12 & Ho12 & He12).
  destruct (H23 l2 Hl2) as (l3 & Hl3 & Hn23 & Ho23 & He23).
  exists l3. split; [assumption|]. split; [congruence|]. split; [congruence|].
  destruct He12 as [He12|He12]; [|now right].
  destruct He23 as [He23|He23]; [left; congruence | right; congruence].
Qed.

Lemma drop_detached_src_cases img d :
  drop_detached_src img d = d
  \/ drop_detached_src img d = update img (setAttribute "src" "") d.
Proof.
  unfold drop_detached_src. destruct (lookup_node img d); [|now left].
  destruct (negb _); [now right | now left].
Qed.

Lemma drop_detached_src_dropped img d : sources_dropped (drop_detached_src img d) d.
Proof.
  destruct (drop_detached_src_cases img d) as [-> | ->];
    [apply sources_dropped_refl | apply update_src_dropped].
Qed.

Lemma drop_detached_src_ids img d : ids (drop_detached_src img d) = ids d.
Proof.
  destruct (drop_detached_src_cases img d) as [-> | ->]; [reflexivity|].
  now apply ids_update.
Qed.

Lemma drop_loop_dropped q : forall d, sources_dropped (forEach q drop_detached_src d) d.
Proof.
  induction q as [|img q IH]; intros d; simpl; [apply sources_dropped_refl|].
  eapply sources_dropped_trans; [apply IH | apply drop_detached_src_dropped].
Qed.

Lemma drop_loop_post q : forall d l',
  wf d ->
  In l' (walk [] (forEach q drop_detached_src d)) ->
  In (nid (elem l')) q ->
  sel_blob_img (elem l') = true ->
  offsetParent l' = true.
Proof.
  induction q as [|img q IH]; intros d l' Hwf Hin Hq Hsel; [destruct Hq|].
  simpl in Hin.
  assert (Hwf1 : wf (drop_detached_src img d))
    by (unfold wf; now rewrite drop_detached_src_ids).
  destruct (drop_loop_dropped q _ l' Hin) as (l1 & Hl1 & Hn1 & Ho1 & He1).
  destruct He1 as [He1 | He1]; [|congruence].
  rewrite Ho1.
  destruct (Nat.eq_dec img (nid (elem l1))) as [Himg | Hne].
  2:{ rewrite <- Ho1. apply (IH _ l' Hwf1 Hin); [|assumption].
      destruct Hq as [Hq|Hq]; [congruence | assumption]. }
  unfold drop_detached_src in *.
  destruct (lookup_node img d) as [l0|] eqn:Hlook.
  - apply lookup_node_Some in Hlook as [Hl0 Hid0].
    destruct (offsetParent l0) eqn:Hop; simpl in *.
    + assert (l1 = l0) by (apply (walk_unique d); auto; congruence). congruence.
    + exfalso.
      change (@nil Element) with (map (upd img (setAttribute "src" "")) []) in Hl1.
      rewrite walk_update in Hl1. apply in_map_iff in Hl1 as (l & <- & Hl).
      unfold upd_located, upd in Himg, He1. simpl in *.
      destruct (nid (elem l) =? img) eqn:E.
      * rewrite He1, sel_blob_img_dropped in Hsel. discriminate.
      * apply Nat.eqb_neq in E. congruence.
  - exfalso. apply (lookup_node_None _ _ Hlook). rewrite Himg.
    apply (walk_In_ids [] _ _ Hl1).
Qed.

(** After the pass every blob-backed image of the document has an
    offset parent. *)
Lemma clear_image_bitmap_caches_post d l' :
  wf d -> In l' (walk [] (clear_image_bitmap_caches d)) ->
  sel_blob_img (elem l') = true -> offsetParent l' = true.
Proof.
  intros Hwf Hin Hsel. unfold clear_image_bitmap_caches in Hin.
  apply (drop_loop_post _ d l' Hwf Hin); [|assumption].
  destruct (drop_loop_dropped _ d l' Hin) as (l & Hl & Hn & _ & He).
  destruct He as [He|He]; [|congruence].
  rewrite Hn. apply querySelectorAll_In; [assumption|].
  unfold at_elem. congruence.
Qed.

(** The pass changes nothing when no blob-backed image lacks an offset
    parent. *)
Lemma clear_image_bitmap_caches_fixed d :
  wf d ->
  (forall l, In l (walk [] d) -> sel_blob_img (elem l) = true -> offsetParent l = true) ->
  clear_image_bitmap_caches d = d.
Proof.
  intros Hwf Hall. unfold clear_image_bitmap_caches. apply forEach_fixed.
  intros img Himg. apply querySelectorAll_elim in Himg as (l & Hl & Hid & Hsel).
  unfold drop_detached_src.
  destruct (lookup_node img d) as [l0|] eqn:Hlook; [|reflexivity].
  apply lookup_node_Some in Hlook as [Hl0 Hid0].
  assert (l0 = l) by (apply (walk_unique d); auto; congruence). subst l0.
  now rewrite (Hall l Hl Hsel).
Qed.

(** C3 (as amended).  When the monitor is triggered, by its interval or
    by a change to the hidden state more than 60 seconds after the last
    cleanup, it performs the mitigation pass whatever the heap sample
    is, and records the time: afterwards no blob-backed image without an
    offset parent is left with its source.  A sample above four fifths
    only adds a line to the console.  A visibility change that is not to
    the hidden state, or comes 60 seconds or less after the last
    cleanup, changes nothing. *)
Theorem mitigation_runs_at_every_trigger performance now m :
  (monitor_document (on_interval performance now m)
     = clear_image_bitmap_caches (monitor_document m)
   /\ lastCleanup (on_interval performance now m) = now)
  /\ (wf (monitor_document m) ->
      forall l, In l (walk [] (monitor_document (on_interval performance now m))) ->
                sel_blob_img (elem l) = true -> offsetParent l = true)
  /\ (forall t, (60000 < t - lastCleanup m)%Z ->
        on_visibilitychange true t performance now m = on_interval performance now m)
  /\ (forall hidden t, hidden = false \/ (t - lastCleanup m <= 60000)%Z ->
        on_visibilitychange hidden t performance now m = m)
  /\ (console (on_interval performance now m) = console m ++ [high_usage_line]
      \/ console (on_interval performance now m) = console m)
  /\ (forall mem, performance = Some (mkPerformance (Some mem)) ->
        (4 * totalJSHeapSize mem < 5 * usedJSHeapSize mem)%Z ->
        console (on_interval performance now m) = console m ++ [high_usage_line]).
Proof.
  split; [split; reflexivity|]. split; [|split; [|split; [|split]]].
  - intros Hwf l Hl Hsel. exact (clear_image_bitmap_caches_post _ l Hwf Hl Hsel).
  - intros t Ht. unfold on_visibilitychange, on_interval. simpl.
    replace (60000 <? t - lastCleanup m)%Z with true; [reflexivity|].
    symmetry. now apply Z.ltb_lt.
  - intros hidden t [-> | Ht]; unfold on_visibilitychange; [reflexivity|].
    replace (60000 <? t - lastCleanup m)%Z with false; [now rewrite andb_false_r|].
    symmetry. apply Z.ltb_ge. lia.
  - unfold on_interval, aggressiveCleanup. simpl.
    destruct performance as [[[mem|]]|]; simpl; auto. destruct (high_usage mem); auto.
  - intros mem -> Hhigh. unfold on_interval, aggressiveCleanup, high_usage. simpl.
    replace (_ <? _)%Z with true; [reflexivity|]. symmetry. now apply Z.ltb_lt.
Qed.

(** C3, instance: a page with one detached blob-backed image, triggers
    at 60000 and 60001 ms after the last cleanup, a heap at 85%. *)
Lemma mitigation_runs_at_every_trigger_witness :
  let m := mkMonitor page_with_detached_image 0 [] in
  wf (monitor_document m)
  /\ offsetParent (located 2 (monitor_document m)) = false
  /\ (sel_blob_img (elem (located 2 (monitor_document (on_interval half_full 120000 m))))
      = true ->
      offsetParent (located 2 (monitor_document (on_interval half_full 120000 m))) = true)
  /\ on_visibilitychange true 60001 half_full 60002 m = on_interval half_full 60002 m
  /\ on_visibilitychange true 60000 half_full 60001 m = m
  /\ console (on_interval (Some (mkPerformance (Some (mkMemoryInfo 85 100)))) 120000 m)
     = [high_usage_line].
Proof.
  intros m.
  assert (Hwf : wf (monitor_document m))
    by (apply (bool_decide_unpack _); vm_compute; exact I).
  split; [exact Hwf|]. split; [vm_compute; reflexivity|]. split; [|split; [|split]].
  - apply (proj1 (proj2 (mitigation_runs_at_every_trigger half_full 120000 m)) Hwf).
    vm_compute. auto.
  - apply (mitigation_runs_at_every_trigger half_full 60002 m). vm_compute. reflexivity.
  - apply (mitigation_runs_at_every_trigger half_full 60001 m). right. vm_compute. discriminate.
  - apply (proj2 (proj2 (proj2 (proj2 (proj2
      (mitigation_runs_at_every_trigger
         (Some (mkPerformance (Some (mkMemoryInfo 85 100)))) 120000 m)))))
      (mkMemoryInfo 85 100) eq_refl).
    vm_compute. reflexivity.
Defined.

(** C3, counterexample.  With the heap at half of its capacity the
    interval trigger performs the mitigation pass all the same: the
    detached blob-backed image loses its source. *)
Lemma mitigation_below_threshold :
  high_usage (mkMemoryInfo 50 100) = false
  /\ src_of 2 page_with_detached_image = Some "blob:https://chatgpt.com/1f2e"
  /\ src_of 2 (monitor_document
                 (on_interval half_full 120000 (mkMonitor page_with_detached_image 0 [])))
     = Some "".
Proof. repeat split; vm_compute; reflexivity. Qed.




(* ===================================================================== *)
(** * Part III.  Further properties of the engine and of its configurator *)
(* ===================================================================== *)

(** ** Listener throttle: the gap between two runs *)

Lemma step_due_after_last_run t s ev :
  (lastRun s <= t)%Q -> allowed t s ev = true ->
  due_after_last_run s ->
  due_after_last_run (fst (step s ev)) /\ (lastRun (fst (step s ev)) <= time_of ev)%Q.
Proof.
  intros Hle Hal Hdue. unfold allowed in Hal.
  apply andb_true_iff in Hal as [Ht _]. apply Qle_bool_iff in Ht.
  destruct ev as [now this args | now]; simpl in Ht |- *.
  - unfold throttled.
    destruct (Qle_bool (THROTTLE_MS - (now - lastRun s)) 0) eqn:E; cbn [fst lastRun].
    + split; [intros due; discriminate | lra].
    + apply Qle_bool_false in E.
      destruct (timeout s) as [t1|] eqn:Hto; cbn [fst lastRun];
        (split; [|lra]); intros due [= <-].
      * now apply Hdue.
      * destruct (setTimeout_bounds now _ E) as [Hlo _]. cbn [lastRun].
        unfold THROTTLE_MS in *. lra.
  - destruct (timeout s); cbn [deferred fst lastRun].
    + split; [intros due; discriminate | lra].
    + split; [assumption | lra].
Qed.

Lemma apart_from_later w lo lo' l :
  (lo' <= lo)%Q -> apart_from w lo l -> apart_from w lo' l.
Proof. destruct l as [|a l]; simpl; [auto|]. intros Hle [Ha Hl]. split; [lra | exact Hl]. Qed.

Lemma run_times_apart tr : forall t s,
  (lastRun s <= t)%Q -> due_after_last_run s -> admissible t s tr = true ->
  apart_from (THROTTLE_MS - 1) (lastRun s + (THROTTLE_MS - 1)) (run_times s tr).
Proof.
  induction tr as [|ev tr IH]; intros t s Hle Hdue Hadm; [exact I|].
  simpl in Hadm. apply andb_true_iff in Hadm as [Hal Hadm].
  destruct (step_due_after_last_run t s ev Hle Hal Hdue) as [Hdue1 Hle1].
  pose proof (IH _ _ Hle1 Hdue1 Hadm) as Hrest.
  unfold allowed in Hal. apply andb_true_iff in Hal as [_ Hev].
  cbn [run_times]. destruct ev as [now this args | now]; cbn [step time_of] in *.
  - unfold throttled in *.
    destruct (Qle_bool (THROTTLE_MS - (now - lastRun s)) 0) eqn:E.
    + apply Qle_bool_iff in E. cbn [fst snd map app lastRun] in *.
      split; [unfold THROTTLE_MS in *; lra | exact Hrest].
    + destruct (timeout s); cbn [fst snd map app lastRun] in *; exact Hrest.
  - destruct (timeout s) as [due|] eqn:E; [|discriminate].
    apply Qle_bool_iff in Hev. specialize (Hdue due E).
    cbn [deferred fst snd map app lastRun] in *.
    split; [lra | exact Hrest].
Qed.

Lemma run_times_length tr : forall s,
  List.length (run_times s tr) = List.length (snd (run s tr)).
Proof.
  induction tr as [|ev tr IH]; intros s; [reflexivity|].
  rewrite run_cons. simpl. now rewrite !length_app, length_map, IH.
Qed.

(** X1.  Over every sequence of events the browser can produce, with
    clock readings of any precision and timer delays cut to whole
    milliseconds, the listener of a throttled registration does not run
    until the clock reads more than 31 ms, and two successive runs are
    more than 31 ms apart (the window less one millisecond); the times
    listed are those of all the runs. *)
Theorem runs_are_a_window_apart tr :
  admissible 0 let_throttled tr = true ->
  apart_from (THROTTLE_MS - 1) (THROTTLE_MS - 1) (run_times let_throttled tr)
  /\ List.length (run_times let_throttled tr) = List.length (executions tr).
Proof.
  intros Hadm. split; [|apply run_times_length].
  apply (apart_from_later _ (lastRun let_throttled + (THROTTLE_MS - 1))).
  - simpl. lra.
  - apply (run_times_apart tr 0%Q let_throttled); [apply Qle_refl | | assumption].
    intros due. discriminate.
Qed.

(** X1, instance: the runs of [truncated_delays] are 31.9, 31.1 and
    31.9 ms apart. *)
Lemma runs_are_a_window_apart_witness :
  admissible 0 let_throttled truncated_delays = true
  /\ run_times let_throttled truncated_delays = [1000; 1031.9; 1063; 1094.9]%Q
  /\ apart_from (THROTTLE_MS - 1) (THROTTLE_MS - 1) (run_times let_throttled truncated_delays).
Proof.
  assert (Hadm : admissible 0 let_throttled truncated_delays = true)
    by (vm_compute; reflexivity).
  split; [exact Hadm|]. split; [vm_compute; reflexivity|].
  exact (proj1 (runs_are_a_window_apart truncated_delays Hadm)).
Defined.

(** ** The registration entry point: what every page keeps *)

Lemma originalAddEventListener_In this type l o rs r :
  In r (originalAddEventListener this type l o rs) ->
  In r rs \/ r = mkRegistration this type l o.
Proof.
  unfold originalAddEventListener.
  destruct l; try (now left);
    (destruct (existsb _ rs); [now left|];
     rewrite in_app_iff; simpl; intuition).
Qed.

Lemma empty_page_allocated : closures_allocated empty_page.
Proof. split; [intros r n [] | intros n _; apply lookup_empty]. Qed.

Lemma addEventListener_allocated p this type l o :
  closures_allocated p -> known_listener l p ->
  closures_allocated (addEventListener this type l o p).
Proof.
  intros [Hreg Hfree] Hknown. unfold addEventListener.
  destruct (has THROTTLE_EVENTS type && is_function l); split;
    cbn [listeners closures next_closure].
  - intros r n Hr Hcb. apply originalAddEventListener_In in Hr as [Hr | ->].
    + specialize (Hreg r n Hr Hcb). lia.
    + simpl in Hcb. injection Hcb as <-. lia.
  - intros n Hn. rewrite lookup_insert_ne by lia. apply Hfree. lia.
  - intros r n Hr Hcb. apply originalAddEventListener_In in Hr as [Hr | ->].
    + exact (Hreg r n Hr Hcb).
    + simpl in Hcb. subst l. exact Hknown.
  - exact Hfree.
Qed.

Lemma removeEventListener_allocated p this type l o :
  closures_allocated p -> closures_allocated (page_removeEventListener this type l o p).
Proof.
  intros [Hreg Hfree]. split; simpl; [|exact Hfree].
  intros r n Hr Hcb. unfold removeEventListener in Hr.
  apply filter_In in Hr as [Hr _]. exact (Hreg r n Hr Hcb).
Qed.

Lemma call_closure_allocated p n now this args :
  closures_allocated p -> n < next_closure p ->
  closures_allocated (fst (call_closure n now this args p)).
Proof.
  intros [Hreg Hfree] Hn. unfold call_closure.
  destruct (closures p !! n) as [[l0 s]|]; [|now split].
  destruct (throttled now this args s) as [s' runs]. split; simpl.
  - exact Hreg.
  - intros m Hm. rewrite lookup_insert_ne by lia. now apply Hfree.
Qed.

(** X2.  The closures a page holds are closures the interceptor has
    made: this is true of the empty page, and every registration
    (wrapped or not), every removal and every call of a closure keeps
    it true. *)
Theorem closures_allocated_is_kept p this type l o :
  closures_allocated empty_page
  /\ (closures_allocated p -> known_listener l p ->
      closures_allocated (addEventListener this type l o p))
  /\ (closures_allocated p ->
      closures_allocated (page_removeEventListener this type l o p))
  /\ (forall n now args, closures_allocated p -> n < next_closure p ->
        closures_allocated (fst (call_closure n now this args p))).
Proof.
  split; [apply empty_page_allocated|]. split; [apply addEventListener_allocated|].
  split; [apply removeEventListener_allocated|].
  intros n now args. apply call_closure_allocated.
Qed.

(** X2, instance: the page with one [input] listener, a second
    registration on it, a removal and a call. *)
Lemma closures_allocated_is_kept_witness :
  closures_allocated page_with_input_listener
  /\ closures_allocated
       (fst (call_closure 0 1000 1 [7]
          (page_removeEventListener 1 "input" (Fn 5) default_options
             (addEventListener 1 "paste" (Fn 6) default_options
                page_with_input_listener)))).
Proof.
  pose proof (closures_allocated_is_kept empty_page 1 "input" (Fn 5) default_options)
    as (H0 & Hadd & _).
  assert (H1 : closures_allocated page_with_input_listener) by (apply Hadd; [exact H0 | exact I]).
  split; [exact H1|].
  apply (closures_allocated_is_kept _ 1 "input" (Fn 5) default_options).
  - apply (closures_allocated_is_kept _ 1 "input" (Fn 5) default_options).
    apply (closures_allocated_is_kept _ 1 "paste" (Fn 6) default_options);
      [exact H1 | exact I].
  - vm_compute. lia.
Defined.

Lemma same_listener_self this type l o :
  same_listener this type l o (mkRegistration this type l o) = true.
Proof.
  unfold same_listener. simpl. rewrite Nat.eqb_refl, String.eqb_refl, eqb_reflx.
  rewrite !andb_true_r. now apply listener_eqb_eq.
Qed.

(** The browser keeps one registration of a listener. *)
Lemma originalAddEventListener_twice this type l o rs :
  originalAddEventListener this type l o (originalAddEventListener this type l o rs)
  = originalAddEventListener this type l o rs.
Proof.
  assert (H : forall rs', existsb (same_listener this type l o) rs' = true ->
                l <> Null -> originalAddEventListener this type l o rs' = rs').
  { intros rs' E Hl. unfold originalAddEventListener. rewrite E. now destruct l. }
  destruct (listener_eqb l Null) eqn:El.
  - apply listener_eqb_eq in El. now subst l.
  - assert (Hl : l <> Null) by (intros ->; discriminate).
    destruct (existsb (same_listener this type l o) rs) eqn:E0.
    + now rewrite !(H rs E0 Hl).
    + apply H; [|assumption].
      assert (E1 : originalAddEventListener this type l o rs
                   = rs ++ [mkRegistration this type l o]).
      { unfold originalAddEventListener. rewrite E0. now destruct l. }
      rewrite E1, existsb_app, E0. simpl. now rewrite same_listener_self.
Qed.

(** X3.  Registering the same function twice for a designated event
    type gives two registrations, each with a closure of its own, where
    the browser alone would keep one: the second registration of a page
    without the interceptor changes nothing. *)
Theorem wrapped_duplicates_are_not_suppressed p this type f o :
  closures_allocated p ->
  has THROTTLE_EVENTS type = true ->
  let n := next_closure p in
  listeners (addEventListener this type (Fn f) o (addEventListener this type (Fn f) o p))
  = listeners p ++ [mkRegistration this type (Closure n) o;
                    mkRegistration this type (Closure (S n)) o]
  /\ unwrapped_addEventListener this type (Fn f) o
       (unwrapped_addEventListener this type (Fn f) o p)
     = unwrapped_addEventListener this type (Fn f) o p.
Proof.
  intros Hal Hty n. split.
  - assert (Hal1 : closures_allocated (addEventListener this type (Fn f) o p)).
    { apply (addEventListener_allocated p this type (Fn f) o Hal). exact I. }
    assert (E1 : listeners (addEventListener this type (Fn f) o p)
                 = listeners p ++ [mkRegistration this type (Closure n) o]).
    { unfold addEventListener. rewrite Hty. simpl. fold n. unfold n at 1.
      now rewrite (fresh_closure_not_registered p this type o Hal). }
    assert (N1 : next_closure (addEventListener this type (Fn f) o p) = S n).
    { unfold addEventListener. now rewrite Hty. }
    pose proof (fresh_closure_not_registered _ this type o Hal1) as Hfresh.
    rewrite N1, E1 in Hfresh.
    set (p1 := addEventListener this type (Fn f) o p) in *.
    unfold addEventListener. rewrite Hty. cbn [is_function andb listeners].
    rewrite N1, E1. unfold originalAddEventListener.
    rewrite Hfresh, <- app_assoc. reflexivity.
  - unfold unwrapped_addEventListener. cbn [listeners closures next_closure].
    now rewrite originalAddEventListener_twice.
Qed.

(** X3, instance: [keydown] registered twice with the function 5 on the
    page that has an [input] listener. *)
Lemma wrapped_duplicates_are_not_suppressed_witness :
  List.length
    (listeners (addEventListener 1 "keydown" (Fn 5) default_options
                  (addEventListener 1 "keydown" (Fn 5) default_options
                     page_with_input_listener))) = 3
  /\ List.length
       (listeners (unwrapped_addEventListener 1 "keydown" (Fn 5) default_options
                     (unwrapped_addEventListener 1 "keydown" (Fn 5) default_options
                        page_with_input_listener))) = 2.
Proof.
  assert (Hal : closures_allocated page_with_input_listener)
    by (apply addEventListener_allocated; [apply empty_page_allocated | exact I]).
  destruct (wrapped_duplicates_are_not_suppressed page_with_input_listener 1 "keydown" 5
              default_options Hal eq_refl) as [H1 H2].
  split; [rewrite H1; vm_compute; reflexivity | rewrite H2; vm_compute; reflexivity].
Defined.

(** ** Viewport Virtualizer: one sweep per animation frame *)

Lemma scheduler_run_counts tr : forall scrolled s,
  handles_nonzero tr = true -> settled scrolled s ->
  frame_sweeps (scheduler_run s tr) = frame_sweeps s + frames_after_scroll scrolled tr
  /\ waiting (scheduler_run s tr) <= 1.
Proof.
  induction tr as [|ev tr IH]; intros scrolled s Hnz [Hraf Hwait].
  - simpl. split; [lia | destruct scrolled; lia].
  - simpl in Hnz. apply andb_true_iff in Hnz as [Hev Hnz].
    destruct ev as [handle | w | w]; simpl.
    + assert (Hst : settled true (scheduleVirtualize handle s)).
      { unfold scheduleVirtualize, settled. rewrite Hraf.
        destruct scrolled; simpl; [now split|].
        destruct handle; [discriminate | now rewrite Hwait]. }
      assert (Hfs : frame_sweeps (scheduleVirtualize handle s) = frame_sweeps s)
        by (unfold scheduleVirtualize; now destruct (truthy (rafId s))).
      destruct (IH true _ Hnz Hst) as [Hs Hw]. split; [|assumption].
      now rewrite Hs, Hfs.
    + assert (Hst : settled false (animation_frame w s)).
      { unfold animation_frame, settled. rewrite Hwait.
        destruct scrolled; simpl; [now split|]. now split. }
      assert (Hfs : frame_sweeps (animation_frame w s)
                    = frame_sweeps s + (if scrolled then 1 else 0)).
      { unfold animation_frame. rewrite Hwait. destruct scrolled; simpl; lia. }
      destruct (IH false _ Hnz Hst) as [Hs Hw]. split; [|assumption].
      rewrite Hs, Hfs. lia.
    + destruct (IH scrolled (interval_sweep w s) Hnz) as [Hs Hw]; [now split|].
      now split.
Qed.

(** X4.  However many scroll events come between two animation frames,
    the frame runs one sweep, and a frame that no scroll event precedes
    runs none: the sweeps run by frame callbacks are as many as the
    frames that follow a scroll event.  At most one callback waits at
    any time.  (The sweeps of the 5-second interval are apart from
    these.) *)
Theorem one_sweep_per_scrolled_frame d tr :
  handles_nonzero tr = true ->
  frame_sweeps (scheduler_run (virtualizeMessages d) tr) = frames_after_scroll false tr
  /\ waiting (scheduler_run (virtualizeMessages d) tr) <= 1.
Proof.
  intros Hnz.
  destruct (scheduler_run_counts tr false (virtualizeMessages d) Hnz) as [Hs Hw];
    [now split|].
  split; [exact Hs | exact Hw].
Qed.

(** X4, instance: three scroll events, a frame, a frame without scroll,
    an interval tick, two scroll events, a frame: two sweeps by frames. *)
Lemma one_sweep_per_scrolled_frame_witness :
  frame_sweeps
    (scheduler_run (virtualizeMessages (plain_conversation 10))
       [Scroll 1; Scroll 2; Scroll 3; AnimationFrame (window_at 3200);
        AnimationFrame (window_at 3200); Interval (window_at 0);
        Scroll 4; Scroll 5; AnimationFrame (window_at 0)]) = 2.
Proof.
  apply (one_sweep_per_scrolled_frame (plain_conversation 10)
           [Scroll 1; Scroll 2; Scroll 3; AnimationFrame (window_at 3200);
            AnimationFrame (window_at 3200); Interval (window_at 0);
            Scroll 4; Scroll 5; AnimationFrame (window_at 0)]).
  vm_compute. reflexivity.
Defined.

(** ** Viewport Virtualizer: what a sweep decides *)

Lemma is_collapsed_ext msg v v' :
  collapsedData v !! msg = collapsedData v' !! msg ->
  is_collapsed msg v = is_collapsed msg v'.
Proof. intros H. unfold is_collapsed. f_equal. now apply not_hidden_ext. Qed.

Lemma visit_decides w n msg i v :
  (Z.of_nat i < Z.of_nat n - 3)%Z ->
  is_collapsed msg (visit w n msg i v) = out_of_window w (document v) msg.
Proof.
  intros Hi. unfold visit, out_of_window.
  replace (Z.of_nat n - 3 <=? Z.of_nat i)%Z with false
    by (symmetry; apply Z.leb_gt; lia).
  destruct (_ || _).
  - destruct (not_hidden msg v) eqn:Hnh.
    + unfold is_collapsed, not_hidden, collapse. simpl. now rewrite lookup_insert_eq.
    + unfold is_collapsed. now rewrite Hnh.
  - unfold is_collapsed, not_hidden, expand.
    destruct (collapsedData v !! msg) as [data|] eqn:E.
    + destruct (hidden data) eqn:Hh; simpl.
      * now rewrite lookup_insert_eq.
      * now rewrite E, Hh.
    + now rewrite E.
Qed.

Lemma forEach_from_visit_decides w n l : forall i0 v j msg,
  stable_layout w -> NoDup l -> nth_error l j = Some msg ->
  (Z.of_nat (i0 + j) < Z.of_nat n - 3)%Z ->
  forall d, is_collapsed msg (forEach_from i0 l (visit w n) v) = out_of_window w d msg.
Proof.
  induction l as [|a l IH]; intros i0 v j msg Hst Hnd Hnth Hj d.
  - destruct j; discriminate.
  - apply NoDup_cons_In in Hnd as [Hna Hnd]. destruct j as [|j]; simpl in *.
    + injection Hnth as ->.
      rewrite (is_collapsed_ext msg _ (visit w n msg i0 v))
        by now apply forEach_from_visit_other.
      rewrite visit_decides by lia.
      unfold out_of_window. now rewrite (Hst (document v) d).
    + apply (IH (S i0) _ j); auto. lia.
Qed.

(** X5.  When the rectangles do not move during a sweep, a sweep over
    ten or more tracked elements leaves every element before the last
    three Collapsed if it lies beyond the viewport with its margin of
    1500px, and Expanded if not, whatever its state was before. *)
Theorem sweep_collapses_what_is_out_of_window w v i msg :
  wf (document v) ->
  stable_layout w ->
  10 <= List.length (getMessageContainers (document v)) ->
  nth_error (getMessageContainers (document v)) i = Some msg ->
  i < List.length (getMessageContainers (document v)) - 3 ->
  is_collapsed msg (virtualizeCheck w v) = out_of_window w (document v) msg.
Proof.
  intros Hwf Hst Hlen Hnth Hi. unfold virtualizeCheck.
  replace (List.length (getMessageContainers (document v)) <? 10) with false
    by (symmetry; apply Nat.ltb_ge; lia).
  apply (forEach_from_visit_decides w _ _ 0 v i msg); auto.
  - now apply querySelectorAll_NoDup.
  - simpl. lia.
Qed.

Lemma stacked_layout_stable y : stable_layout (window_at y).
Proof. intros d d' msg. reflexivity. Qed.

(** X5, instance: fifteen messages of 400px, the viewport of 800px at
    3600px: message 4 (1600 to 2000px) is collapsed, message 5 (2000 to
    2400px) is within the margin and stays expanded. *)
Lemma sweep_collapses_what_is_out_of_window_witness :
  let v := fresh (plain_conversation 15) in
  wf (document v)
  /\ is_collapsed 104 (virtualizeCheck (window_at 3600) v) = true
  /\ is_collapsed 105 (virtualizeCheck (window_at 3600) v) = false
  /\ collapsed_ids (virtualizeCheck (window_at 3600) v) = [100; 101; 102; 103; 104].
Proof.
  intros v.
  assert (Hwf : wf (document v)) by (apply (bool_decide_unpack _); vm_compute; exact I).
  assert (Hlen : 10 <= List.length (getMessageContainers (document v)))
    by (vm_compute; lia).
  split; [exact Hwf|]. split; [|split].
  - rewrite (sweep_collapses_what_is_out_of_window (window_at 3600) v 4 104 Hwf
               (stacked_layout_stable 3600) Hlen);
      [vm_compute; reflexivity | vm_compute; reflexivity | vm_compute; lia].
  - rewrite (sweep_collapses_what_is_out_of_window (window_at 3600) v 5 105 Hwf
               (stacked_layout_stable 3600) Hlen);
      [vm_compute; reflexivity | vm_compute; reflexivity | vm_compute; lia].
  - vm_compute. reflexivity.
Defined.

(** ** DOM Janitor: what a sweep leaves alone *)

Lemma shrinks_ids_incl d' d : shrinks d' d -> incl (ids d') (ids d).
Proof.
  intros Hsh x Hx. destruct (ids_In_walk [] _ _ Hx) as (l' & Hl' & <-).
  destruct (Hsh l' Hl') as (l & Hl & (_ & He & _)). rewrite He.
  exact (walk_In_ids [] _ _ Hl).
Qed.

(** X6.  A sweep of the Janitor only removes: every element of the
    document after the sweep is an element of the document before it,
    with the same ancestors, attributes and inline style; references
    stay unique, and the document does not grow. *)
Theorem cleanup_only_removes d :
  wf d ->
  wf (cleanup d)
  /\ (forall l', In l' (walk [] (cleanup d)) ->
        exists l, In l (walk [] d) /\ ancestors l' = ancestors l /\ elem l' = elem l)
  /\ List.length (ids (cleanup d)) <= List.length (ids d).
Proof.
  intros Hwf. pose proof (cleanup_wf d Hwf) as Hwf'.
  split; [exact Hwf'|]. split.
  - intros l' Hl'. destruct (cleanup_shrinks d l' Hl') as (l & Hl & (Ha & He & _)).
    exists l. auto.
  - apply NoDup_incl_length; [now apply NoDup_ListNoDup|].
    apply shrinks_ids_incl, cleanup_shrinks.
Qed.

(** X6, instance: of the six elements of [page_with_debris] two are
    left, as they were. *)
Lemma cleanup_only_removes_witness :
  wf (cleanup page_with_debris)
  /\ List.length (ids (cleanup page_with_debris)) <= 6
  /\ getElement 6 (cleanup page_with_debris) = getElement 6 page_with_debris.
Proof.
  assert (Hwf : wf page_with_debris) by (apply (bool_decide_unpack _); vm_compute; exact I).
  destruct (cleanup_only_removes page_with_debris Hwf) as (H1 & _ & H3).
  split; [exact H1|]. split; [exact H3|]. vm_compute. reflexivity.
Defined.

Lemma same_place_stale l' l : same_place l' l -> stale l' = stale l.
Proof. intros [Ha He]. unfold stale, offsetParent, closest. now rewrite Ha, He. Qed.

(** The first loop keeps a tooltip that does not pass its test, when no
    ancestor of the tooltip is in the list. *)
Lemma tooltips_loop_keeps q : forall d l,
  wf d -> In l (walk [] d) -> stale l = false ->
  (forall a, In a (ancestors l) -> ~ In (nid a) q) ->
  exists l', In l' (walk [] (forEach q remove_stale_tooltip d)) /\ same_place l' l.
Proof.
  induction q as [|el q IH]; intros d l Hwf Hl Hst Hanc; simpl.
  - exists l. split; [assumption | split; reflexivity].
  - assert (H1 : exists l1, In l1 (walk [] (remove_stale_tooltip el d)) /\ same_place l1 l).
    { destruct (Nat.eq_dec el (nid (elem l))) as [-> | Hne].
      - exists l. split; [|split; reflexivity].
        unfold remove_stale_tooltip.
        destruct (lookup_node (nid (elem l)) d) as [l0|] eqn:Hlook; [|assumption].
        apply lookup_node_Some in Hlook as [Hl0 Hid0].
        assert (l0 = l) by (apply (walk_unique d); auto). subst l0.
        fold (stale l). now rewrite Hst.
      - destruct (remove_stale_tooltip_cases el d) as [-> | ->].
        + exists l. split; [assumption | split; reflexivity].
        + apply remove_keeps; [assumption|].
          intros a [<- | Ha] Heq; [congruence|].
          apply (Hanc a Ha). now left. }
    destruct H1 as (l1 & Hl1 & Hs1).
    destruct (IH _ l1 (remove_stale_tooltip_wf el d Hwf) Hl1) as (l' & Hl' & Hs').
    + now rewrite (same_place_stale _ _ Hs1).
    + destruct Hs1 as [Ha _]. rewrite Ha. intros a Ha' Hq.
      apply (Hanc a Ha'). now right.
    + exists l'. split; [assumption | eapply same_place_trans; eassumption].
Qed.

(** The second and the third loop keep an element when neither it nor
    an ancestor is a [style] element or an overlay remnant. *)
Lemma later_loops_keep d l1 :
  wf d -> In l1 (walk [] (after_tooltips d)) ->
  (forall a, In a (chain l1) ->
     String.eqb (localName a) "style" = false /\ sel_headlessui a = false) ->
  exists l3, In l3 (walk [] (cleanup d)) /\ same_place l3 l1.
Proof.
  intros Hwf Hl1 Hchain.
  pose proof (after_tooltips_wf d Hwf) as Hwf1.
  pose proof (after_styles_wf d Hwf) as Hwf2.
  destruct (forEach_keeps _ remove_cases
              (querySelectorAll sel_style_empty (after_tooltips d)) _ l1 Hl1)
    as (l2 & Hl2 & Hs2).
  { intros a Ha Hq. apply querySelectorAll_elim in Hq as (l' & Hl' & Hid & Hsel).
    destruct (chain_located _ l1 a Hl1 Ha) as (la & Hla & Hea).
    assert (la = l') by (apply (walk_unique (after_tooltips d)); auto; congruence).
    subst la. unfold sel_style_empty in Hsel. apply andb_true_iff in Hsel as [Hname _].
    rewrite Hea in Hname. destruct (Hchain a Ha) as [Hn _]. congruence. }
  fold (after_styles d) in Hl2.
  destruct (forEach_keeps _ remove_cases
              (querySelectorAll (at_elem sel_headlessui) (after_styles d)) _ l2 Hl2)
    as (l3 & Hl3 & Hs3).
  { rewrite (same_place_chain _ _ Hs2). intros a Ha Hq.
    apply querySelectorAll_elim in Hq as (l' & Hl' & Hid & Hsel).
    rewrite <- (same_place_chain _ _ Hs2) in Ha.
    destruct (chain_located _ l2 a Hl2 Ha) as (la & Hla & Hea).
    assert (la = l') by (apply (walk_unique (after_styles d)); auto; congruence).
    subst la. unfold at_elem in Hsel. rewrite Hea in Hsel.
    rewrite (same_place_chain _ _ Hs2) in Ha.
    destruct (Hchain a Ha) as [_ Hh]. congruence. }
  rewrite <- cleanup_unfold in Hl3.
  exists l3. split; [assumption | eapply same_place_trans; eassumption].
Qed.

(** X7.  A tooltip or popper wrapper that is not itself a [style]
    element or an overlay remnant, and has no tooltip, popper wrapper,
    [style] element or overlay remnant among its ancestors, is in the
    document after a sweep exactly when it has an offset parent or lies
    in an element in the open state (itself included): the Janitor
    leaves an open or rendered tooltip alone and removes the others. *)
Theorem tooltip_kept_iff_rendered_or_open d l :
  wf d -> In l (walk [] d) ->
  sel_tooltips (elem l) = true ->
  String.eqb (localName (elem l)) "style" = false ->
  sel_headlessui (elem l) = false ->
  (forall a, In a (ancestors l) -> janitor_target a = false) ->
  in_document (nid (elem l)) (cleanup d) = offsetParent l || closest sel_state_open l.
Proof.
  intros Hwf Hl Hsel Hname Hhead Hanc.
  assert (Hst : offsetParent l || closest sel_state_open l = negb (stale l)).
  { unfold stale. now rewrite negb_andb, !negb_involutive. }
  rewrite Hst. unfold in_document. destruct (stale l) eqn:Hstale; simpl.
  - destruct (existsb _ _) eqn:E; [exfalso | reflexivity].
    apply existsb_exists in E as (x & Hx & Heq). apply Nat.eqb_eq in Heq. subst x.
    destruct (ids_In_walk [] _ _ Hx) as (l3 & Hl3 & Hid).
    destruct (cleanup_shrinks d l3 Hl3) as (l0 & Hl0 & Ho).
    assert (l0 = l).
    { apply (walk_unique d); auto. destruct Ho as (_ & He & _). congruence. }
    subst l0. pose proof (cleanup_no_stale_tooltip d l3 Hwf Hl3) as Hns.
    destruct Ho as (Ha & He & Hk).
    rewrite (origin_stale l3 l (conj Ha (conj He Hk))), He in Hns.
    rewrite (Hns Hsel) in Hstale. discriminate.
  - apply existsb_exists. exists (nid (elem l)). split; [|apply Nat.eqb_refl].
    destruct (tooltips_loop_keeps (querySelectorAll (at_elem sel_tooltips) d) d l
                Hwf Hl Hstale) as (l1 & Hl1 & Hs1).
    { intros a Ha Hq. apply querySelectorAll_elim in Hq as (l' & Hl' & Hid & Hsl).
      destruct (walk_ancestors_located d [] l a Hl Ha) as [[] | (la & Hla & Hea)].
      assert (la = l') by (apply (walk_unique d); auto; congruence). subst la.
      unfold at_elem in Hsl. rewrite Hea in Hsl.
      specialize (Hanc a Ha). unfold janitor_target in Hanc.
      rewrite Hsl in Hanc. discriminate. }
    fold (after_tooltips d) in Hl1.
    destruct (later_loops_keep d l1 Hwf Hl1) as (l3 & Hl3 & Hs3).
    { rewrite (same_place_chain _ _ Hs1). intros a [<- | Ha]; [now split|].
      specialize (Hanc a Ha). unfold janitor_target in Hanc.
      apply orb_false_iff in Hanc as [Hanc Hh].
      apply orb_false_iff in Hanc as [_ Hn]. now split. }
    destruct Hs3 as [_ He3]. destruct Hs1 as [_ He1].
    rewrite <- He1, <- He3. exact (walk_In_ids [] _ _ Hl3).
Qed.

(** X7, instance: of the tooltips of [page_with_tooltips] the sweep
    removes the one that is neither laid out nor in an open popover. *)
Lemma tooltip_kept_iff_rendered_or_open_witness :
  wf page_with_tooltips
  /\ in_document 2 (cleanup page_with_tooltips) = false
  /\ in_document 4 (cleanup page_with_tooltips) = true
  /\ in_document 5 (cleanup page_with_tooltips) = true.
Proof.
  assert (Hwf : wf page_with_tooltips)
    by (apply (bool_decide_unpack _); vm_compute; exact I).
  assert (Hin : forall id, lookup_node id page_with_tooltips
                           = Some (located id page_with_tooltips) ->
                In (located id page_with_tooltips) (walk [] page_with_tooltips)).
  { intros id H. exact (proj1 (lookup_node_Some _ _ _ H)). }
  assert (Hanc : forall id a,
             In id [2; 4; 5] ->
             In a (ancestors (located id page_with_tooltips)) -> janitor_target a = false).
  { intros id a Hid Ha. simpl in Hid.
    destruct Hid as [<- | [<- | [<- | []]]]; vm_compute in Ha;
      repeat (destruct Ha as [<- | Ha]; [vm_compute; reflexivity|]); destruct Ha. }
  split; [exact Hwf|]. split; [|split].
  - refine (eq_trans (tooltip_kept_iff_rendered_or_open page_with_tooltips
                        (located 2 page_with_tooltips) Hwf (Hin 2 eq_refl)
                        eq_refl eq_refl eq_refl _) _);
      [intros a; apply (Hanc 2); simpl; auto | vm_compute; reflexivity].
  - refine (eq_trans (tooltip_kept_iff_rendered_or_open page_with_tooltips
                        (located 4 page_with_tooltips) Hwf (Hin 4 eq_refl)
                        eq_refl eq_refl eq_refl _) _);
      [intros a; apply (Hanc 4); simpl; auto | vm_compute; reflexivity].
  - refine (eq_trans (tooltip_kept_iff_rendered_or_open page_with_tooltips
                        (located 5 page_with_tooltips) Hwf (Hin 5 eq_refl)
                        eq_refl eq_refl eq_refl _) _);
      [intros a; apply (Hanc 5); simpl; auto | vm_compute; reflexivity].
Defined.

(** ** Loops that write to elements *)

(** After a loop that writes [f] to the elements of a list, an element
    either has what [f] establishes or is as it was and not in the
    list. *)
Lemma update_loop_elements (f : Element -> Element) (P : Element -> Prop) q :
  (forall e, nid (f e) = nid e) -> (forall e, P (f e)) -> (forall e, P e -> P (f e)) ->
  forall d e',
    In e' (elements (forEach q (fun id d => update id f d) d)) ->
    exists e, In e (elements d) /\ nid e' = nid e
              /\ (P e' \/ (e' = e /\ ~ In (nid e) q)).
Proof.
  intros Hnid Hf Hkeep. induction q as [|id q IH]; intros d e' He'; simpl in *.
  - exists e'. split; [assumption|]. split; [reflexivity|]. right. split; [reflexivity | tauto].
  - destruct (IH _ _ He') as (e1 & He1 & Hn1 & Hor).
    rewrite elements_update in He1. apply in_map_iff in He1 as (e & <- & He).
    exists e. split; [assumption|].
    destruct (nid e =? id) eqn:E.
    + rewrite Hnid in Hn1. split; [assumption|]. left.
      destruct Hor as [HP | [-> _]]; [assumption | apply Hf].
    + apply Nat.eqb_neq in E. split; [assumption|].
      destruct Hor as [HP | [-> Hq]]; [now left | right].
      split; [reflexivity|]. intros [Heq | Hin]; [congruence | contradiction].
Qed.

Lemma update_loop_ids (f : Element -> Element) q :
  (forall e, nid (f e) = nid e) ->
  forall d, ids (forEach q (fun id d => update id f d) d) = ids d.
Proof.
  intros Hnid. induction q as [|id q IH]; intros d; simpl; [reflexivity|].
  now rewrite IH, ids_update.
Qed.

(** An element the list does not name is not written to. *)
Lemma update_loop_other (f : Element -> Element) q :
  forall d e, In e (elements d) -> ~ In (nid e) q ->
    In e (elements (forEach q (fun id d => update id f d) d)).
Proof.
  induction q as [|id q IH]; intros d e He Hq; simpl; [assumption|].
  apply IH; [|intros H; apply Hq; now right].
  rewrite elements_update. apply in_map_iff. exists e. split; [|assumption].
  destruct (nid e =? id) eqn:E; [|reflexivity].
  apply Nat.eqb_eq in E. exfalso. apply Hq. now left.
Qed.

(** ** Image loading *)

Lemma hasAttribute_make_lazy e : hasAttribute "loading" (make_lazy e) = true.
Proof.
  unfold make_lazy, hasAttribute, getAttribute. simpl.
  now rewrite lookup_insert_ne, lookup_insert_eq by discriminate.
Qed.

Lemma lazyLoadImages_post d e' :
  In e' (elements (lazyLoadImages d)) -> sel_img_no_loading e' = false.
Proof.
  intros He'. unfold lazyLoadImages in He'.
  destruct (update_loop_elements make_lazy (fun e => hasAttribute "loading" e = true)
              _ (fun e => eq_refl) hasAttribute_make_lazy
              (fun e _ => hasAttribute_make_lazy e) d e' He')
    as (e & He & Hn & [HP | [-> Hq]]).
  - unfold sel_img_no_loading. rewrite HP. apply andb_false_r.
  - destruct (sel_img_no_loading e) eqn:Hsel; [exfalso | reflexivity].
    apply Hq. rewrite querySelectorAll_elements.
    apply in_map. apply filter_In. auto.
Qed.

(** X8.  After [lazyLoadImages] every image of the document has a
    [loading] attribute; an element that is not an image, and an image
    that had the attribute already (whatever its value), is as it was;
    and a second run changes nothing. *)
Theorem lazyLoadImages_marks_once d :
  (forall e, In e (elements (lazyLoadImages d)) ->
     localName e = "img" -> hasAttribute "loading" e = true)
  /\ (wf d -> forall e, In e (elements d) -> sel_img_no_loading e = false ->
        In e (elements (lazyLoadImages d)))
  /\ ids (lazyLoadImages d) = ids d
  /\ lazyLoadImages (lazyLoadImages d) = lazyLoadImages d.
Proof.
  split; [|split; [|split]].
  - intros e He Hname. pose proof (lazyLoadImages_post d e He) as H.
    unfold sel_img_no_loading in H. rewrite Hname in H. simpl in H.
    now apply negb_false_iff in H.
  - intros Hwf e He Hsel. unfold lazyLoadImages. apply update_loop_other; [assumption|].
    intros Hq. rewrite querySelectorAll_elements in Hq.
    apply in_map_iff in Hq as (e0 & Hid & He0). apply filter_In in He0 as [He0 Hsel0].
    assert (e0 = e); [|congruence].
    unfold wf in Hwf. rewrite <- elements_ids in Hwf.
    exact (NoDup_map_inj_on nid _ _ _ Hwf He0 He Hid).
  - unfold lazyLoadImages. now apply update_loop_ids.
  - unfold lazyLoadImages at 1.
    rewrite (querySelectorAll_nil (at_elem sel_img_no_loading) (lazyLoadImages d));
      [reflexivity|].
    intros l Hl. unfold at_elem. apply (lazyLoadImages_post d).
    rewrite <- (walk_elements []). now apply in_map.
Qed.

(** X8, instance: the image without [loading] becomes lazy, the eager
    image stays eager. *)
Lemma lazyLoadImages_marks_once_witness :
  wf page_with_images
  /\ option_map (getAttribute "loading") (getElement 2 (lazyLoadImages page_with_images))
     = Some (Some "lazy")
  /\ In (element 3 "img" [("src", "b.png"); ("loading", "eager")])
        (elements (lazyLoadImages page_with_images)).
Proof.
  assert (Hwf : wf page_with_images) by (apply (bool_decide_unpack _); vm_compute; exact I).
  split; [exact Hwf|]. split; [vm_compute; reflexivity|].
  apply (proj1 (proj2 (lazyLoadImages_marks_once page_with_images)) Hwf).
  - simpl. auto.
  - vm_compute. reflexivity.
Defined.

(** ** Registration of code blocks *)

Lemma observe_loop_document q : forall s,
  lazy_document (forEach q observe_pre s)
  = forEach q (fun id d => update id mark_observed d) (lazy_document s).
Proof.
  induction q as [|pre q IH]; intros s; simpl; [reflexivity|]. now rewrite IH.
Qed.

Lemma observe_loop_observed q : forall s i,
  i ∈ observed (forEach q observe_pre s) <-> In i q \/ i ∈ observed s.
Proof.
  induction q as [|pre q IH]; intros s i; simpl.
  - tauto.
  - rewrite IH. simpl. rewrite elem_of_union, elem_of_singleton.
    split; [intros [H | [-> | H]] | intros [[<- | H] | H]]; tauto.
Qed.

Lemma observe_loop_enabled q : forall s,
  enabled (forEach q observe_pre s) = enabled s.
Proof.
  induction q as [|pre q IH]; intros s; simpl; [reflexivity|]. now rewrite IH.
Qed.

Lemma observeCodeBlocks_post s e' :
  In e' (elements (lazy_document (observeCodeBlocks s))) -> sel_pre_unobserved e' = false.
Proof.
  intros He'. unfold observeCodeBlocks in He'. rewrite observe_loop_document in He'.
  destruct (update_loop_elements mark_observed (fun e => marked e = true)
              _ (fun e => eq_refl) marked_mark_observed
              (fun e _ => marked_mark_observed e) _ e' He')
    as (e & He & Hn & [HP | [-> Hq]]).
  - unfold sel_pre_unobserved. unfold marked in HP. rewrite HP. apply andb_false_r.
  - destruct (sel_pre_unobserved e) eqn:Hsel; [exfalso | reflexivity].
    apply Hq. rewrite querySelectorAll_elements.
    apply in_map. apply filter_In. auto.
Qed.

(** X9.  After [observeCodeBlocks] every [pre] of the document carries
    the marker; the observer has got exactly the [pre] elements that had
    no marker besides the targets it had; the pass enables no rendering;
    and a second pass with no new content changes nothing. *)
Theorem observeCodeBlocks_registers_every_pre s :
  (forall e, In e (elements (lazy_document (observeCodeBlocks s))) ->
     localName e = "pre" -> marked e = true)
  /\ (forall i, i ∈ observed (observeCodeBlocks s) <->
        (exists e, In e (elements (lazy_document s))
                   /\ sel_pre_unobserved e = true /\ nid e = i)
        \/ i ∈ observed s)
  /\ enabled (observeCodeBlocks s) = enabled s
  /\ observeCodeBlocks (observeCodeBlocks s) = observeCodeBlocks s.
Proof.
  split; [|split; [|split]].
  - intros e He Hname. pose proof (observeCodeBlocks_post s e He) as H.
    unfold sel_pre_unobserved in H. rewrite Hname in H. simpl in H.
    now apply negb_false_iff in H.
  - intros i. unfold observeCodeBlocks. rewrite observe_loop_observed.
    rewrite querySelectorAll_elements, in_map_iff.
    split; (intros [(e & H1 & H2) | H]; [left; exists e | now right]).
    + apply filter_In in H2. tauto.
    + split; [tauto|]. apply filter_In. tauto.
  - unfold observeCodeBlocks. apply observe_loop_enabled.
  - unfold observeCodeBlocks at 1.
    rewrite (querySelectorAll_nil (at_elem sel_pre_unobserved)
               (lazy_document (observeCodeBlocks s))); [reflexivity|].
    intros l Hl. unfold at_elem. apply (observeCodeBlocks_post s).
    rewrite <- (walk_elements []). now apply in_map.
Qed.

(** ** The mitigation pass, element by element *)

Lemma lookup_node_walk d l :
  wf d -> In l (walk [] d) -> lookup_node (nid (elem l)) d = Some l.
Proof.
  intros Hwf Hl. destruct (lookup_node (nid (elem l)) d) as [l0|] eqn:E.
  - apply lookup_node_Some in E as [Hl0 Hid]. f_equal. now apply (walk_unique d).
  - exfalso. apply (lookup_node_None _ _ E). apply (walk_In_ids [] _ _ Hl).
Qed.

Lemma setAttribute_twice k v e : setAttribute k v (setAttribute k v e) = setAttribute k v e.
Proof. unfold setAttribute. simpl. now rewrite insert_insert_eq. Qed.

(** One step of the loop, seen from an element of the document. *)
Lemma drop_detached_src_at img d l :
  wf d -> In l (walk [] d) ->
  exists l1, In l1 (walk [] (drop_detached_src img d))
    /\ nid (elem l1) = nid (elem l) /\ offsetParent l1 = offsetParent l
    /\ elem l1 = if (nid (elem l) =? img) && negb (offsetParent l)
                 then setAttribute "src" "" (elem l) else elem l.
Proof.
  intros Hwf Hl. unfold drop_detached_src.
  destruct (lookup_node img d) as [l0|] eqn:Hlook.
  - apply lookup_node_Some in Hlook as [Hl0 Hid0].
    destruct (offsetParent l0) eqn:Hop; simpl.
    + exists l. repeat (split; [solve [auto]|]).
      destruct (nid (elem l) =? img) eqn:E; [|reflexivity].
      apply Nat.eqb_eq in E.
      assert (l = l0) by (apply (walk_unique d); auto; congruence). subst l0.
      now rewrite Hop.
    + exists (upd_located img (setAttribute "src" "") l).
      split.
      { change (@nil Element) with (map (upd img (setAttribute "src" "")) []).
        rewrite walk_update. now apply in_map. }
      split; [unfold upd_located, upd; simpl; now destruct (nid (elem l) =? img)|].
      split; [apply offsetParent_upd_src|].
      unfold upd_located, upd. simpl.
      destruct (nid (elem l) =? img) eqn:E; [|reflexivity].
      apply Nat.eqb_eq in E.
      assert (l = l0) by (apply (walk_unique d); auto; congruence). subst l0.
      now rewrite Hop.
  - exists l. repeat (split; [solve [auto]|]).
    destruct (nid (elem l) =? img) eqn:E; [|reflexivity].
    apply Nat.eqb_eq in E. exfalso. apply (lookup_node_None _ _ Hlook).
    rewrite <- E. apply (walk_In_ids [] _ _ Hl).
Qed.

Lemma drop_loop_at q : forall d l,
  wf d -> In l (walk [] d) ->
  exists l', In l' (walk [] (forEach q drop_detached_src d))
    /\ nid (elem l') = nid (elem l) /\ offsetParent l' = offsetParent l
    /\ elem l' = if existsb (Nat.eqb (nid (elem l))) q && negb (offsetParent l)
                 then setAttribute "src" "" (elem l) else elem l.
Proof.
  induction q as [|img q IH]; intros d l Hwf Hl; simpl.
  - exists l. auto.
  - destruct (drop_detached_src_at img d l Hwf Hl) as (l1 & Hl1 & Hn1 & Ho1 & He1).
    assert (Hwf1 : wf (drop_detached_src img d))
      by (unfold wf; now rewrite drop_detached_src_ids).
    destruct (IH _ l1 Hwf1 Hl1) as (l' & Hl' & Hn' & Ho' & He').
    exists l'. split; [assumption|]. split; [congruence|]. split; [congruence|].
    rewrite He', Hn1, Ho1, He1.
    destruct (offsetParent l); simpl; [now rewrite !andb_false_r|].
    rewrite !andb_true_r.
    destruct (nid (elem l) =? img); simpl; [|reflexivity].
    destruct (existsb (Nat.eqb (nid (elem l))) q); [apply setAttribute_twice | reflexivity].
Qed.

Lemma clear_image_bitmap_caches_ids d : ids (clear_image_bitmap_caches d) = ids d.
Proof.
  unfold clear_image_bitmap_caches.
  generalize (querySelectorAll (at_elem sel_blob_img) d) as q. intros q. revert d.
  induction q as [|img q IH]; intros d; simpl; [reflexivity|].
  now rewrite IH, drop_detached_src_ids.
Qed.

(** X10.  The mitigation pass, element by element: it sets [src] to the
    empty string on the blob-backed images without an offset parent and
    leaves every other element (an image on screen, an image that is not
    blob-backed, anything that is not an image) as it is; it removes and
    adds no element; and a second pass changes nothing. *)
Theorem mitigation_pass_element_by_element d :
  wf d ->
  (forall l, In l (walk [] d) ->
     getElement (nid (elem l)) (clear_image_bitmap_caches d)
     = Some (if sel_blob_img (elem l) && negb (offsetParent l)
             then setAttribute "src" "" (elem l) else elem l))
  /\ ids (clear_image_bitmap_caches d) = ids d
  /\ clear_image_bitmap_caches (clear_image_bitmap_caches d) = clear_image_bitmap_caches d.
Proof.
  intros Hwf.
  assert (Hwf' : wf (clear_image_bitmap_caches d))
    by (unfold wf; now rewrite clear_image_bitmap_caches_ids).
  split; [|split].
  - intros l Hl. unfold clear_image_bitmap_caches in *.
    destruct (drop_loop_at (querySelectorAll (at_elem sel_blob_img) d) d l Hwf Hl)
      as (l' & Hl' & Hn' & Ho' & He').
    unfold getElement. rewrite <- Hn', (lookup_node_walk _ l' Hwf' Hl'). simpl.
    rewrite He'. f_equal.
    replace (existsb (Nat.eqb (nid (elem l))) (querySelectorAll (at_elem sel_blob_img) d))
      with (sel_blob_img (elem l)); [reflexivity|]. symmetry.
    destruct (sel_blob_img (elem l)) eqn:Hsel.
    + apply existsb_exists. exists (nid (elem l)). split; [|apply Nat.eqb_refl].
      now apply querySelectorAll_In.
    + destruct (existsb _ _) eqn:Hex; [|reflexivity].
      apply existsb_exists in Hex as (i & Hi & Heq). apply Nat.eqb_eq in Heq. subst i.
      apply querySelectorAll_elim in Hi as (l2 & Hl2 & Hid & Hsel2).
      assert (l2 = l) by (now apply (walk_unique d)). subst l2.
      unfold at_elem in Hsel2. congruence.
  - apply clear_image_bitmap_caches_ids.
  - apply clear_image_bitmap_caches_fixed; [assumption|].
    intros l Hl Hsel. exact (clear_image_bitmap_caches_post d l Hwf Hl Hsel).
Qed.

(** X10, instance: of three images only the blob-backed one without an
    offset parent loses its source. *)
Lemma mitigation_pass_element_by_element_witness :
  wf page_with_blob_images
  /\ src_of 2 (clear_image_bitmap_caches page_with_blob_images)
     = Some "blob:https://chatgpt.com/aa01"
  /\ src_of 3 (clear_image_bitmap_caches page_with_blob_images) = Some ""
  /\ src_of 4 (clear_image_bitmap_caches page_with_blob_images)
     = Some "https://chatgpt.com/c.png"
  /\ clear_image_bitmap_caches (clear_image_bitmap_caches page_with_blob_images)
     = clear_image_bitmap_caches page_with_blob_images.
Proof.
  assert (Hwf : wf page_with_blob_images)
    by (apply (bool_decide_unpack _); vm_compute; exact I).
  destruct (mitigation_pass_element_by_element page_with_blob_images Hwf)
    as (Hat & _ & Hidem).
  assert (Hin : forall i, in_document i page_with_blob_images = true ->
                  In (located i page_with_blob_images) (walk [] page_with_blob_images)).
  { intros i Hi. unfold located.
    destruct (lookup_node i page_with_blob_images) eqn:E.
    - now apply lookup_node_Some in E.
    - exfalso. apply (lookup_node_None _ _ E). unfold in_document in Hi.
      apply existsb_exists in Hi as (x & Hx & Heq). apply Nat.eqb_eq in Heq. now subst. }
  split; [exact Hwf|]. unfold src_of.
  split; [|split; [|split]].
  - change 2 with (nid (elem (located 2 page_with_blob_images))).
    rewrite (Hat _ (Hin 2 eq_refl)). vm_compute. reflexivity.
  - change 3 with (nid (elem (located 3 page_with_blob_images))).
    rewrite (Hat _ (Hin 3 eq_refl)). vm_compute. reflexivity.
  - change 4 with (nid (elem (located 4 page_with_blob_images))).
    rewrite (Hat _ (Hin 4 eq_refl)). vm_compute. reflexivity.
  - exact Hidem.
Defined.

(** ** Instant scroll *)

Lemma with_instant_behavior v : behavior (with_instant v) = Some (PString "instant").
Proof. unfold behavior, with_instant. apply lookup_insert_eq. Qed.

Lemma with_instant_twice v : with_instant (with_instant v) = with_instant v.
Proof. unfold with_instant. simpl. now rewrite insert_insert_eq. Qed.

(** X11.  The patched [scrollIntoView] throws for [null] and for
    nothing else; it hands [undefined] and the booleans to the original
    method as they are, and for every other argument it hands on one
    object with [behavior: 'instant'] and the other properties of the
    argument, so that the original method is never asked for a smooth
    scroll.  The patched [scrollTo] hands on the arguments it received,
    whatever they ask for. *)
Theorem scroll_patches this opts arguments :
  (scrollIntoView this opts = TypeError <-> opts = NullValue)
  /\ (undefined_or_boolean opts = true -> scrollIntoView this opts = Original this [opts])
  /\ (opts <> NullValue -> undefined_or_boolean opts = false ->
        scrollIntoView this opts
        = Original this [Object (<["behavior" := PString "instant"]> (spread opts))])
  /\ (forall t args, scrollIntoView this opts = Original t args ->
        forall v, In v args -> is_smooth (behavior v) = false)
  /\ (nth 0 arguments (Primitive PUndefined) <> NullValue ->
        scrollTo this arguments = Original this arguments).
Proof.
  split; [|split; [|split; [|split]]].
  - unfold scrollIntoView. destruct opts as [|p|props]; simpl.
    + tauto.
    + split; [|discriminate]. destruct p; discriminate.
    + split; [|discriminate]. destruct (is_smooth _); discriminate.
  - destruct opts as [|[]|props]; simpl; try discriminate; reflexivity.
  - intros Hnull Hub. change (Object _) with (with_instant opts). unfold scrollIntoView.
    destruct opts as [|p|props]; [contradiction| |]; simpl.
    + simpl in Hub. now rewrite Hub.
    + destruct (is_smooth _); [now rewrite with_instant_twice | reflexivity].
  - intros t args H v Hv. unfold scrollIntoView in H.
    destruct (smooth_requested opts) as [[]|]; [| |discriminate].
    + injection H as <- <-. destruct Hv as [<- | []].
      now rewrite with_instant_behavior.
    + destruct (undefined_or_boolean opts) eqn:Hub; injection H as <- <-;
        destruct Hv as [<- | []].
      * destruct opts as [|[]|props]; simpl in *; try discriminate; reflexivity.
      * now rewrite with_instant_behavior.
  - intros Hnull. unfold scrollTo.
    destruct (nth 0 arguments (Primitive PUndefined)); [contradiction| |]; reflexivity.
Qed.

(** X11, instance: a smooth scroll to the end of a block. *)
Lemma scroll_patches_witness :
  scrollIntoView 1 smooth_to_end
  = Original 1 [Object (list_to_map [("behavior", PString "instant");
                                     ("block", PString "end")])]
  /\ scrollIntoView 1 (Primitive (PBoolean false)) = Original 1 [Primitive (PBoolean false)]
  /\ scrollTo 1 [smooth_to_end] = Original 1 [smooth_to_end].
Proof.
  split; [|split].
  - refine (eq_trans (proj1 (proj2 (proj2 (scroll_patches 1 smooth_to_end []))) _ _) _);
      [discriminate | reflexivity |].
    vm_compute. reflexivity.
  - apply (scroll_patches 1 (Primitive (PBoolean false)) []). reflexivity.
  - apply (scroll_patches 1 smooth_to_end [smooth_to_end]). discriminate.
Defined.

(** ** The configuration the script logs *)

(** X12.  The configuration the content script ends with has every key
    of the generated one; a key of a saved configuration that could be
    read has the saved value, every other key the generated value; and
    the generated configuration stands as it is when the storage cannot
    be read, holds no item or an empty one, or holds text that is not
    JSON. *)
Theorem saved_config_overrides_generated {V : Type}
  (JSON_parse : string -> option (gmap string V)) (config : gmap string V) getItem :
  (forall k, is_Some (config !! k) ->
     is_Some (load_config JSON_parse config getItem !! k))
  /\ (forall saved props, getItem = Item (Some saved) -> saved <> "" ->
        JSON_parse saved = Some props ->
        forall k, load_config JSON_parse config getItem !! k
                  = match props !! k with Some v => Some v | None => config !! k end)
  /\ (getItem = StorageThrows \/ getItem = Item None \/ getItem = Item (Some "")
      \/ (exists saved, getItem = Item (Some saved) /\ JSON_parse saved = None) ->
      load_config JSON_parse config getItem = config).
Proof.
  split; [|split].
  - intros k [v Hk]. unfold load_config.
    destruct getItem as [|[saved|]]; [now exists v| |now exists v].
    destruct (String.eqb saved ""); [now exists v|].
    destruct (JSON_parse saved) as [props|]; [|now exists v].
    destruct (props !! k) as [w|] eqn:E.
    + exists w. now apply lookup_union_Some_l.
    + exists v. now rewrite lookup_union_r.
  - intros saved props -> Hne Hp k. unfold load_config.
    apply String.eqb_neq in Hne. rewrite Hne, Hp.
    destruct (props !! k) as [w|] eqn:E.
    + now apply lookup_union_Some_l.
    + now rewrite lookup_union_r.
  - intros [-> | [-> | [-> | (saved & -> & Hp)]]]; try reflexivity.
    unfold load_config. rewrite Hp. now destruct (String.eqb saved "").
Qed.

(** X12, instance: a saved [domCleanup: false] over the default
    configuration. *)
Lemma saved_config_overrides_generated_witness :
  load_config reads_saved_text defaultConfig (Item (Some saved_text)) !! "domCleanup"
  = Some false
  /\ load_config reads_saved_text defaultConfig (Item (Some saved_text)) !! "reduceMemory"
     = Some true
  /\ load_config reads_saved_text defaultConfig (Item (Some "{")) = defaultConfig.
Proof.
  split; [|split].
  - refine (eq_trans (proj1 (proj2 (saved_config_overrides_generated reads_saved_text
              defaultConfig (Item (Some saved_text)))) saved_text _ eq_refl _ eq_refl _) _);
      [discriminate | reflexivity].
  - refine (eq_trans (proj1 (proj2 (saved_config_overrides_generated reads_saved_text
              defaultConfig (Item (Some saved_text)))) saved_text _ eq_refl _ eq_refl _) _);
      [discriminate | reflexivity].
  - apply (saved_config_overrides_generated reads_saved_text defaultConfig (Item (Some "{"))).
    right. right. right. exists "{". split; reflexivity.
Defined.

(** ** The configurator *)

Lemma filter_length_Permutation {A} (f : A -> bool) l l' :
  Permutation l l' -> length (List.filter f l) = length (List.filter f l').
Proof.
  induction 1 as [|x l l' _ IH|x y l|l l' l'' _ IH1 _ IH2]; simpl.
  - reflexivity.
  - destruct (f x); simpl; congruence.
  - destruct (f x), (f y); reflexivity.
  - congruence.
Qed.

Lemma enabledCount_insert key (b : bool) (c : ExtensionConfig) :
  c !! key = None ->
  enabledCount (<[key := b]> c) = (if b then 1 else 0) + enabledCount c.
Proof.
  intros Hk. unfold enabledCount, Object_values.
  rewrite (filter_length_Permutation _ _ (map snd ((key, b) :: map_to_list c))).
  - simpl. now destruct b.
  - apply Permutation_map. now apply map_to_list_insert.
Qed.

Lemma totalCount_size (c : ExtensionConfig) : totalCount c = size c.
Proof. unfold totalCount, Object_keys. rewrite length_map. apply length_map_to_list. Qed.

(** X13.  Toggling a feature of the configuration twice gives the
    configuration back; one toggle leaves every other feature and the
    number of features as they are and moves the number of enabled
    features by exactly one, up when the feature was off, down when it
    was on. *)
Theorem toggleFeature_flips_one key (config : ExtensionConfig) :
  is_Some (config !! key) ->
  toggleFeature key (toggleFeature key config) = config
  /\ (forall k, k <> key -> toggleFeature key config !! k = config !! k)
  /\ totalCount (toggleFeature key config) = totalCount config
  /\ (config !! key = Some true ->
        enabledCount (toggleFeature key config) + 1 = enabledCount config)
  /\ (config !! key = Some false ->
        enabledCount (toggleFeature key config) = enabledCount config + 1).
Proof.
  intros [b Hb].
  assert (Hc : config = <[key := b]> (delete key config))
    by (symmetry; now apply insert_delete_id).
  assert (Ht : toggleFeature key config = <[key := negb b]> (delete key config)).
  { unfold toggleFeature. rewrite Hb. simpl. symmetry. apply insert_delete_eq. }
  assert (Hd : delete key config !! key = None) by apply lookup_delete_eq.
  split; [|split; [|split; [|split]]].
  - unfold toggleFeature. rewrite lookup_insert_eq, insert_insert_eq, Hb. simpl.
    rewrite negb_involutive. now apply insert_id.
  - intros k Hk. unfold toggleFeature. now apply lookup_insert_ne.
  - rewrite !totalCount_size. unfold toggleFeature.
    rewrite map_size_insert_Some; [reflexivity | now exists b].
  - intros H. assert (b = true) by congruence. subst b.
    rewrite Ht. rewrite Hc at 2. rewrite !enabledCount_insert by assumption.
    simpl. lia.
  - intros H. assert (b = false) by congruence. subst b.
    rewrite Ht. rewrite Hc at 2. rewrite !enabledCount_insert by assumption.
    simpl. lia.
Qed.

(** X13, instance: switching the Janitor off in the default
    configuration leaves nine of ten features on. *)
Lemma toggleFeature_flips_one_witness :
  enabledCount defaultConfig = 10
  /\ enabledCount (toggleFeature "domCleanup" defaultConfig) + 1 = enabledCount defaultConfig
  /\ toggleFeature "domCleanup" (toggleFeature "domCleanup" defaultConfig) = defaultConfig.
Proof.
  assert (H : is_Some (defaultConfig !! "domCleanup")) by (exists true; reflexivity).
  destruct (toggleFeature_flips_one "domCleanup" defaultConfig H) as (H1 & _ & _ & H4 & _).
  split; [vm_compute; reflexivity|]. split; [apply H4; reflexivity | exact H1].
Defined.

Lemma assign_loop_lookup (b : bool) ks : forall (c : ExtensionConfig) k,
  forEach ks (fun key newConfig => <[key := b]> newConfig) c !! k
  = if existsb (String.eqb k) ks then Some b else c !! k.
Proof.
  induction ks as [|a ks IH]; intros c k; simpl; [reflexivity|].
  rewrite IH. destruct (existsb (String.eqb k) ks); [now rewrite orb_true_r|].
  rewrite orb_false_r. destruct (String.eqb k a) eqn:E.
  - apply String.eqb_eq in E. subst a. apply lookup_insert_eq.
  - apply String.eqb_neq in E. now apply lookup_insert_ne.
Qed.

Lemma toggleAll_lookup b (c : ExtensionConfig) k :
  toggleAll b c !! k = match c !! k with Some _ => Some b | None => None end.
Proof.
  unfold toggleAll. rewrite assign_loop_lookup.
  destruct (c !! k) as [v|] eqn:E.
  - replace (existsb (String.eqb k) (Object_keys c)) with true; [reflexivity|].
    symmetry. apply existsb_exists. exists k. split; [|apply String.eqb_refl].
    unfold Object_keys. apply in_map_iff. exists (k, v). split; [reflexivity|].
    apply list_elem_of_In. now apply elem_of_map_to_list.
  - destruct (existsb _ _) eqn:Hex; [|reflexivity]. exfalso.
    apply existsb_exists in Hex as (k' & Hin & Heq). apply String.eqb_eq in Heq. subst k'.
    unfold Object_keys in Hin. apply in_map_iff in Hin as ([k' v] & Hk & Hin).
    simpl in Hk. subst k'. apply list_elem_of_In, elem_of_map_to_list in Hin. congruence.
Qed.

Lemma filter_length_all (b : bool) l :
  (forall v, In v l -> v = b) ->
  length (List.filter (fun x : bool => x) l) = if b then length l else 0.
Proof.
  induction l as [|a l IH]; intros H; simpl; [now destruct b|].
  rewrite (H a) by now left. destruct b; simpl; rewrite IH; auto;
    intros v Hv; apply H; now right.
Qed.

(** X14.  [toggleAll] gives every feature the value asked for and keeps
    the set of features: afterwards the number of enabled features is
    the number of features, or zero. *)
Theorem toggleAll_sets_every_feature enabled (config : ExtensionConfig) :
  (forall k, toggleAll enabled config !! k
             = match config !! k with Some _ => Some enabled | None => None end)
  /\ totalCount (toggleAll enabled config) = totalCount config
  /\ enabledCount (toggleAll enabled config)
     = (if enabled then totalCount config else 0).
Proof.
  assert (Hfmap : toggleAll enabled config = (fun _ => enabled) <$> config).
  { apply map_eq. intros k. rewrite toggleAll_lookup, lookup_fmap.
    now destruct (config !! k). }
  assert (Htot : totalCount (toggleAll enabled config) = totalCount config).
  { rewrite !totalCount_size, Hfmap. apply map_size_fmap. }
  split; [intros k; apply toggleAll_lookup|]. split; [exact Htot|].
  unfold enabledCount. rewrite (filter_length_all enabled).
  - unfold Object_values. rewrite length_map. rewrite <- Htot.
    unfold totalCount, Object_keys. now rewrite length_map.
  - intros v Hv. unfold Object_values in Hv. apply in_map_iff in Hv as ([k v'] & Hk & Hin).
    simpl in Hk. subst v'. apply list_elem_of_In, elem_of_map_to_list in Hin.
    rewrite toggleAll_lookup in Hin. destruct (config !! k); congruence.
Qed.
